(** * Terminal group service and utility process: a shallow embedding

    The development follows
    [src/vs/workbench/contrib/terminal/browser/terminalGroupService.ts]
    (class [TerminalGroupService]) and the [UtilityProcess] class of the
    electron-main utility process module.

    JavaScript numbers that hold indices are integers ([Z]); arrays are
    lists, with the out-of-range behaviour of the array methods written
    out; object references are compared through a numeric reference
    ([groupRef] for groups, the instance id for terminal instances);
    emitters are a log of fired events carried by the state. *)

From stdpp Require Import base numbers option list strings.

#[local] Open Scope Z_scope.

(** ** JavaScript arrays *)

Module JsArray.
Section Ops.
Context {A : Type}.

(** [arr.length] *)
Definition len (l : list A) : Z := Z.of_nat (length l).

(** [arr[i]]: [undefined] outside [0 .. length-1]. *)
Definition at_ (l : list A) (i : Z) : option A :=
  if decide (0 <= i) then l !! Z.to_nat i else None.

(** [arr.findIndex(p)]: first position satisfying [p], or -1. *)
Definition findIndex (p : A → bool) (l : list A) : Z :=
  match list_find (λ x, p x = true) l with
  | Some (i, _) => Z.of_nat i
  | None => -1
  end.

(** [arr.find(p)] *)
Definition find (p : A → bool) (l : list A) : option A :=
  snd <$> list_find (λ x, p x = true) l.

(** [arr.splice(start, deleteCount, ...items)], the array after the call.
    A negative [start] counts from the end, and both numbers are clamped
    to the array. *)
Definition splice (l : list A) (start deleteCount : Z) (items : list A) : list A :=
  let n := len l in
  let from := if decide (start < 0) then Z.max (n + start) 0 else Z.min start n in
  let del := Z.min (Z.max deleteCount 0) (n - from) in
  take (Z.to_nat from) l ++ items ++ drop (Z.to_nat (from + del)) l.
End Ops.
End JsArray.
Import JsArray.

(** ** Data model *)

(** A terminal instance is identified by its [instanceId]. *)
Definition Instance := nat.

(** Modelled from the spec: the class [TerminalGroup] (terminalGroup.ts) is
    not part of the sources.  A group is an ordered sequence of instances
    with an active instance index pointing into it, and a visibility flag
    set by [setVisible].  [groupRef] is the identity of the object. *)
Record TerminalGroup := mkGroup {
  groupRef : nat;
  terminalInstances : list Instance;
  groupActiveIndex : Z;
  groupVisible : bool
}.

(** Events fired by the emitters of the service, and the [focus] call the
    service makes on an instance. *)
Inductive Fired :=
| DidChangeActiveGroup (g : option nat)
| DidDisposeGroup (g : nat)
| DidChangeGroups
| DidChangeActiveInstance (i : option Instance)
| DidChangeInstances
| InstanceFocus (i : Instance).

Record Service := mkService {
  groups : list TerminalGroup;
  activeGroupIndex : Z;
  activeInstanceIndex : Z;
  (** the context key bound to [KEYBINDING_CONTEXT_TERMINAL_GROUP_COUNT] *)
  terminalGroupCount : option Z;
  (** next free object reference for [new TerminalGroup] *)
  nextRef : nat;
  fired : list Fired
}.

Definition set_groups (gs : list TerminalGroup) (s : Service) : Service :=
  mkService gs (activeGroupIndex s) (activeInstanceIndex s)
            (terminalGroupCount s) (nextRef s) (fired s).
Definition set_activeGroupIndex (i : Z) (s : Service) : Service :=
  mkService (groups s) i (activeInstanceIndex s)
            (terminalGroupCount s) (nextRef s) (fired s).
Definition set_activeInstanceIndex (i : Z) (s : Service) : Service :=
  mkService (groups s) (activeGroupIndex s) i
            (terminalGroupCount s) (nextRef s) (fired s).
Definition set_terminalGroupCount (k : option Z) (s : Service) : Service :=
  mkService (groups s) (activeGroupIndex s) (activeInstanceIndex s)
            k (nextRef s) (fired s).
Definition set_nextRef (r : nat) (s : Service) : Service :=
  mkService (groups s) (activeGroupIndex s) (activeInstanceIndex s)
            (terminalGroupCount s) r (fired s).
Definition fire (e : Fired) (s : Service) : Service :=
  mkService (groups s) (activeGroupIndex s) (activeInstanceIndex s)
            (terminalGroupCount s) (nextRef s) (fired s ++ [e]).

(** The service as the field initialisers leave it. *)
Definition initialService : Service :=
  mkService [] (-1) (-1) None 0 [].

(** ** Group methods used by the service *)

Definition set_visible (b : bool) (g : TerminalGroup) : TerminalGroup :=
  mkGroup (groupRef g) (terminalInstances g) (groupActiveIndex g) b.
Definition set_groupActiveIndex (i : Z) (g : TerminalGroup) : TerminalGroup :=
  mkGroup (groupRef g) (terminalInstances g) i (groupVisible g).

(** Modelled from the spec: [TerminalGroup.activeInstance], the instance the
    active instance index points at. *)
Definition group_activeInstance (g : TerminalGroup) : option Instance :=
  at_ (terminalInstances g) (groupActiveIndex g).

(** Modelled from the spec: [TerminalGroup.setActiveInstanceByIndex], the
    local active-instance tracking; an index outside the sequence is not a
    pointer into it and is ignored. *)
Definition group_setActiveInstanceByIndex (i : Z) (g : TerminalGroup) : TerminalGroup :=
  if decide (0 <= i < len (terminalInstances g)) then set_groupActiveIndex i g else g.

(** [a === b] on values of type [ITerminalGroup | undefined]. *)
Definition same_group (a b : option TerminalGroup) : bool :=
  match a, b with
  | None, None => true
  | Some x, Some y => Nat.eqb (groupRef x) (groupRef y)
  | _, _ => false
  end.

(** [groups.indexOf(group)] *)
Definition indexOfGroup (g : nat) (gs : list TerminalGroup) : Z :=
  findIndex (λ x, Nat.eqb (groupRef x) g) gs.

(** ** The service *)

(** [get activeGroup()] *)
Definition activeGroup (s : Service) : option TerminalGroup :=
  if decide (activeGroupIndex s < 0 ∨ activeGroupIndex s >= len (groups s))
  then None
  else at_ (groups s) (activeGroupIndex s).

(** [get activeInstance()]: [this.activeGroup?.activeInstance] *)
Definition activeInstance (s : Service) : option Instance :=
  activeGroup s ≫= group_activeInstance.

(** [this._onDidChangeGroups.fire()]; the listener registered by the
    constructor stores [this.groups.length] in the context key. *)
Definition fireDidChangeGroups (s : Service) : Service :=
  set_terminalGroupCount (Some (len (groups s))) (fire DidChangeGroups s).

(** [this.groups.forEach((g, i) => g.setVisible(i === k))] *)
Definition setVisibleOnly (k : Z) (gs : list TerminalGroup) : list TerminalGroup :=
  imap (λ i g, set_visible (bool_decide (Z.of_nat i = k)) g) gs.

Definition setActiveGroupByIndex (index : Z) (s : Service) : Service :=
  if decide (index >= len (groups s)) then s
  else
    let oldActiveGroup := activeGroup s in
    let s1 := set_activeGroupIndex index s in
    if negb (same_group oldActiveGroup (activeGroup s1)) then
      let s2 := set_groups (setVisibleOnly (activeGroupIndex s1) (groups s1)) s1 in
      let s3 := fire (DidChangeActiveGroup (groupRef <$> activeGroup s2)) s2 in
      fire (DidChangeActiveInstance (activeInstance s3)) s3
    else s1.

(** [this.activeInstance?.focus(true)] *)
Definition focusActiveInstance (s : Service) : Service :=
  match activeInstance s with
  | Some i => fire (InstanceFocus i) s
  | None => s
  end.

(** [_removeGroup(group)], where [g] is the reference held by the caller. *)
Definition _removeGroup (g : nat) (s : Service) : Service :=
  let activeGroup0 := activeGroup s in
  let wasActiveGroup :=
    match activeGroup0 with
    | Some ag => Nat.eqb g (groupRef ag)
    | None => false
    end in
  let index := indexOfGroup g (groups s) in
  let s1 :=
    if decide (index ≠ -1)
    then fireDidChangeGroups (set_groups (splice (groups s) index 1 []) s)
    else s in
  let s2 :=
    if wasActiveGroup && bool_decide (len (groups s1) > 0) then
      let newIndex :=
        if decide (index < len (groups s1)) then index else len (groups s1) - 1 in
      focusActiveInstance (setActiveGroupByIndex newIndex s1)
    else if decide (activeGroupIndex s1 >= len (groups s1)) then
      let newIndex := len (groups s1) - 1 in
      setActiveGroupByIndex newIndex s1
    else s1 in
  let s3 := fire DidChangeInstances s2 in
  let s4 :=
    if decide (len (groups s3) = 0)
    then fire (DidChangeActiveInstance None) s3
    else s3 in
  let s5 := fireDidChangeGroups s4 in
  if wasActiveGroup
  then fire (DidChangeActiveGroup (groupRef <$> activeGroup s5)) s5
  else s5.

(** Modelled from the spec: [new TerminalGroup(container, slcOrInstance)].
    The group wraps the seed instance when there is one (an existing
    instance, or the one spawned for a launch configuration) and is empty
    otherwise. *)
Definition newTerminalGroup (r : nat) (seed : option Instance) : TerminalGroup :=
  match seed with
  | Some i => mkGroup r [i] 0 false
  | None => mkGroup r [] (-1) false
  end.

(** [createGroup(slcOrInstance?)]; returns the reference of the new group.
    The listeners it registers on the group forward the group's own events
    and have no effect on the state of the service until the group fires. *)
Definition createGroup (seed : option Instance) (s : Service) : nat * Service :=
  let group := newTerminalGroup (nextRef s) seed in
  let s1 := set_nextRef (S (nextRef s)) (set_groups (groups s ++ [group]) s) in
  let s2 :=
    if decide (len (terminalInstances group) > 0)
    then fire DidChangeInstances s1
    else s1 in
  (groupRef group, fireDidChangeGroups s2).

(** *** Flat instance index *)

Record IInstanceLocation := mkLocation {
  loc_group : TerminalGroup;
  loc_groupIndex : Z;
  loc_instance : option Instance;
  loc_instanceIndex : Z
}.

(** The [while] loop of [_getInstanceLocation]; every iteration advances
    [currentGroupIndex], so [fuel] bounds the number of iterations. *)
Fixpoint getInstanceLocation_loop (fuel : nat) (gs : list TerminalGroup)
    (index currentGroupIndex : Z) : option IInstanceLocation :=
  match fuel with
  | O => None
  | S fuel' =>
    if decide (index >= 0 ∧ currentGroupIndex < len gs) then
      match at_ gs currentGroupIndex with
      | Some group =>
        let count := len (terminalInstances group) in
        if decide (index < count) then
          Some (mkLocation group currentGroupIndex
                           (at_ (terminalInstances group) index) index)
        else getInstanceLocation_loop fuel' gs (index - count) (currentGroupIndex + 1)
      | None => None
      end
    else None
  end.

Definition _getInstanceLocation (index : Z) (s : Service) : option IInstanceLocation :=
  getInstanceLocation_loop (S (length (groups s))) (groups s) index 0.

(** [get instances()]: the [reduce] that concatenates the groups. *)
Definition instances (s : Service) : list Instance :=
  foldl (λ p c, p ++ terminalInstances c) [] (groups s).

(** [a === b] on values of type [ITerminalInstance | undefined]. *)
Definition same_instance (a b : option Instance) : bool :=
  match a, b with
  | None, None => true
  | Some x, Some y => Nat.eqb x y
  | _, _ => false
  end.

(** A method call on the group object with reference [r]: every position
    of [groups] that holds this object sees the mutation. *)
Definition update_group (r : nat) (f : TerminalGroup → TerminalGroup)
    (s : Service) : Service :=
  set_groups ((λ g, if Nat.eqb (groupRef g) r then f g else g) <$> groups s) s.

Definition setActiveInstanceByIndex (index : Z) (s : Service) : Service :=
  let activeInstance0 := activeInstance s in
  let instanceLocation := _getInstanceLocation index s in
  let newActiveInstance :=
    instanceLocation ≫= λ l, at_ (terminalInstances (loc_group l)) (loc_instanceIndex l) in
  match instanceLocation with
  | None => s
  | Some loc =>
    if same_instance activeInstance0 newActiveInstance then s
    else
      let s1 := set_activeInstanceIndex (loc_instanceIndex loc) s in
      let s2 := set_activeGroupIndex (loc_groupIndex loc) s1 in
      let s3 :=
        if decide (activeGroupIndex s2 ≠ loc_groupIndex loc)
        then fire (DidChangeActiveGroup (groupRef <$> activeGroup s2)) s2
        else s2 in
      let s4 := set_groups (setVisibleOnly (loc_groupIndex loc) (groups s3)) s3 in
      update_group (groupRef (loc_group loc))
                   (group_setActiveInstanceByIndex (activeInstanceIndex s4)) s4
  end.

(** *** Errors *)

Inductive Exn :=
| TypeError                       (* property read on [undefined] *)
| TerminalDoesNotExist (id : nat) (* the [Error] of [_getIndexFromId] *).

Inductive Completion := Normal | Throw (e : Exn).

Definition _getIndexFromId (terminalId : nat) (s : Service) : Exn + Z :=
  let terminalIndex := findIndex (λ e, Nat.eqb e terminalId) (instances s) in
  if decide (terminalIndex = -1) then inl (TerminalDoesNotExist terminalId)
  else inr terminalIndex.

(** [setActiveInstance(instance)]; the argument is what the caller passes
    at run time, which is [undefined] for [instances[0]] of an empty array. *)
Definition setActiveInstance (instance : option Instance) (s : Service)
    : Service * Completion :=
  match instance with
  | None => (s, Throw TypeError)
  | Some i =>
    match _getIndexFromId i s with
    | inl e => (s, Throw e)
    | inr index => (setActiveInstanceByIndex index s, Normal)
    end
  end.

(** *** Moving groups *)

(** [terminalInstances.indexOf(instance)] *)
Definition indexOfInstance (i : Instance) (l : list Instance) : Z :=
  findIndex (λ e, Nat.eqb e i) l.

Definition getGroupForInstance (i : Instance) (s : Service) : option TerminalGroup :=
  find (λ group, negb (bool_decide (indexOfInstance i (terminalInstances group) = -1)))
       (groups s).

Definition moveGroup (source target : Instance) (s : Service) : Service :=
  match getGroupForInstance source s, getGroupForInstance target s with
  | Some sourceGroup, Some targetGroup =>
    let sourceGroupIndex := indexOfGroup (groupRef sourceGroup) (groups s) in
    let targetGroupIndex := indexOfGroup (groupRef targetGroup) (groups s) in
    let s1 := set_groups (splice (groups s) sourceGroupIndex 1 []) s in
    let s2 := set_groups (splice (groups s1) targetGroupIndex 0 [sourceGroup]) s1 in
    fire DidChangeInstances s2
  | _, _ => s
  end.

(** *** Joining instances *)

Section Join.
(** Modelled from the spec: the spec gives no rule for a group's active
    instance index when an instance leaves or enters the group, so both
    rules are parameters: they map the old sequence, the old index and the
    instance to the new index. *)
Variable indexAfterRemove : list Instance → Z → Instance → Z.
Variable indexAfterAdd : list Instance → Z → Instance → Z.

(** Modelled from the spec: [TerminalGroup.removeInstance] detaches the
    instance from the group's sequence. *)
Definition group_removeInstance (i : Instance) (g : TerminalGroup) : TerminalGroup :=
  let index := indexOfInstance i (terminalInstances g) in
  if decide (index = -1) then g
  else mkGroup (groupRef g) (splice (terminalInstances g) index 1 [])
               (indexAfterRemove (terminalInstances g) (groupActiveIndex g) i)
               (groupVisible g).

(** Modelled from the spec: [TerminalGroup.addInstance] appends the
    instance to the group's sequence. *)
Definition group_addInstance (i : Instance) (g : TerminalGroup) : TerminalGroup :=
  mkGroup (groupRef g) (terminalInstances g ++ [i])
          (indexAfterAdd (terminalInstances g) (groupActiveIndex g) i)
          (groupVisible g).

(** [oldGroup.removeInstance(instance)] as the service sees it.
    Modelled from the spec: a group that lost its last instance reports
    it, [_onDidDisposeGroup] fires and the listener of the constructor
    runs [_removeGroup]. *)
Definition removeInstanceOf (r : nat) (i : Instance) (s : Service) : Service :=
  let s1 := update_group r (group_removeInstance i) s in
  let becameEmpty (g : TerminalGroup) : bool :=
    Nat.eqb (groupRef g) r
    && negb (bool_decide (indexOfInstance i (terminalInstances g) = -1))
    && bool_decide (len (terminalInstances (group_removeInstance i g)) = 0) in
  if existsb becameEmpty (groups s)
  then _removeGroup r (fire (DidDisposeGroup r) s1)
  else s1.

(** [candidateGroup.addInstance(instance)] as the service sees it. *)
Definition addInstanceTo (r : nat) (i : Instance) (s : Service) : Service :=
  update_group r (group_addInstance i) s.

(** The first [for] loop of [joinInstances]. *)
Fixpoint findCandidate (l : list Instance) (s : Service)
    : option (Instance * TerminalGroup) :=
  match l with
  | [] => None
  | instance :: rest =>
    match getGroupForInstance instance s with
    | Some group =>
      if decide (len (terminalInstances group) = 1) then Some (instance, group)
      else findCandidate rest s
    | None => findCandidate rest s
    end
  end.

(** The second [for] loop of [joinInstances]. *)
Fixpoint joinLoop (candidateInstance : option Instance) (candidateGroup : nat)
    (l : list Instance) (s : Service) : Service :=
  match l with
  | [] => s
  | instance :: rest =>
    if same_instance (Some instance) candidateInstance
    then joinLoop candidateInstance candidateGroup rest s
    else
      match getGroupForInstance instance s with
      | None => joinLoop candidateInstance candidateGroup rest s
      | Some oldGroup =>
        let s1 := removeInstanceOf (groupRef oldGroup) instance s in
        let s2 := addInstanceTo candidateGroup instance s1 in
        joinLoop candidateInstance candidateGroup rest s2
      end
  end.

Definition joinInstances (l : list Instance) (s : Service) : Service * Completion :=
  let '(candidateInstance, candidateGroup, s1) :=
    match findCandidate l s with
    | Some (i, g) => (Some i, groupRef g, s)
    | None => let '(r, s') := createGroup None s in (None, r, s')
    end in
  let wasActiveGroup :=
    match activeGroup s1 with
    | Some g => Nat.eqb (groupRef g) candidateGroup
    | None => false
    end in
  let s2 := joinLoop candidateInstance candidateGroup l s1 in
  match setActiveInstance (head l) s2 with
  | (s3, Throw e) => (s3, Throw e)
  | (s3, Normal) =>
    let s4 := fire DidChangeInstances s3 in
    let s5 :=
      if negb wasActiveGroup
      then fire (DidChangeActiveGroup (groupRef <$> activeGroup s4)) s4
      else s4 in
    (s5, Normal)
  end.
End Join.

(** The number of instances in a list of groups. *)
Definition instanceCount (gs : list TerminalGroup) : Z :=
  foldr (λ g acc, len (terminalInstances g) + acc) 0 gs.

(** The flat index of the instance at local index [j] of the group at
    position [p]: the instances of the groups before [p] come first. *)
Definition flatIndex (gs : list TerminalGroup) (p j : Z) : Z :=
  instanceCount (take (Z.to_nat p) gs) + j.

(** ** Ownership of instances *)

(** The groups as pairs of an object reference and its instances. *)
Definition layout (gs : list TerminalGroup) : list (nat * list Instance) :=
  (λ g, (groupRef g, terminalInstances g)) <$> gs.

(** The invariants of the data model: a group object occurs once in
    [groups], and every instance belongs to one group and occurs once in
    it. *)
Definition wellFormed (L : list (nat * list Instance)) : Prop :=
  NoDup L.*1 ∧
  (∀ r l, (r, l) ∈ L → NoDup l) ∧
  (∀ r1 l1 r2 l2 x, (r1, l1) ∈ L → (r2, l2) ∈ L → x ∈ l1 → x ∈ l2 → r1 = r2).

(** The instances of a group after [removeInstance]. *)
Definition without (x : Instance) (l : list Instance) : list Instance :=
  if decide (indexOfInstance x l = -1) then l
  else splice l (indexOfInstance x l) 1 [].

(** A method call on the group with reference [r], seen on the layout. *)
Definition layoutUpdate (r : nat) (F : list Instance → list Instance)
    (L : list (nat * list Instance)) : list (nat * list Instance) :=
  (λ p, if Nat.eqb p.1 r then (p.1, F p.2) else p) <$> L.

(** ** Sample states *)

(** One group, active and visible. *)
Definition oneGroupService : Service :=
  mkService [mkGroup 0 [5%nat] 0 true] 0 0 (Some 1) 1 [].

(** Two groups with instances [5] and [6,7]; the first is active. *)
Definition twoGroupService : Service :=
  mkService [mkGroup 0 [5%nat] 0 true; mkGroup 1 [6%nat; 7%nat] 1 false]
            0 0 (Some 2) 2 [].

(** Three groups with instances [1,2], [3] and [4,5]; the first is active. *)
Definition threeGroupService : Service :=
  mkService [mkGroup 0 [1%nat; 2%nat] 0 true; mkGroup 1 [3%nat] 0 false;
             mkGroup 2 [4%nat; 5%nat] 0 false] 0 0 (Some 3) 3 [].

(** ** Sequences of group operations *)

Inductive GroupOp :=
| OpCreateGroup (seed : option Instance)
| OpRemoveGroup (g : nat)
| OpSetActiveGroupByIndex (index : Z).

Definition applyOp (s : Service) (op : GroupOp) : Service :=
  match op with
  | OpCreateGroup seed => snd (createGroup seed s)
  | OpRemoveGroup g => _removeGroup g s
  | OpSetActiveGroupByIndex index => setActiveGroupByIndex index s
  end.

Definition runOps (ops : list GroupOp) (s : Service) : Service :=
  foldl applyOp s ops.

(** Only [createGroup] and the removal path. *)
Definition structuralOp (op : GroupOp) : Prop :=
  match op with
  | OpSetActiveGroupByIndex _ => False
  | _ => True
  end.

(** [createGroup], the removal path, and activations of a position. *)
Definition positionalOp (op : GroupOp) : Prop :=
  match op with
  | OpSetActiveGroupByIndex index => 0 <= index
  | _ => True
  end.

(** The index is -1 or a position of [groups]. *)
Definition indexInv (s : Service) : Prop :=
  -1 <= activeGroupIndex s < len (groups s).

(** ** The utility process *)

Module UtilityProcess.

Inductive Severity := Error | Warning | Info.

(** The messages handed to [log]. *)
Inductive LogMsg :=
| ReceivedSpawn
| ReceivedExit (code : Z)
| ReceivedChildProcessGone (code : Z)
| NoRunningProcessToKill
| KillingTheProcess
| NoRunningProcessToWaitFor
| WaitingToExit
| DidNotExitWithin (maxWaitTimeMs : Z).

(** The Electron process object: the calls of its [kill()] are counted. *)
Record ElectronProcess := mkElectronProcess {
  pid : option Z;
  killRequests : nat
}.

Record IUtilityProcessExitEvent := mkExitEvent {
  ev_pid : option Z;   (* [this.processPid!] *)
  ev_code : Z
  (* [signal] is always ['unknown'] *)
}.

Record State := mkState {
  process : option ElectronProcess;
  processPid : option Z;
  didExit : bool;
  onExit : list IUtilityProcessExitEvent;   (* what [_onExit] fired *)
  logged : list (Severity * LogMsg)
}.

Definition log (msg : LogMsg) (severity : Severity) (s : State) : State :=
  mkState (process s) (processPid s) (didExit s) (onExit s)
          (logged s ++ [(severity, msg)]).

Definition handleDidExit (code : Z) (s : State) : State :=
  if didExit s then s (* already handled *)
  else
    mkState (process s) (processPid s) true
            (onExit s ++ [mkExitEvent (processPid s) code]) (logged s).

(** *** The listeners of [registerListeners] *)

(** the ['spawn'] listener *)
Definition onSpawn (s : State) : State :=
  log ReceivedSpawn Info
      (mkState (process s) (process s ≫= pid) (didExit s) (onExit s) (logged s)).

(** the ['exit'] listener *)
Definition onProcessExit (code : Z) (s : State) : State :=
  handleDidExit code (log (ReceivedExit code) Info s).

Inductive ProcessType := Utility | OtherProcessType.

Record Details := mkDetails {
  d_type : ProcessType;
  d_name : string;
  d_exitCode : Z
}.

(** [details.type === 'Utility' && details.name === serviceName] *)
Definition matches (serviceName : string) (details : Details) : bool :=
  match d_type details with
  | Utility => String.eqb (d_name details) serviceName
  | OtherProcessType => false
  end.

(** the ['child-process-gone'] listener *)
Definition onChildProcessGone (serviceName : string) (details : Details) (s : State) : State :=
  if matches serviceName details
  then handleDidExit (d_exitCode details)
         (log (ReceivedChildProcessGone (d_exitCode details)) Error s)
  else s.

Definition kill (s : State) : State :=
  match process s with
  | None => log NoRunningProcessToKill Warning s
  | Some p =>
    let s1 := log KillingTheProcess Info s in
    mkState (Some (mkElectronProcess (pid p) (S (killRequests p))))
            (processPid s1) (didExit s1) (onExit s1) (logged s1)
  end.

(** *** [waitForExit]

    The method runs up to its [await], and its continuation runs when the
    race between [Event.toPromise(this.onExit)] and
    [timeout(maxWaitTimeMs)] settles. *)

Inductive WaitStatus := Awaiting | Resolved.

(** The part of [waitForExit] before the [await]. *)
Definition waitForExit_enter (s : State) : State * WaitStatus :=
  match process s with
  | None => (log NoRunningProcessToWaitFor Warning s, Resolved)
  | Some _ =>
    if didExit s then (s, Resolved)
    else (log WaitingToExit Info s, Awaiting)
  end.

(** The part of [waitForExit] after the [await]. *)
Definition waitForExit_resume (maxWaitTimeMs : Z) (s : State) : State :=
  if negb (didExit s) then
    let s1 := log (DidNotExitWithin maxWaitTimeMs) Info s in
    match process s1 with
    | Some p =>
      mkState (Some (mkElectronProcess (pid p) (S (killRequests p))))
              (processPid s1) (didExit s1) (onExit s1) (logged s1)
    | None => s1
    end
  else s.

(** What the event loop delivers while a call is pending. *)
Inductive Delivery :=
| Spawn
| Exit (code : Z)
| ChildProcessGone (details : Details)
| TimerElapsed.

Definition deliver (serviceName : string) (d : Delivery) (s : State) : State :=
  match d with
  | Spawn => onSpawn s
  | Exit code => onProcessExit code s
  | ChildProcessGone details => onChildProcessGone serviceName details s
  | TimerElapsed => s
  end.

(** One delivery to a process with a pending or finished [waitForExit]
    call.  The race settles when the timer elapses or when the delivery
    made [_onExit] fire; the continuation then runs before anything else
    is delivered. *)
Definition step (serviceName : string) (maxWaitTimeMs : Z)
    (sw : State * WaitStatus) (d : Delivery) : State * WaitStatus :=
  let '(s, w) := sw in
  let s1 := deliver serviceName d s in
  match w with
  | Resolved => (s1, Resolved)
  | Awaiting =>
    let exitFired := negb (Nat.eqb (length (onExit s1)) (length (onExit s))) in
    let timerFired := match d with TimerElapsed => true | _ => false end in
    if exitFired || timerFired
    then (waitForExit_resume maxWaitTimeMs s1, Resolved)
    else (s1, Awaiting)
  end.

(** [waitForExit(maxWaitTimeMs)] followed by the deliveries [ds]. *)
Definition waitForExit (serviceName : string) (maxWaitTimeMs : Z)
    (ds : list Delivery) (s : State) : State * WaitStatus :=
  foldl (step serviceName maxWaitTimeMs) (waitForExit_enter s) ds.

(** The [kill()] calls the process object received. *)
Definition kills (s : State) : nat :=
  match process s with
  | Some p => killRequests p
  | None => O
  end.

(** A delivery that neither fires [_onExit] nor is the timer. *)
Definition quiet (serviceName : string) (d : Delivery) : Prop :=
  match d with
  | Spawn => True
  | ChildProcessGone details => matches serviceName details = false
  | Exit _ | TimerElapsed => False
  end.

(** A delivery from one of the two exit sources. *)
Definition exitDelivery (serviceName : string) (d : Delivery) : Prop :=
  match d with
  | Exit _ => True
  | ChildProcessGone details => matches serviceName details = true
  | Spawn | TimerElapsed => False
  end.

Definition exitCode (d : Delivery) : Z :=
  match d with
  | Exit code => code
  | ChildProcessGone details => d_exitCode details
  | Spawn | TimerElapsed => 0
  end.

End UtilityProcess.

(** ** The remaining operations of the service *)

(** [set activeGroup(value)]; [value] is a group reference or [undefined]. *)
Definition set_activeGroup (value : option nat) (s : Service) : Service :=
  match value with
  | None => set_activeGroupIndex (-1) s
  | Some r =>
    set_activeGroupIndex (findIndex (λ e, Nat.eqb (groupRef e) r) (groups s)) s
  end.

(** [setActiveGroupToNext()]: the index after the active one, wrapping to 0. *)
Definition setActiveGroupToNext (s : Service) : Service :=
  if decide (len (groups s) <= 1) then s
  else
    let newIndex := activeGroupIndex s + 1 in
    let newIndex := if decide (newIndex >= len (groups s)) then 0 else newIndex in
    setActiveGroupByIndex newIndex s.

(** [setActiveGroupToPrevious()]: the index before the active one, wrapping
    to the last. *)
Definition setActiveGroupToPrevious (s : Service) : Service :=
  if decide (len (groups s) <= 1) then s
  else
    let newIndex := activeGroupIndex s - 1 in
    let newIndex := if decide (newIndex < 0) then len (groups s) - 1 else newIndex in
    setActiveGroupByIndex newIndex s.

(** [instanceIsSplit(instance)] *)
Definition instanceIsSplit (i : Instance) (s : Service) : bool :=
  match getGroupForInstance i s with
  | None => false
  | Some group => bool_decide (len (terminalInstances group) > 1)
  end.

Section Unsplit.
Variable indexAfterRemove : list Instance → Z → Instance → Z.

(** [unsplitInstance(instance)]; [oldGroup.removeInstance] is
    [removeInstanceOf]. *)
Definition unsplitInstance (i : Instance) (s : Service) : Service :=
  match getGroupForInstance i s with
  | None => s
  | Some oldGroup =>
    if decide (len (terminalInstances oldGroup) < 2) then s
    else
      let s1 := removeInstanceOf indexAfterRemove (groupRef oldGroup) i s in
      snd (createGroup (Some i) s1)
  end.
End Unsplit.

(** The reference and the instances of the active group. *)
Definition activeLayout (s : Service) : option (nat * list Instance) :=
  (λ g, (groupRef g, terminalInstances g)) <$> activeGroup s.

(** ** Sequences of operations of the whole service *)

Inductive ServiceOp :=
| CreateGroup (seed : option Instance)
| RemoveGroup (g : nat)
| SetActiveGroup (value : option nat)
| SetActiveGroupByIndex (index : Z)
| SetActiveGroupToNext
| SetActiveGroupToPrevious
| SetActiveInstanceByIndex (index : Z)
| SetActiveInstance (instance : option Instance)
| MoveGroup (source target : Instance)
| UnsplitInstance (instance : Instance)
| JoinInstances (l : list Instance).

Section ServiceOps.
Variable indexAfterRemove : list Instance → Z → Instance → Z.
Variable indexAfterAdd : list Instance → Z → Instance → Z.

(** The state an operation leaves, also when it throws. *)
Definition applyServiceOp (s : Service) (op : ServiceOp) : Service :=
  match op with
  | CreateGroup seed => snd (createGroup seed s)
  | RemoveGroup g => _removeGroup g s
  | SetActiveGroup value => set_activeGroup value s
  | SetActiveGroupByIndex index => setActiveGroupByIndex index s
  | SetActiveGroupToNext => setActiveGroupToNext s
  | SetActiveGroupToPrevious => setActiveGroupToPrevious s
  | SetActiveInstanceByIndex index => setActiveInstanceByIndex index s
  | SetActiveInstance instance => fst (setActiveInstance instance s)
  | MoveGroup source target => moveGroup source target s
  | UnsplitInstance instance => unsplitInstance indexAfterRemove instance s
  | JoinInstances l => fst (joinInstances indexAfterRemove indexAfterAdd l s)
  end.

Definition runServiceOps (ops : list ServiceOp) (s : Service) : Service :=
  foldl applyServiceOp s ops.
End ServiceOps.

(** [setActiveGroupByIndex] is given -1 or more. *)
Definition fromMinusOne (op : ServiceOp) : Prop :=
  match op with
  | SetActiveGroupByIndex index => -1 <= index
  | _ => True
  end.

(** The context key holds the number of groups, once it has been set. *)
Definition keyInv (s : Service) : Prop :=
  terminalGroupCount s = Some (len (groups s)) ∨
  (terminalGroupCount s = None ∧ groups s = []).

(** No group carries a reference that [new TerminalGroup] has yet to give. *)
Definition refsAllocated (s : Service) : Prop :=
  ∀ g, g ∈ groups s → (groupRef g < nextRef s)%nat.

(** What is left of the sequence [l] of a group after [removeInstance] of
    each of [xs] in turn. *)
Definition withoutAll (xs l : list Instance) : list Instance :=
  foldl (λ acc x, without x acc) l xs.

(** The instances of [l] that the second loop of [joinInstances] does not
    skip. *)
Definition others (candidateInstance : option Instance) (l : list Instance)
    : list Instance :=
  filter (λ x, Some x ≠ candidateInstance) l.

(** The condition of the first loop of [joinInstances]:
    [getGroupForInstance(x)] has exactly one instance. *)
Definition aloneInGroup (x : Instance) (s : Service) : Prop :=
  ∃ g, getGroupForInstance x s = Some g ∧ len (terminalInstances g) = 1.

(** Four groups, two of them with a single instance. *)
Definition fourGroupService : Service :=
  mkService [mkGroup 0 [1%nat; 2%nat] 0 true; mkGroup 1 [3%nat] 0 false;
             mkGroup 2 [4%nat] 0 false; mkGroup 3 [5%nat; 6%nat] 0 false]
            0 0 (Some 4) 4 [].

(** [n] calls of [setActiveGroupToNext]. *)
Definition nextTimes (n : nat) (s : Service) : Service :=
  Nat.iter n setActiveGroupToNext s.

(** ** Deliveries to the utility process *)

Module UtilityProcessRun.
Import UtilityProcess.

(** The listeners run on the deliveries [ds], in order. *)
Definition delivers (serviceName : string) (ds : list Delivery) (s : State) : State :=
  foldl (λ s d, deliver serviceName d s) s ds.

Definition isSpawn (d : Delivery) : bool :=
  match d with Spawn => true | _ => false end.

(** [this.processPid] after the deliveries [ds], none of which is an exit. *)
Definition pidAfter (ds : list Delivery) (s : State) : option Z :=
  if existsb isSpawn ds then process s ≫= pid else processPid s.

End UtilityProcessRun.

(** ** Starting the utility process *)

Module UtilityProcessLifecycle.
Import UtilityProcess.

(** What [start] finds around it. *)
Record Host := mkHost {
  canUseUtilityProcess : bool;
  (* [getWindowById(responseWindowId)?.win] exists, and neither it nor its
     [webContents] is destroyed *)
  responseWindowUsable : bool;
  (* the object that [ElectronUtilityProcess.fork] returns *)
  forked : ElectronProcess
}.

Record IUtilityProcessConfiguration := mkConfiguration {
  cfg_name : string;
  responseChannel : string;
  responseNonce : string
}.

(** The messages that [validateCanStart] and [start] hand to [log]. *)
Inductive StartMsg := AlreadyRunning | WindowNotFound | CreatingNew.

(** The [UtilityProcess] object.  [state] holds the fields that the
    listeners, [kill] and [waitForExit] use; the messages of [start] are
    recorded in [startLogged], apart from those in [logged]. *)
Record Object := mkObject {
  id : string;
  state : State;
  configuration : option IUtilityProcessConfiguration;
  forks : list string;              (* the [serviceName] of each [fork] call *)
  listeners : list string;          (* the [serviceName] of each [registerListeners] call *)
  posted : list (string * string);  (* channel and nonce, for each [createMessagePorts] call *)
  startLogged : list (Severity * StartMsg)
}.

(** The object after its constructor. *)
Definition newObject (id : string) : Object :=
  mkObject id (mkState None None false [] []) None [] [] [] [].

Definition logStart (msg : StartMsg) (severity : Severity) (o : Object) : Object :=
  mkObject (id o) (state o) (configuration o) (forks o) (listeners o) (posted o)
           (startLogged o ++ [(severity, msg)]).

(** [validateCanStart]: [None] when it throws, otherwise whether a
    response window is returned. *)
Definition validateCanStart (h : Host) (o : Object) : Object * option bool :=
  if negb (canUseUtilityProcess h) then (o, None)
  else
    match process (state o) with
    | Some _ => (logStart AlreadyRunning Error o, Some false)
    | None =>
      if negb (responseWindowUsable h)
      then (logStart WindowNotFound Error o, Some false)
      else (o, Some true)
    end.

Inductive Outcome := Returned | ThrewCannotUse.

(** [start(configuration)].  Of the arguments of [fork] only
    [serviceName] is recorded. *)
Definition start (h : Host) (cfg : IUtilityProcessConfiguration) (o : Object)
    : Object * Outcome :=
  match validateCanStart h o with
  | (o1, None) => (o1, ThrewCannotUse)
  | (o1, Some false) => (o1, Returned)
  | (o1, Some true) =>
    let serviceName := String.append (cfg_name cfg) (String.append "-" (id o1)) in
    let o2 := logStart CreatingNew Info
                (mkObject (id o1) (state o1) (Some cfg) (forks o1) (listeners o1)
                          (posted o1) (startLogged o1)) in
    let s2 := state o2 in
    (* [this.process = ElectronUtilityProcess.fork(...)],
       [registerListeners], [createMessagePorts] *)
    (mkObject (id o2)
              (mkState (Some (forked h)) (processPid s2) (didExit s2) (onExit s2)
                       (logged s2))
              (configuration o2)
              (forks o2 ++ [serviceName])
              (listeners o2 ++ [serviceName])
              (posted o2 ++ [(responseChannel cfg, responseNonce cfg)])
              (startLogged o2),
     Returned)
  end.

Definition with_state (f : State → State) (o : Object) : Object :=
  mkObject (id o) (f (state o)) (configuration o) (forks o) (listeners o)
           (posted o) (startLogged o).

(** An event of the process held in [process], of the application or of
    the timer: every registered listener sees it.  Before [start] has
    registered listeners an event changes nothing. *)
Definition deliverTo (d : Delivery) (o : Object) : Object :=
  with_state (λ s, foldl (λ s serviceName, deliver serviceName d s) s (listeners o)) o.

Inductive LifecycleOp :=
| Start (h : Host) (cfg : IUtilityProcessConfiguration)
| Deliver (d : Delivery)
| Kill.

Definition applyLifecycleOp (o : Object) (op : LifecycleOp) : Object :=
  match op with
  | Start h cfg => fst (start h cfg o)
  | Deliver d => deliverTo d o
  | Kill => with_state kill o
  end.

Definition runLifecycle (ops : list LifecycleOp) (o : Object) : Object :=
  foldl applyLifecycleOp o ops.


End UtilityProcessLifecycle.

(** * Properties *)

(** Membership in a list that is written out. *)
Ltac elem_of_explicit :=
  intros; rewrite ?elem_of_cons, ?elem_of_nil; intuition congruence.

(** Absence of duplicates in a list that is written out. *)
Ltac nodup_explicit :=
  repeat (apply NoDup_cons_2;
          [rewrite ?elem_of_cons, ?elem_of_nil; intuition congruence|]);
  apply NoDup_nil_2.

(** ** Arrays *)

Section ArrayFacts.
Context {A : Type}.
Implicit Types (l : list A) (p : A → bool).

Lemma len_nonneg l : 0 <= len l.
Proof. unfold len. lia. Qed.

Lemma len_app l k : len (l ++ k) = len l + len k.
Proof. unfold len. rewrite length_app. lia. Qed.

Lemma len_nil_inv l : len l = 0 → l = [].
Proof. destruct l; [done | unfold len; simpl; lia]. Qed.

Lemma at_Some l i x : at_ l i = Some x ↔ 0 <= i ∧ l !! Z.to_nat i = Some x.
Proof.
  unfold at_. case_decide as Hi; split.
  - by intros Hx.
  - by intros [_ Hx].
  - done.
  - by intros [Hi' _].
Qed.

Lemma at_lt l i x : at_ l i = Some x → 0 <= i < len l.
Proof.
  intros [Hi Hx]%at_Some. apply lookup_lt_Some in Hx. unfold len. lia.
Qed.

Lemma at_in_range l i : 0 <= i < len l → is_Some (at_ l i).
Proof.
  intros Hi. unfold at_. rewrite decide_True by lia.
  apply lookup_lt_is_Some. unfold len in Hi. lia.
Qed.

Lemma at_of_nat l (n : nat) : at_ l (Z.of_nat n) = l !! n.
Proof. unfold at_. rewrite decide_True by lia. by rewrite Nat2Z.id. Qed.

Lemma findIndex_Some p l i :
  0 <= i → findIndex p l = i →
  ∃ x, at_ l i = Some x ∧ p x = true ∧
       ∀ j y, 0 <= j < i → at_ l j = Some y → p y = false.
Proof.
  unfold findIndex. intros Hi.
  destruct (list_find _ l) as [[n x]|] eqn:Hf; [|lia].
  intros <-. apply list_find_Some in Hf as (Hx & Hp & Hmin).
  exists x. rewrite at_of_nat. split_and!; [done..|].
  intros j y Hj [_ Hy]%at_Some.
  specialize (Hmin (Z.to_nat j) y Hy). destruct (p y); [|done].
  exfalso. apply Hmin; [lia | done].
Qed.

Lemma findIndex_None p l :
  findIndex p l = -1 ↔ Forall (λ x, p x = false) l.
Proof.
  unfold findIndex. destruct (list_find _ l) as [[n x]|] eqn:Hf.
  - split; [lia|]. intros HF. apply list_find_Some in Hf as (Hx & Hp & _).
    rewrite Forall_lookup in HF. specialize (HF _ _ Hx). congruence.
  - split; [|done]. intros _. apply list_find_None in Hf.
    eapply Forall_impl; [exact Hf|]. intros x Hx; simpl in Hx.
    by destruct (p x).
Qed.

Lemma findIndex_range p l : findIndex p l = -1 ∨ 0 <= findIndex p l < len l.
Proof.
  unfold findIndex. destruct (list_find _ l) as [[n x]|] eqn:Hf; [|by left].
  right. apply list_find_Some in Hf as (Hx & _). apply lookup_lt_Some in Hx.
  unfold len. lia.
Qed.

Lemma findIndex_first p l (n : nat) x :
  l !! n = Some x → p x = true →
  (∀ j y, (j < n)%nat → l !! j = Some y → p y = false) →
  findIndex p l = Z.of_nat n.
Proof.
  intros Hx Hp Hmin. unfold findIndex.
  assert (list_find (λ x, p x = true) l = Some (n, x)) as ->; [|done].
  apply list_find_Some. split_and!; [done..|].
  intros j y Hy Hj Hpy. rewrite (Hmin j y Hj Hy) in Hpy. done.
Qed.

Lemma find_Some p l x :
  find p l = Some x → ∃ n : nat, findIndex p l = Z.of_nat n ∧ l !! n = Some x ∧ p x = true.
Proof.
  unfold find, findIndex.
  destruct (list_find _ l) as [[n y]|] eqn:Hf; [|done].
  intros [= <-]. apply list_find_Some in Hf as (Hx & Hp & _). eauto.
Qed.

Lemma find_None p l : find p l = None ↔ Forall (λ x, p x = false) l.
Proof.
  rewrite <- findIndex_None. unfold find, findIndex.
  destruct (list_find _ l) as [[n y]|]; simpl; split; (done || lia).
Qed.

(** [splice(i, 1)] inside the array deletes position [i]. *)
Lemma splice_delete l (n : nat) :
  (n < length l)%nat → splice l (Z.of_nat n) 1 [] = delete n l.
Proof.
  intros Hn. unfold splice, len. rewrite decide_False by lia. simpl.
  replace (Z.to_nat (Z.of_nat n `min` Z.of_nat (length l))) with n by lia.
  replace (Z.to_nat _) with (S n) by lia.
  revert n Hn. induction l as [|a l IH]; intros [|n] Hn; simpl in *; try lia.
  - by rewrite drop_0.
  - f_equal. apply IH. lia.
Qed.

(** [splice(i, 0, x)] inside the array, or at its end, inserts at [i]. *)
Lemma splice_insert l (n : nat) x :
  (n ≤ length l)%nat → splice l (Z.of_nat n) 0 [x] = take n l ++ x :: drop n l.
Proof.
  intros Hn. unfold splice, len. rewrite decide_False by lia. simpl.
  replace (Z.to_nat (Z.of_nat n `min` Z.of_nat (length l))) with n by lia.
  by replace (Z.to_nat _) with n by lia.
Qed.
End ArrayFacts.

(** ** Active group index *)

Lemma length_setVisibleOnly k gs : length (setVisibleOnly k gs) = length gs.
Proof. unfold setVisibleOnly. apply length_imap. Qed.

Lemma len_setVisibleOnly k gs : len (setVisibleOnly k gs) = len gs.
Proof. unfold len. by rewrite length_setVisibleOnly. Qed.

Lemma setActiveGroupByIndex_ge index s :
  index >= len (groups s) → setActiveGroupByIndex index s = s.
Proof. intros H. unfold setActiveGroupByIndex. by rewrite decide_True. Qed.

Lemma setActiveGroupByIndex_activeGroupIndex index s :
  index < len (groups s) →
  activeGroupIndex (setActiveGroupByIndex index s) = index.
Proof.
  intros H. unfold setActiveGroupByIndex. rewrite decide_False by lia.
  by destruct (negb _).
Qed.

Lemma setActiveGroupByIndex_len index s :
  len (groups (setActiveGroupByIndex index s)) = len (groups s).
Proof.
  unfold setActiveGroupByIndex. case_decide; [done|].
  destruct (negb _); simpl; [|done]. apply len_setVisibleOnly.
Qed.

Lemma focusActiveInstance_fields s :
  groups (focusActiveInstance s) = groups s ∧
  activeGroupIndex (focusActiveInstance s) = activeGroupIndex s.
Proof. unfold focusActiveInstance. by destruct (activeInstance s). Qed.

Lemma indexInv_createGroup seed s :
  indexInv s → indexInv (snd (createGroup seed s)).
Proof.
  unfold indexInv, createGroup. intros H.
  case_decide; simpl; rewrite len_app; unfold len at 2; simpl; lia.
Qed.

Lemma indexInv_setActiveGroupByIndex index s :
  -1 <= index → indexInv s → indexInv (setActiveGroupByIndex index s).
Proof.
  unfold indexInv. intros Hi H. rewrite setActiveGroupByIndex_len.
  destruct (decide (index >= len (groups s))).
  - by rewrite setActiveGroupByIndex_ge.
  - rewrite setActiveGroupByIndex_activeGroupIndex; lia.
Qed.

(** The removal path re-establishes the bounds from any state whose index
    is at least -1. *)
Lemma indexInv__removeGroup g s :
  -1 <= activeGroupIndex s → indexInv (_removeGroup g s).
Proof.
  intros Hlo. unfold _removeGroup.
  set (was := match activeGroup s with Some ag => Nat.eqb g (groupRef ag) | None => false end).
  set (index := indexOfGroup g (groups s)).
  set (s1 := if decide (index ≠ -1) then _ else s).
  assert (activeGroupIndex s1 = activeGroupIndex s) as Hs1.
  { subst s1. by case_decide. }
  assert (was = true → 0 <= index) as Hidx.
  { subst was index. unfold activeGroup, indexOfGroup.
    case_decide; [done|].
    destruct (at_ _ _) as [ag|] eqn:Hag; [|done]. intros Heq.
    destruct (findIndex_range (λ x, Nat.eqb (groupRef x) g) (groups s)) as [Hn|]; [|lia].
    apply findIndex_None in Hn. apply at_Some in Hag as [_ Hag].
    rewrite Forall_lookup in Hn. specialize (Hn _ _ Hag). simpl in Hn.
    rewrite Nat.eqb_sym in Hn. congruence. }
  pose proof (len_nonneg (groups s1)) as Hlen.
  set (s2 := if was && _ then _ else _).
  assert (indexInv s2) as Hs2.
  { subst s2. unfold indexInv.
    destruct was; simpl.
    - specialize (Hidx eq_refl). case_bool_decide; simpl.
      + destruct (focusActiveInstance_fields
          (setActiveGroupByIndex
             (if decide (index < len (groups s1)) then index else len (groups s1) - 1) s1))
          as [-> ->].
        rewrite setActiveGroupByIndex_len.
        rewrite setActiveGroupByIndex_activeGroupIndex; case_decide; lia.
      + case_decide.
        * rewrite setActiveGroupByIndex_len.
          rewrite setActiveGroupByIndex_activeGroupIndex; lia.
        * lia.
    - case_decide.
      + rewrite setActiveGroupByIndex_len.
        rewrite setActiveGroupByIndex_activeGroupIndex; lia.
      + lia. }
  unfold indexInv in *. destruct was; repeat case_decide; simpl; done.
Qed.

Lemma indexInv_applyOp s op :
  positionalOp op → indexInv s → indexInv (applyOp s op).
Proof.
  destruct op as [seed|g|index]; simpl; intros Hop H.
  - by apply indexInv_createGroup.
  - apply indexInv__removeGroup, H.
  - apply indexInv_setActiveGroupByIndex; [lia | done].
Qed.

Lemma indexInv_runOps ops s :
  Forall positionalOp ops → indexInv s → indexInv (runOps ops s).
Proof.
  unfold runOps. intros Hops. revert s.
  induction Hops as [|op ops Hop _ IH]; intros s H; simpl; [done|].
  by apply IH, indexInv_applyOp.
Qed.

Lemma structuralOp_positionalOp op : structuralOp op → positionalOp op.
Proof. by destruct op. Qed.

Example createGroup_leaves_index :
  activeGroupIndex (runOps [OpCreateGroup (Some 7%nat)] initialService) = -1.
Proof. reflexivity. Qed.

Example activate_then_remove_last :
  activeGroupIndex
    (runOps [OpCreateGroup (Some 7%nat); OpCreateGroup (Some 8%nat);
             OpSetActiveGroupByIndex 1; OpRemoveGroup 1%nat] initialService) = 0.
Proof. reflexivity. Qed.

(** C1, as stated, fails: after [createGroup] on the empty service the
    groups list is not empty and [activeGroupIndex] is still -1, which is
    not a position of the list. *)
Lemma C1_counterexample :
  let s := runOps [OpCreateGroup None] initialService in
  Forall structuralOp [OpCreateGroup None] ∧
  groups s ≠ [] ∧
  ¬ (activeGroupIndex s = -1 ↔ groups s = []) ∧
  ¬ (0 <= activeGroupIndex s < len (groups s)).
Proof.
  simpl. split_and!.
  - repeat constructor.
  - done.
  - intros [H _]. by specialize (H eq_refl).
  - unfold len; simpl. lia.
Qed.

(** C1 (amended): for every sequence of [createGroup], group removals and
    [setActiveGroupByIndex] calls with a non-negative argument, run from the
    empty service, [activeGroupIndex] is -1 whenever [groups] is empty, and
    when [groups] is not empty it is -1 or a valid index of [groups]. *)
Theorem C1_active_index_bounds (ops : list GroupOp) :
  Forall positionalOp ops →
  let s := runOps ops initialService in
  (groups s = [] → activeGroupIndex s = -1) ∧
  (groups s ≠ [] →
   activeGroupIndex s = -1 ∨ 0 <= activeGroupIndex s < len (groups s)).
Proof.
  intros Hops s.
  assert (indexInv s) as [Hlo Hhi].
  { apply indexInv_runOps; [done|]. unfold indexInv, len; simpl. lia. }
  split.
  - intros Hnil. rewrite Hnil in Hhi. unfold len in Hhi; simpl in Hhi. lia.
  - intros _. lia.
Qed.

Lemma C1_active_index_bounds_witness :
  let ops := [OpCreateGroup (Some 7%nat); OpCreateGroup None;
              OpSetActiveGroupByIndex 1; OpRemoveGroup 0%nat] in
  Forall positionalOp ops ∧
  let s := runOps ops initialService in
  (groups s = [] → activeGroupIndex s = -1) ∧
  (groups s ≠ [] →
   activeGroupIndex s = -1 ∨ 0 <= activeGroupIndex s < len (groups s)).
Proof.
  assert (Forall positionalOp
            [OpCreateGroup (Some 7%nat); OpCreateGroup None;
             OpSetActiveGroupByIndex 1; OpRemoveGroup 0%nat]) as H.
  { repeat constructor. simpl. lia. }
  split; [exact H|]. exact (C1_active_index_bounds _ H).
Defined.

(** ** [setActiveGroupByIndex] *)

Lemma same_group_refl a : same_group a a = true.
Proof. destruct a; simpl; [apply Nat.eqb_refl | done]. Qed.

Lemma set_activeGroupIndex_id s : set_activeGroupIndex (activeGroupIndex s) s = s.
Proof. by destruct s. Qed.

(** C7, as stated, fails for a negative index: the only guard is
    [index >= this.groups.length], so [setActiveGroupByIndex(-1)] on a
    service whose single group is active deselects the group, hides it and
    fires both events. *)
Lemma C7_counterexample :
  let s := oneGroupService in
  let s' := setActiveGroupByIndex (-1) s in
  (-1 < 0 ∨ -1 >= len (groups s)) ∧
  s' ≠ s ∧
  activeGroupIndex s' = -1 ∧
  groupVisible <$> groups s' = [false] ∧
  fired s' = [DidChangeActiveGroup None; DidChangeActiveInstance None].
Proof. simpl. split_and!; (done || lia). Qed.

(** C7 (amended): [setActiveGroupByIndex(i)] is a no-op when
    [i >= groups.length].  With [-1 <= i < groups.length] (where -1 stands
    for "no active group"), [activeGroupIndex] becomes [i]; if the active
    group is the same object as before, nothing else changes and nothing
    fires, so a call with the current index changes nothing at all; if it
    differs, every group's visibility is set to "its position is [i]" and
    the "active group changed" and "active instance changed" events fire,
    once each and in this order. *)
Theorem C7_setActiveGroupByIndex (s : Service) (index : Z) :
  let s' := setActiveGroupByIndex index s in
  let moved := set_activeGroupIndex index s in
  (index >= len (groups s) → s' = s) ∧
  (-1 <= index < len (groups s) → activeGroupIndex s' = index) ∧
  (-1 <= index < len (groups s) →
   same_group (activeGroup s) (activeGroup moved) = true → s' = moved) ∧
  (-1 <= index < len (groups s) →
   same_group (activeGroup s) (activeGroup moved) = false →
   groups s' = setVisibleOnly index (groups s) ∧
   ∃ g i, fired s' = fired s ++ [DidChangeActiveGroup g; DidChangeActiveInstance i]) ∧
  (index = activeGroupIndex s → s' = s).
Proof.
  intros s' moved. subst s' moved. split_and!.
  - apply setActiveGroupByIndex_ge.
  - intros [_ Hi]. by apply setActiveGroupByIndex_activeGroupIndex.
  - intros [_ Hi] Hsame. unfold setActiveGroupByIndex.
    rewrite decide_False by lia. by rewrite Hsame.
  - intros [_ Hi] Hsame. unfold setActiveGroupByIndex.
    rewrite decide_False by lia. rewrite Hsame. simpl. split; [done|].
    eexists _, _. by rewrite <- app_assoc.
  - intros ->. unfold setActiveGroupByIndex. case_decide; [done|].
    rewrite set_activeGroupIndex_id, same_group_refl. done.
Qed.

Lemma C7_setActiveGroupByIndex_witness :
  setActiveGroupByIndex 2 twoGroupService = twoGroupService ∧
  activeGroupIndex (setActiveGroupByIndex 1 twoGroupService) = 1 ∧
  setActiveGroupByIndex 0 twoGroupService = twoGroupService ∧
  groups (setActiveGroupByIndex 1 twoGroupService) =
    setVisibleOnly 1 (groups twoGroupService) ∧
  activeGroupIndex (setActiveGroupByIndex (-1) twoGroupService) = -1.
Proof.
  pose proof (C7_setActiveGroupByIndex twoGroupService 2) as (H2 & _).
  pose proof (C7_setActiveGroupByIndex twoGroupService 1) as (_ & H1 & _ & H1' & _).
  pose proof (C7_setActiveGroupByIndex twoGroupService 0) as (_ & _ & _ & _ & H0).
  pose proof (C7_setActiveGroupByIndex twoGroupService (-1)) as (_ & Hm & _).
  split_and!.
  - apply H2. vm_compute. discriminate.
  - apply H1. vm_compute. split; [discriminate | reflexivity].
  - apply H0. reflexivity.
  - apply H1'; [vm_compute; split; [discriminate | reflexivity] | reflexivity].
  - apply Hm. vm_compute. split; [discriminate | reflexivity].
Defined.

(** ** The removal path *)

Lemma activeGroup_Some s ag :
  activeGroup s = Some ag →
  0 <= activeGroupIndex s < len (groups s) ∧
  groups s !! Z.to_nat (activeGroupIndex s) = Some ag.
Proof.
  unfold activeGroup. case_decide; [done|]. intros [_ H']%at_Some. split; [lia|done].
Qed.

Lemma indexOfGroup_member gs (n : nat) x :
  gs !! n = Some x →
  ∃ m : nat, indexOfGroup (groupRef x) gs = Z.of_nat m ∧ (m ≤ n)%nat.
Proof.
  intros Hx. unfold indexOfGroup.
  destruct (findIndex_range (λ y, Nat.eqb (groupRef y) (groupRef x)) gs) as [Hn|Hr].
  - apply findIndex_None in Hn. rewrite Forall_lookup in Hn.
    specialize (Hn _ _ Hx). simpl in Hn. by rewrite Nat.eqb_refl in Hn.
  - exists (Z.to_nat (findIndex (λ y, Nat.eqb (groupRef y) (groupRef x)) gs)).
    split; [lia|].
    destruct (findIndex_Some _ gs _ (proj1 Hr) eq_refl) as (y & _ & _ & Hmin).
    destruct (decide (Z.of_nat n < findIndex (λ y, Nat.eqb (groupRef y) (groupRef x)) gs)) as [Hlt|]; [|lia].
    specialize (Hmin (Z.of_nat n) x ltac:(lia)). rewrite at_of_nat in Hmin.
    specialize (Hmin Hx). simpl in Hmin. by rewrite Nat.eqb_refl in Hmin.
Qed.

Lemma indexOfGroup_NoDup gs (n : nat) x :
  NoDup (groupRef <$> gs) → gs !! n = Some x →
  indexOfGroup (groupRef x) gs = Z.of_nat n.
Proof.
  intros Hnd Hx. unfold indexOfGroup.
  apply findIndex_first with x; [done | apply Nat.eqb_refl |].
  intros j y Hj Hy. apply Nat.eqb_neq. intros Heq.
  assert (j = n); [|lia].
  eapply NoDup_lookup; [exact Hnd | |]; rewrite list_lookup_fmap.
  - by rewrite Hy.
  - rewrite Hx. simpl. by rewrite Heq.
Qed.

(** What [_removeGroup] does to the list and the index when the removed
    group is the active one; [n] is the position [indexOf] finds. *)
Lemma removeGroup_active s ag (n : nat) :
  activeGroup s = Some ag →
  indexOfGroup (groupRef ag) (groups s) = Z.of_nat n →
  let s' := _removeGroup (groupRef ag) s in
  len (groups s') = len (groups s) - 1 ∧
  activeGroupIndex s' =
    (if decide (len (groups s) - 1 > 0)
     then (if decide (Z.of_nat n < len (groups s) - 1)
           then Z.of_nat n else len (groups s) - 1 - 1)
     else -1).
Proof.
  intros Hag Hidx s'. subst s'. unfold _removeGroup.
  rewrite Hag, Nat.eqb_refl, Hidx.
  destruct (decide (Z.of_nat n ≠ -1)) as [_|?]; [|lia].
  apply activeGroup_Some in Hag as [Hr Hl].
  assert (n < length (groups s))%nat as Hn.
  { destruct (findIndex_range (λ x, Nat.eqb (groupRef x) (groupRef ag)) (groups s)) as [H|H];
      unfold indexOfGroup in Hidx; rewrite Hidx in H; unfold len in H; lia. }
  rewrite splice_delete by done.
  set (s1 := fireDidChangeGroups (set_groups _ s)).
  assert (len (groups s1) = len (groups s) - 1) as Hlen1.
  { subst s1. unfold len, fireDidChangeGroups; simpl.
    rewrite length_delete by (by apply lookup_lt_is_Some). lia. }
  assert (activeGroupIndex s1 = activeGroupIndex s) as Hagi1 by done.
  rewrite andb_true_l.
  case_bool_decide as Hpos; rewrite Hlen1 in Hpos.
  - set (newIndex := if decide (Z.of_nat n < len (groups s1)) then _ else _).
    assert (newIndex < len (groups s1)) as Hnew.
    { subst newIndex. case_decide; lia. }
    destruct (focusActiveInstance_fields (setActiveGroupByIndex newIndex s1)) as [Hg Ha].
    set (s2 := focusActiveInstance _) in *.
    assert (len (groups s2) = len (groups s) - 1) as Hlen2.
    { rewrite Hg, setActiveGroupByIndex_len. done. }
    assert (activeGroupIndex s2 = newIndex) as Hagi2.
    { rewrite Ha. by apply setActiveGroupByIndex_activeGroupIndex. }
    clearbody s2.
    destruct (decide (len (groups (fire DidChangeInstances s2)) = 0)) as [Hz|Hz];
      simpl in Hz; [lia|].
    simpl. split; [done|]. rewrite Hagi2. subst newIndex. rewrite Hlen1.
    by repeat case_decide.
  - destruct (decide (activeGroupIndex s1 >= len (groups s1))) as [_|?]; [|lia].
    set (s2 := setActiveGroupByIndex _ s1).
    assert (len (groups s2) = len (groups s) - 1) as Hlen2.
    { subst s2. rewrite setActiveGroupByIndex_len. done. }
    assert (activeGroupIndex s2 = -1) as Hagi2.
    { subst s2. rewrite setActiveGroupByIndex_activeGroupIndex; lia. }
    clearbody s2.
    destruct (decide (len (groups (fire DidChangeInstances s2)) = 0)) as [Hz|Hz];
      simpl in Hz; [|lia].
    simpl. split; [done|]. rewrite Hagi2. by rewrite decide_False by lia.
Qed.

Lemma removeGroup_only_group x agi aii k r ev :
  let s := mkService [x] agi aii k r ev in
  activeGroup s = Some x →
  fired (_removeGroup (groupRef x) s) =
    ev ++ [DidChangeGroups; DidChangeInstances; DidChangeActiveInstance None;
           DidChangeGroups; DidChangeActiveGroup None].
Proof.
  intros s Hag. subst s.
  pose proof (activeGroup_Some _ _ Hag) as [Hr _]. unfold len in Hr; simpl in Hr.
  assert (agi = 0) as -> by lia.
  unfold _removeGroup. rewrite Hag, Nat.eqb_refl. cbn [groups].
  assert (indexOfGroup (groupRef x) [x] = 0) as ->.
  { unfold indexOfGroup, findIndex. simpl. by rewrite Nat.eqb_refl. }
  destruct (decide (0 ≠ -1)) as [_|Hne]; [|by destruct Hne].
  change (splice [x] 0 1 []) with (@nil TerminalGroup).
  simpl. by rewrite <- !app_assoc.
Qed.

Example remove_active_middle :
  let s := runOps [OpCreateGroup (Some 7%nat); OpCreateGroup (Some 8%nat);
                   OpCreateGroup (Some 9%nat); OpSetActiveGroupByIndex 1]
                  initialService in
  activeGroupIndex (_removeGroup 1 s) = 1 ∧
  groupRef <$> groups (_removeGroup 1 s) = [0; 2]%nat.
Proof. split; reflexivity. Qed.

(** C5: when the removed group is the active group, the list loses one
    group; if groups remain, the new [activeGroupIndex] is the position the
    removed group had, clamped to the new last index, and so it is a valid
    index; if none remain, [activeGroupIndex] is -1 and the
    "active instance changed" event fires with no instance. *)
Theorem C5_remove_active_group (s : Service) (ag : TerminalGroup) :
  activeGroup s = Some ag →
  let index := indexOfGroup (groupRef ag) (groups s) in
  let s' := _removeGroup (groupRef ag) s in
  0 <= index <= activeGroupIndex s ∧
  (NoDup (groupRef <$> groups s) → index = activeGroupIndex s) ∧
  len (groups s') = len (groups s) - 1 ∧
  (len (groups s') > 0 →
   activeGroupIndex s' = Z.min index (len (groups s') - 1) ∧
   0 <= activeGroupIndex s' < len (groups s')) ∧
  (len (groups s') = 0 →
   activeGroupIndex s' = -1 ∧
   fired s' = fired s ++ [DidChangeGroups; DidChangeInstances;
                          DidChangeActiveInstance None;
                          DidChangeGroups; DidChangeActiveGroup None]).
Proof.
  intros Hag index s'.
  pose proof (activeGroup_Some _ _ Hag) as [Hr Hl].
  destruct (indexOfGroup_member _ _ _ Hl) as (n & Hn & Hle).
  destruct (removeGroup_active s ag n Hag Hn) as [Hlen Hagi].
  fold s' in Hlen, Hagi. subst index. rewrite Hn.
  split; [lia|]. split; [|split; [done|split]].
  - intros Hnd. rewrite (indexOfGroup_NoDup _ _ _ Hnd Hl) in Hn. lia.
  - intros Hpos. rewrite Hagi, Hlen. repeat case_decide; lia.
  - intros Hz. split.
    + rewrite Hagi. case_decide; lia.
    + assert (length (groups s) = 1%nat) as Hone by (unfold len in *; lia).
      subst s'. destruct s as [gs agi aii k r ev]. simpl in *.
      destruct gs as [|x [|??]]; simplify_eq/=.
      assert (ag = x) as ->.
      { destruct (Z.to_nat agi) eqn:E; simpl in Hl; [by simplify_eq|].
        by rewrite lookup_nil in Hl. }
      by apply removeGroup_only_group.
Qed.

Lemma C5_remove_active_group_witness :
  let s := runOps [OpCreateGroup (Some 7%nat); OpCreateGroup (Some 8%nat);
                   OpSetActiveGroupByIndex 1] initialService in
  activeGroupIndex (_removeGroup 1 s) = 0 ∧
  len (groups (_removeGroup 1 s)) = 1.
Proof.
  pose proof (C5_remove_active_group
    (runOps [OpCreateGroup (Some 7%nat); OpCreateGroup (Some 8%nat);
             OpSetActiveGroupByIndex 1] initialService)
    (mkGroup 1 [8%nat] 0 true) eq_refl) as (_ & _ & Hlen & Hpos & _).
  split.
  - apply Hpos. reflexivity.
  - exact Hlen.
Defined.

(** ** Flat index resolution *)

Lemma instanceCount_nonneg gs : 0 <= instanceCount gs.
Proof.
  induction gs as [|g gs IH]; simpl; [done|].
  pose proof (len_nonneg (terminalInstances g)). lia.
Qed.

Lemma instanceCount_app gs hs :
  instanceCount (gs ++ hs) = instanceCount gs + instanceCount hs.
Proof. induction gs as [|g gs IH]; simpl; lia. Qed.

Lemma instanceCount_take_S gs (n : nat) g :
  gs !! n = Some g →
  instanceCount (take (S n) gs) =
  instanceCount (take n gs) + len (terminalInstances g).
Proof.
  intros Hg. rewrite (take_S_r _ _ _ Hg), instanceCount_app. simpl. lia.
Qed.

Lemma instanceCount_drop gs (n : nat) g :
  gs !! n = Some g →
  instanceCount (drop n gs) =
  len (terminalInstances g) + instanceCount (drop (S n) gs).
Proof. intros Hg. by rewrite (drop_S _ _ _ Hg). Qed.

(** Whatever the loop returns is the location of the index it was given,
    counted from the group it started at. *)
Lemma getInstanceLocation_loop_Some fuel gs index (cur : nat) loc :
  getInstanceLocation_loop fuel gs index (Z.of_nat cur) = Some loc →
  ∃ p : nat,
    loc_groupIndex loc = Z.of_nat p ∧ (cur ≤ p)%nat ∧
    gs !! p = Some (loc_group loc) ∧
    0 <= loc_instanceIndex loc < len (terminalInstances (loc_group loc)) ∧
    loc_instance loc = at_ (terminalInstances (loc_group loc)) (loc_instanceIndex loc) ∧
    instanceCount (take p gs) + loc_instanceIndex loc =
      instanceCount (take cur gs) + index.
Proof.
  revert index cur. induction fuel as [|fuel IH]; intros index cur; simpl; [done|].
  case_decide as Hc; [|done]. rewrite at_of_nat.
  destruct (gs !! cur) as [group|] eqn:Hg; [|done].
  case_decide as Hlt.
  - intros [= <-]. simpl. exists cur. split_and!; (done || lia).
  - replace (Z.of_nat cur + 1) with (Z.of_nat (S cur)) by lia.
    intros (p & ? & ? & ? & ? & ? & Heq)%IH. exists p.
    rewrite (instanceCount_take_S _ _ _ Hg) in Heq.
    split_and!; (done || lia).
Qed.

(** With enough fuel the loop returns "not found" exactly when the index
    is negative or not below the number of remaining instances. *)
Lemma getInstanceLocation_loop_None fuel gs index (cur : nat) :
  (length gs - cur < fuel)%nat →
  getInstanceLocation_loop fuel gs index (Z.of_nat cur) = None ↔
  index < 0 ∨ index >= instanceCount (drop cur gs).
Proof.
  revert index cur. induction fuel as [|fuel IH]; intros index cur Hfuel; [lia|].
  simpl. rewrite at_of_nat. unfold len at 1.
  destruct (gs !! cur) as [group|] eqn:Hg.
  - pose proof (lookup_lt_Some _ _ _ Hg).
    rewrite (instanceCount_drop _ _ _ Hg).
    pose proof (instanceCount_nonneg (drop (S cur) gs)).
    pose proof (len_nonneg (terminalInstances group)).
    case_decide as Hc.
    + case_decide as Hlt.
      * split; [done|lia].
      * replace (Z.of_nat cur + 1) with (Z.of_nat (S cur)) by lia.
        rewrite IH by lia. lia.
    + split; [intros _; left; lia | done].
  - apply lookup_ge_None in Hg. rewrite drop_ge by done. simpl.
    case_decide; [lia|]. split; [lia|done].
Qed.

Lemma instanceCount_take_mono gs (a b : nat) :
  (a ≤ b)%nat → instanceCount (take a gs) <= instanceCount (take b gs).
Proof.
  revert a b. induction gs as [|g gs IH]; intros [|a] [|b] Hab; simpl; try lia.
  - pose proof (instanceCount_nonneg (take b gs)).
    pose proof (len_nonneg (terminalInstances g)). lia.
  - specialize (IH a b ltac:(lia)). lia.
Qed.

Lemma getInstanceLocation_None index s :
  _getInstanceLocation index s = None ↔
  index < 0 ∨ index >= instanceCount (groups s).
Proof.
  unfold _getInstanceLocation.
  rewrite (getInstanceLocation_loop_None _ _ _ 0) by lia. by rewrite drop_0.
Qed.

Lemma getInstanceLocation_Some index s loc :
  _getInstanceLocation index s = Some loc →
  at_ (groups s) (loc_groupIndex loc) = Some (loc_group loc) ∧
  0 <= loc_instanceIndex loc < len (terminalInstances (loc_group loc)) ∧
  loc_instance loc = at_ (terminalInstances (loc_group loc)) (loc_instanceIndex loc) ∧
  flatIndex (groups s) (loc_groupIndex loc) (loc_instanceIndex loc) = index.
Proof.
  unfold _getInstanceLocation. intros H.
  apply (getInstanceLocation_loop_Some _ _ _ 0) in H
    as (p & Hp & _ & Hg & Hj & Hi & Heq).
  unfold flatIndex. rewrite Hp, at_of_nat, Nat2Z.id. simpl in Heq.
  split_and!; (done || lia).
Qed.

Example resolve_sizes_1_2_1 :
  let gs := [mkGroup 0 [10%nat] 0 true; mkGroup 1 [11%nat; 12%nat] 0 false;
             mkGroup 2 [13%nat] 0 false] in
  let s := mkService gs 0 0 None 3 [] in
  (loc_groupIndex <$> _getInstanceLocation 2 s) = Some 1 ∧
  (loc_instanceIndex <$> _getInstanceLocation 2 s) = Some 1 ∧
  (loc_instance <$> _getInstanceLocation 3 s) = Some (Some 13%nat) ∧
  _getInstanceLocation 4 s = None ∧ _getInstanceLocation (-1) s = None.
Proof. by split_and!. Qed.

(** C2: if flat index [i] resolves to the group at position [p] with local
    index [j], then [p] holds that group, [j] is a position of it, and the
    number of instances in the groups before [p] plus [j] is [i];
    conversely, the flat index of a position [j] of the group at [p]
    resolves to [(p, j)]; and resolution returns "not found", without an
    error, exactly when [i] is negative or at least the total instance
    count. *)
Theorem C2_flat_index_resolution (s : Service) :
  (∀ i loc,
     _getInstanceLocation i s = Some loc →
     at_ (groups s) (loc_groupIndex loc) = Some (loc_group loc) ∧
     0 <= loc_instanceIndex loc < len (terminalInstances (loc_group loc)) ∧
     flatIndex (groups s) (loc_groupIndex loc) (loc_instanceIndex loc) = i) ∧
  (∀ p j g,
     at_ (groups s) p = Some g → 0 <= j < len (terminalInstances g) →
     ∃ loc, _getInstanceLocation (flatIndex (groups s) p j) s = Some loc ∧
            loc_groupIndex loc = p ∧ loc_instanceIndex loc = j ∧
            loc_group loc = g ∧ loc_instance loc = at_ (terminalInstances g) j) ∧
  (∀ i, i < 0 ∨ i >= instanceCount (groups s) → _getInstanceLocation i s = None) ∧
  (∀ i, 0 <= i < instanceCount (groups s) → is_Some (_getInstanceLocation i s)).
Proof.
  split_and!.
  - intros i loc H. apply getInstanceLocation_Some in H as (? & ? & _ & ?). done.
  - intros p j g Hg Hj.
    pose proof (at_lt _ _ _ Hg) as Hp.
    apply at_Some in Hg as [Hp0 Hg].
    assert (∃ n : nat, p = Z.of_nat n) as Hn by (exists (Z.to_nat p); lia).
    destruct Hn as [n ->].
    rewrite Nat2Z.id in Hg.
    assert (flatIndex (groups s) (Z.of_nat n) j
            = instanceCount (take n (groups s)) + j) as Hflat.
    { unfold flatIndex. by rewrite Nat2Z.id. }
    pose proof (instanceCount_take_S _ _ _ Hg) as HS.
    pose proof (instanceCount_take_mono (groups s) (S n) (length (groups s))) as Htot.
    rewrite firstn_all in Htot.
    pose proof (instanceCount_nonneg (take n (groups s))).
    destruct (_getInstanceLocation (flatIndex (groups s) (Z.of_nat n) j) s)
      as [loc|] eqn:Hloc.
    + exists loc. split; [done|].
      unfold _getInstanceLocation in Hloc.
      apply (getInstanceLocation_loop_Some _ _ _ 0) in Hloc
        as (q & Hq & _ & Hgq & Hjq & Hiq & Heq).
      simpl in Heq. rewrite Hflat in Heq.
      assert (q = n) as ->.
      { destruct (decide (q < n)%nat) as [Hlt|Hge].
        - pose proof (instanceCount_take_mono (groups s) (S q) n ltac:(lia)).
          rewrite (instanceCount_take_S _ _ _ Hgq) in *. lia.
        - destruct (decide (n < q)%nat) as [Hlt|]; [|lia].
          pose proof (instanceCount_take_mono (groups s) (S n) q ltac:(lia)). lia. }
      assert (loc_group loc = g) as Hgg by congruence.
      assert (loc_instanceIndex loc = j) as Hjj by lia.
      rewrite Hiq, Hjj, Hgg. done.
    + apply getInstanceLocation_None in Hloc.
      apply lookup_lt_Some in Hg. specialize (Htot ltac:(lia)). lia.
  - intros i. apply getInstanceLocation_None.
  - intros i Hi. destruct (_getInstanceLocation i s) eqn:H; [done|].
    apply getInstanceLocation_None in H. lia.
Qed.

Lemma C2_flat_index_resolution_witness :
  let gs := [mkGroup 0 [10%nat] 0 true; mkGroup 1 [11%nat; 12%nat] 0 false;
             mkGroup 2 [13%nat] 0 false] in
  let s := mkService gs 0 0 None 3 [] in
  flatIndex gs 1 1 = 2 ∧ _getInstanceLocation 7 s = None ∧
  is_Some (_getInstanceLocation 3 s).
Proof.
  intros gs s.
  pose proof (C2_flat_index_resolution s) as (HSome & _ & HNone & HIn).
  split_and!.
  - exact (proj2 (proj2 (HSome 2 (mkLocation (mkGroup 1 [11%nat; 12%nat] 0 false) 1
                                       (Some 12%nat) 1) eq_refl))).
  - apply HNone. right. vm_compute. discriminate.
  - apply HIn. vm_compute. split; [discriminate | reflexivity].
Defined.

(** ** [setActiveInstanceByIndex] *)

Lemma fired_update_group r f s : fired (update_group r f s) = fired s.
Proof. done. Qed.

Lemma activeGroupIndex_update_group r f s :
  activeGroupIndex (update_group r f s) = activeGroupIndex s.
Proof. done. Qed.

Example setActiveInstanceByIndex_moves_silently :
  let s := setActiveInstanceByIndex 2 twoGroupService in
  activeGroup twoGroupService ≠ activeGroup s ∧
  activeGroupIndex s = 1 ∧ activeInstance s = Some 7%nat ∧
  fired s = fired twoGroupService.
Proof. by split_and!. Qed.

(** C9: [setActiveInstanceByIndex] never fires the "active group changed"
    event.  When the index resolves to a location whose instance is not the
    active one, [activeGroupIndex] becomes the group index of the location,
    and the events fired by the call contain no "active group changed". *)
Theorem C9_no_active_group_event (s : Service) (index : Z) :
  let s' := setActiveInstanceByIndex index s in
  (∃ new, fired s' = fired s ++ new ∧ ∀ g, DidChangeActiveGroup g ∉ new) ∧
  (∀ loc,
     _getInstanceLocation index s = Some loc →
     same_instance (activeInstance s) (loc_instance loc) = false →
     activeGroupIndex s' = loc_groupIndex loc).
Proof.
  intros s'. subst s'. unfold setActiveInstanceByIndex.
  destruct (_getInstanceLocation index s) as [loc|] eqn:Hloc; simpl.
  - apply getInstanceLocation_Some in Hloc as (_ & _ & Hi & _).
    rewrite <- Hi.
    destruct (same_instance _ _) eqn:Hsame.
    + split; [|intros ? [= <-] Hf; congruence].
      exists []. rewrite app_nil_r. split; [done|]. intros g. apply not_elem_of_nil.
    + destruct (decide (loc_groupIndex loc ≠ loc_groupIndex loc)) as [Hne|_];
        [by destruct Hne|].
      simpl. split; [|by intros ? [= <-]].
      exists []. rewrite app_nil_r. split; [done|]. intros g. apply not_elem_of_nil.
  - split; [|done].
    exists []. rewrite app_nil_r. split; [done|]. intros g. apply not_elem_of_nil.
Qed.

Lemma C9_no_active_group_event_witness :
  activeGroupIndex (setActiveInstanceByIndex 2 twoGroupService) = 1.
Proof.
  exact (proj2 (C9_no_active_group_event twoGroupService 2)
               (mkLocation (mkGroup 1 [6%nat; 7%nat] 1 false) 1 (Some 7%nat) 1)
               eq_refl eq_refl).
Defined.

(** ** [moveGroup] *)

Lemma getGroupForInstance_Some i s g :
  getGroupForInstance i s = Some g →
  ∃ n : nat, groups s !! n = Some g ∧
             indexOfInstance i (terminalInstances g) ≠ -1.
Proof.
  unfold getGroupForInstance. intros (n & _ & Hg & Hp)%find_Some.
  exists n. split; [done|]. apply negb_true_iff, bool_decide_eq_false in Hp. done.
Qed.

Lemma indexOfGroup_position gs (n : nat) g :
  gs !! n = Some g →
  ∃ m : nat, indexOfGroup (groupRef g) gs = Z.of_nat m ∧ (m < length gs)%nat ∧
             ∃ x, gs !! m = Some x ∧ groupRef x = groupRef g.
Proof.
  intros Hg. destruct (indexOfGroup_member _ _ _ Hg) as (m & Hm & Hle).
  pose proof (lookup_lt_Some _ _ _ Hg). exists m. split_and!; [done|lia|].
  unfold indexOfGroup in Hm.
  destruct (findIndex_Some _ _ _ (Nat2Z.is_nonneg m) Hm) as (x & Hx & Hp & _).
  exists x. rewrite at_of_nat in Hx. split; [done|]. by apply Nat.eqb_eq.
Qed.

Example moveGroup_is_not_a_swap :
  let s := mkService [mkGroup 0 [10%nat] 0 true; mkGroup 1 [11%nat] 0 false;
                      mkGroup 2 [12%nat] 0 false] 0 0 None 3 [] in
  groupRef <$> groups (moveGroup 10%nat 12%nat s) = [1; 2; 0]%nat.
Proof. reflexivity. Qed.

(** C6: when both instances resolve to groups, [moveGroup] deletes the
    group at the position [indexOf] gives for the source group and inserts
    the source group at the position the target group had: afterwards the
    source group sits at that position, and deleting it there gives back
    the list without the source group, so the other groups keep their
    relative order.  When either instance resolves to no group, the state
    is unchanged. *)
Theorem C6_moveGroup_splice (s : Service) (source target : Instance) :
  let s' := moveGroup source target s in
  (∀ sg tg,
     getGroupForInstance source s = Some sg →
     getGroupForInstance target s = Some tg →
     ∃ si ti : nat,
       indexOfGroup (groupRef sg) (groups s) = Z.of_nat si ∧
       indexOfGroup (groupRef tg) (groups s) = Z.of_nat ti ∧
       (si < length (groups s))%nat ∧ (ti < length (groups s))%nat ∧
       (∃ x, groups s !! si = Some x ∧ groupRef x = groupRef sg) ∧
       groups s' = take ti (delete si (groups s)) ++ sg :: drop ti (delete si (groups s)) ∧
       groups s' !! ti = Some sg ∧
       delete ti (groups s') = delete si (groups s) ∧
       length (groups s') = length (groups s)) ∧
  (getGroupForInstance source s = None ∨ getGroupForInstance target s = None →
   s' = s).
Proof.
  intros s'. subst s'. unfold moveGroup. split.
  - intros sg tg Hs Ht. rewrite Hs, Ht.
    apply getGroupForInstance_Some in Hs as (ns & Hns & _).
    apply getGroupForInstance_Some in Ht as (nt & Hnt & _).
    destruct (indexOfGroup_position _ _ _ Hns) as (si & Hsi & Hlts & Hx).
    destruct (indexOfGroup_position _ _ _ Hnt) as (ti & Hti & Hltt & _).
    exists si, ti. rewrite Hsi, Hti. simpl.
    rewrite splice_delete by done.
    assert (length (delete si (groups s)) = (length (groups s) - 1)%nat) as Hlen.
    { apply length_delete. by apply lookup_lt_is_Some. }
    rewrite splice_insert by lia.
    assert (length (take ti (delete si (groups s))) = ti) as Htake.
    { apply length_take_le. lia. }
    split_and!; try done.
    + rewrite lookup_app_r by lia. by rewrite Htake, Nat.sub_diag.
    + rewrite <- Htake at 1. rewrite delete_middle. apply take_drop.
    + rewrite length_app. simpl. rewrite length_drop. lia.
  - intros [H|H]; rewrite H; [done|]. by destruct (getGroupForInstance source s).
Qed.

Lemma C6_moveGroup_splice_witness :
  let s := mkService [mkGroup 0 [10%nat] 0 true; mkGroup 1 [11%nat] 0 false;
                      mkGroup 2 [12%nat] 0 false] 0 0 None 3 [] in
  (∃ si ti : nat,
     groups (moveGroup 10%nat 12%nat s) !! ti = Some (mkGroup 0 [10%nat] 0 true) ∧
     delete ti (groups (moveGroup 10%nat 12%nat s)) = delete si (groups s)) ∧
  moveGroup 10%nat 99%nat s = s.
Proof.
  intros s. split.
  - destruct (proj1 (C6_moveGroup_splice s 10%nat 12%nat) _ _ eq_refl eq_refl)
      as (si & ti & _ & _ & _ & _ & _ & _ & H1 & H2 & _).
    by exists si, ti.
  - apply (proj2 (C6_moveGroup_splice s 10%nat 99%nat)). by right.
Defined.

(** ** The utility process *)

Module UtilityProcessFacts.
Import UtilityProcess.

Lemma handleDidExit_exited code s :
  didExit s = true → handleDidExit code s = s.
Proof. intros H. unfold handleDidExit. by rewrite H. Qed.

Lemma handleDidExit_running code s :
  didExit s = false →
  handleDidExit code s =
  mkState (process s) (processPid s) true
          (onExit s ++ [mkExitEvent (processPid s) code]) (logged s).
Proof. intros H. unfold handleDidExit. by rewrite H. Qed.

Lemma didExit_handleDidExit code s : didExit (handleDidExit code s) = true.
Proof. unfold handleDidExit. by destruct (didExit s) eqn:H. Qed.

(** The freshly constructed object has not exited, and only
    [handleDidExit] sets the flag. *)
Lemma didExit_quiet serviceName d s :
  quiet serviceName d → didExit (deliver serviceName d s) = didExit s.
Proof.
  destruct d as [|code|details|]; simpl; try done.
  intros Hm. unfold onChildProcessGone. by rewrite Hm.
Qed.

Example exit_then_gone :
  let s := mkState (Some (mkElectronProcess (Some 42) 0)) (Some 42) false [] [] in
  let gone := mkDetails Utility "shared-1" 9 in
  onExit (onChildProcessGone "shared-1" gone (onProcessExit 0 s))
    = [mkExitEvent (Some 42) 0] ∧
  onExit (onProcessExit 0 (onChildProcessGone "shared-1" gone s))
    = [mkExitEvent (Some 42) 9].
Proof. by split. Qed.

(** Once an exit has been handled, later calls fire nothing:
    [handleDidExit(1)] followed by [handleDidExit(2)] leaves [onExit] with
    the one event of the first exit. *)
Example handleDidExit_after_exit :
  let s := mkState (Some (mkElectronProcess (Some 42) 0)) (Some 42) true
                   [mkExitEvent (Some 42) 0] [] in
  let s2 := handleDidExit 2 (handleDidExit 1 s) in
  onExit s2 = onExit s ∧
  ¬ (∃ e, onExit s2 = onExit s ++ [e]) ∧
  mkExitEvent (Some 42) 1 ∉ onExit s2.
Proof.
  simpl. split_and!.
  - done.
  - intros [e He]. by apply (f_equal length) in He.
  - rewrite list_elem_of_singleton. by intros [=].
Qed.

(** C3: in every state in which neither exit source has delivered yet
    ([didExit] is false: only [handleDidExit] sets the flag, and only the
    two listeners call it), [handleDidExit(c1)] followed by
    [handleDidExit(c2)] fires [onExit] exactly once, with the code [c1] of
    the first call, and the second call changes nothing; the same holds
    when the two calls come from the two exit sources, in either order:
    the ['exit'] listener and the ['child-process-gone'] listener for this
    service name.  After that, further calls change nothing. *)
Theorem C3_handleDidExit_once (s : State) (c1 c2 : Z) :
  let s1 := handleDidExit c1 s in
  let s2 := handleDidExit c2 s1 in
  (didExit s = false →
   onExit s1 = onExit s ++ [mkExitEvent (processPid s) c1] ∧
   s2 = s1 ∧
   (∀ serviceName details,
      matches serviceName details = true →
      onExit (onChildProcessGone serviceName details (onProcessExit c1 s))
        = onExit s ++ [mkExitEvent (processPid s) c1] ∧
      onExit (onProcessExit c2 (onChildProcessGone serviceName details s))
        = onExit s ++ [mkExitEvent (processPid s) (d_exitCode details)])) ∧
  (didExit s = true → s1 = s ∧ s2 = s).
Proof.
  intros s1 s2. subst s1 s2. split.
  - intros Hrun. split_and!.
    + by rewrite handleDidExit_running.
    + apply handleDidExit_exited, didExit_handleDidExit.
    + intros serviceName details Hm. unfold onChildProcessGone, onProcessExit.
      rewrite Hm. split.
      * rewrite (handleDidExit_exited (d_exitCode details)).
        -- by rewrite handleDidExit_running.
        -- simpl. apply didExit_handleDidExit.
      * rewrite (handleDidExit_exited c2).
        -- by rewrite handleDidExit_running.
        -- simpl. apply didExit_handleDidExit.
  - intros Hex. rewrite (handleDidExit_exited c1) by done.
    by rewrite handleDidExit_exited.
Qed.

Lemma C3_handleDidExit_once_witness :
  let s := mkState (Some (mkElectronProcess (Some 42) 0)) (Some 42) false [] [] in
  onExit (handleDidExit 3 s) = [mkExitEvent (Some 42) 3] ∧
  handleDidExit 4 (handleDidExit 3 s) = handleDidExit 3 s ∧
  handleDidExit 4 (handleDidExit 3 (handleDidExit 0 s)) = handleDidExit 0 s.
Proof.
  intros s.
  destruct (proj1 (C3_handleDidExit_once s 3 4) eq_refl) as (H1 & H2 & _).
  destruct (proj2 (C3_handleDidExit_once (handleDidExit 0 s) 3 4) eq_refl)
    as (_ & H3).
  split_and!; [exact H1 | exact H2 | exact H3].
Defined.

(** *** [waitForExit] *)

Lemma kills_deliver serviceName d s :
  kills (deliver serviceName d s) = kills s.
Proof.
  destruct d as [|code|details|]; simpl; try done.
  - unfold onProcessExit, handleDidExit. simpl. by destruct (didExit s).
  - unfold onChildProcessGone, handleDidExit. simpl.
    destruct (matches _ _); [|done]. by destruct (didExit s).
Qed.

Lemma process_deliver serviceName d s :
  process (deliver serviceName d s) = process s.
Proof.
  destruct d as [|code|details|]; simpl; try done.
  - unfold onProcessExit, handleDidExit. simpl. by destruct (didExit s).
  - unfold onChildProcessGone, handleDidExit. simpl.
    destruct (matches _ _); [|done]. by destruct (didExit s).
Qed.

Lemma onExit_quiet serviceName d s :
  quiet serviceName d → onExit (deliver serviceName d s) = onExit s.
Proof.
  destruct d as [|code|details|]; simpl; try done.
  intros Hm. unfold onChildProcessGone. by rewrite Hm.
Qed.

(** An exit delivery to a process that has not exited fires [_onExit] once,
    with the code of the delivery. *)
Lemma exitDelivery_fires serviceName d s :
  exitDelivery serviceName d → didExit s = false →
  didExit (deliver serviceName d s) = true ∧
  onExit (deliver serviceName d s) =
    onExit s ++ [mkExitEvent (processPid s) (exitCode d)].
Proof.
  destruct d as [|code|details|]; simpl; try done.
  - intros _ H. unfold onProcessExit. rewrite handleDidExit_running by done. done.
  - intros Hm H. unfold onChildProcessGone. rewrite Hm.
    rewrite handleDidExit_running by done. done.
Qed.

(** Once the call has resolved, deliveries only run the listeners. *)
Lemma run_resolved serviceName ms ds s :
  foldl (step serviceName ms) (s, Resolved) ds =
  (foldl (λ s d, deliver serviceName d s) s ds, Resolved).
Proof. revert s. induction ds as [|d ds IH]; intros s; simpl; [done|]. apply IH. Qed.

Lemma kills_delivers serviceName ds s :
  kills (foldl (λ s d, deliver serviceName d s) s ds) = kills s.
Proof.
  revert s. induction ds as [|d ds IH]; intros s; simpl; [done|].
  by rewrite IH, kills_deliver.
Qed.

Lemma didExit_delivers serviceName ds s :
  didExit s = true →
  didExit (foldl (λ s d, deliver serviceName d s) s ds) = true.
Proof.
  revert s. induction ds as [|d ds IH]; intros s H; simpl; [done|].
  apply IH. destruct d as [|code|details|]; simpl; try done.
  - apply didExit_handleDidExit.
  - unfold onChildProcessGone. destruct (matches _ _); [|done].
    apply didExit_handleDidExit.
Qed.

(** Quiet deliveries leave the call pending and the process running. *)
Lemma run_quiet serviceName ms pre s :
  Forall (quiet serviceName) pre → didExit s = false →
  ∃ s', foldl (step serviceName ms) (s, Awaiting) pre = (s', Awaiting) ∧
        didExit s' = false ∧ process s' = process s.
Proof.
  intros Hpre. revert s. induction Hpre as [|d pre Hd _ IH]; intros s Hrun; simpl.
  - by exists s.
  - rewrite (onExit_quiet _ _ _ Hd), Nat.eqb_refl. simpl.
    destruct d; try done; simpl in *.
    + destruct (IH (onSpawn s)) as (s' & -> & ? & ?); [done|]. by exists s'.
    + destruct (IH (onChildProcessGone serviceName details s)) as (s' & -> & ? & Hp).
      { pose proof (didExit_quiet serviceName (ChildProcessGone details) s Hd) as E.
        simpl in E. by rewrite E. }
      exists s'. split_and!; [done..|].
      rewrite Hp. apply (process_deliver serviceName (ChildProcessGone details)).
Qed.

Lemma kills_resume_running ms s p :
  process s = Some p → didExit s = false →
  kills (waitForExit_resume ms s) = S (killRequests p).
Proof.
  intros Hp Hrun. unfold waitForExit_resume, kills. rewrite Hrun. simpl.
  by rewrite Hp.
Qed.

Lemma resume_exited ms s : didExit s = true → waitForExit_resume ms s = s.
Proof. intros H. unfold waitForExit_resume. by rewrite H. Qed.

Example waitForExit_100_times_out :
  let s := mkState (Some (mkElectronProcess (Some 42) 0)) (Some 42) false [] [] in
  let r := waitForExit "shared-1" 100 [TimerElapsed] s in
  snd r = Resolved ∧ kills (fst r) = 1%nat ∧
  logged (fst r) = [(Info, WaitingToExit); (Info, DidNotExitWithin 100)].
Proof. by split_and!. Qed.

(** C8: let [waitForExit(maxWaitTimeMs)] be called on a process that is
    attached and has not exited.  While nothing but quiet deliveries arrive
    the call is pending and has issued no kill.  If the timer elapses
    before any exit delivery, the call resolves and the process has
    received exactly one more [kill()]; if an exit delivery arrives before
    the timer, the call resolves and no [kill()] is issued; later
    deliveries change neither.  If no process is attached, or the process
    has already exited, the call resolves at once and no [kill()] is ever
    issued by it. *)
Theorem C8_waitForExit (serviceName : string) (maxWaitTimeMs : Z) (s : State) :
  (∀ p, process s = Some p → didExit s = false →
     (∀ pre, Forall (quiet serviceName) pre →
        let r := waitForExit serviceName maxWaitTimeMs pre s in
        snd r = Awaiting ∧ kills (fst r) = killRequests p) ∧
     (∀ pre post, Forall (quiet serviceName) pre →
        let r := waitForExit serviceName maxWaitTimeMs (pre ++ TimerElapsed :: post) s in
        snd r = Resolved ∧ kills (fst r) = S (killRequests p)) ∧
     (∀ pre d post, Forall (quiet serviceName) pre → exitDelivery serviceName d →
        let r := waitForExit serviceName maxWaitTimeMs (pre ++ d :: post) s in
        snd r = Resolved ∧ kills (fst r) = killRequests p ∧ didExit (fst r) = true)) ∧
  (process s = None ∨ didExit s = true →
     snd (waitForExit_enter s) = Resolved ∧
     (didExit s = true → process s ≠ None → fst (waitForExit_enter s) = s) ∧
     ∀ ds, let r := waitForExit serviceName maxWaitTimeMs ds s in
           snd r = Resolved ∧ kills (fst r) = kills s).
Proof.
  split.
  - intros p Hp Hrun.
    assert (waitForExit_enter s = (log WaitingToExit Info s, Awaiting)) as Henter.
    { unfold waitForExit_enter. by rewrite Hp, Hrun. }
    set (s0 := log WaitingToExit Info s) in *.
    assert (didExit s0 = false) as Hrun0 by done.
    assert (process s0 = Some p) as Hp0 by done.
    unfold waitForExit. rewrite Henter. clearbody s0. split_and!.
    + intros pre Hpre.
      destruct (run_quiet serviceName maxWaitTimeMs pre s0 Hpre Hrun0)
        as (s' & -> & _ & Hp'). simpl. split; [done|].
      unfold kills. by rewrite Hp', Hp0.
    + intros pre post Hpre. rewrite foldl_app.
      destruct (run_quiet serviceName maxWaitTimeMs pre s0 Hpre Hrun0)
        as (s' & -> & Hrun' & Hp'). cbn [foldl step deliver].
      rewrite Nat.eqb_refl. cbn [negb orb].
      rewrite run_resolved. cbn [fst snd]. split; [done|].
      rewrite kills_delivers. apply kills_resume_running; [congruence|done].
    + intros pre d post Hpre Hd. rewrite foldl_app.
      destruct (run_quiet serviceName maxWaitTimeMs pre s0 Hpre Hrun0)
        as (s' & -> & Hrun' & Hp'). cbn [foldl step].
      destruct (exitDelivery_fires serviceName d s' Hd Hrun') as [Hex Hfired].
      rewrite Hfired, length_app. simpl length.
      replace (Nat.eqb (length (onExit s') + 1) (length (onExit s'))) with false
        by (symmetry; apply Nat.eqb_neq; lia).
      cbn [negb orb]. rewrite resume_exited by done.
      rewrite run_resolved. cbn [fst snd]. split_and!; [done| |].
      * rewrite kills_delivers, kills_deliver. unfold kills. by rewrite Hp', Hp0.
      * by apply didExit_delivers.
  - intros Hnone.
    assert (snd (waitForExit_enter s) = Resolved ∧
            kills (fst (waitForExit_enter s)) = kills s) as [Hres Hk].
    { unfold waitForExit_enter, kills.
      destruct (process s) eqn:Hp; destruct (didExit s) eqn:Hd; simpl;
        rewrite ?Hp; try done.
      by destruct Hnone. }
    split_and!; [done| |].
    + intros He Hp. unfold waitForExit_enter.
      destruct (process s); [by rewrite He | done].
    + intros ds. unfold waitForExit.
      destruct (waitForExit_enter s) as [s0 w]. simpl in *. subst w.
      rewrite run_resolved. simpl. by rewrite kills_delivers.
Qed.

Lemma C8_waitForExit_witness :
  let s := mkState (Some (mkElectronProcess (Some 42) 0)) (Some 42) false [] [] in
  let gone := ChildProcessGone (mkDetails Utility "other-2" 1) in
  kills (fst (waitForExit "shared-1" 100 [Spawn; gone; TimerElapsed; Exit 0] s)) = 1%nat ∧
  kills (fst (waitForExit "shared-1" 100 [Spawn; gone; Exit 0; TimerElapsed] s)) = 0%nat ∧
  snd (waitForExit "shared-1" 100 [Exit 0]
         (mkState None None false [] [])) = Resolved.
Proof.
  intros s gone.
  destruct (C8_waitForExit "shared-1" 100 s) as [Hrun _].
  destruct (Hrun _ eq_refl eq_refl) as (_ & Htimer & Hexit).
  destruct (C8_waitForExit "shared-1" 100 (mkState None None false [] []))
    as [_ Hnone].
  assert (Forall (quiet "shared-1") [Spawn; gone]) as Hq.
  { repeat constructor. }
  split_and!.
  - exact (proj2 (Htimer [Spawn; gone] [Exit 0] Hq)).
  - exact (proj1 (proj2 (Hexit [Spawn; gone] (Exit 0) [TimerElapsed] Hq I))).
  - destruct (Hnone (or_introl eq_refl)) as (_ & _ & H). exact (proj1 (H [Exit 0])).
Defined.

End UtilityProcessFacts.

(** ** Ownership of instances *)

Lemma indexOfInstance_None x l : indexOfInstance x l = -1 ↔ x ∉ l.
Proof.
  unfold indexOfInstance. rewrite findIndex_None, Forall_forall. split.
  - intros H Hx. specialize (H x Hx). simpl in H. by rewrite Nat.eqb_refl in H.
  - intros H y Hy. apply Nat.eqb_neq. by intros ->.
Qed.

Lemma indexOfInstance_Some x l :
  x ∈ l → ∃ n : nat, indexOfInstance x l = Z.of_nat n ∧ l !! n = Some x.
Proof.
  intros Hx. unfold indexOfInstance.
  destruct (findIndex_range (λ e, Nat.eqb e x) l) as [Hn|Hr].
  - by apply indexOfInstance_None in Hn.
  - destruct (findIndex_Some _ l _ (proj1 Hr) eq_refl) as (y & Hy & Hp & _).
    apply Nat.eqb_eq in Hp as ->. apply at_Some in Hy as [_ Hy].
    exists (Z.to_nat (findIndex (λ e, Nat.eqb e x) l)). split; [lia|done].
Qed.

Lemma without_delete x l :
  x ∈ l → ∃ n : nat, l !! n = Some x ∧ without x l = delete n l.
Proof.
  intros Hx. destruct (indexOfInstance_Some _ _ Hx) as (n & Hn & Hl).
  exists n. split; [done|]. unfold without. rewrite Hn.
  rewrite decide_False by lia. apply splice_delete. by eapply lookup_lt_Some.
Qed.

Lemma without_absent x l : x ∉ l → without x l = l.
Proof.
  intros Hx. unfold without. rewrite decide_True; [done|].
  by apply indexOfInstance_None.
Qed.

Lemma NoDup_without x l : NoDup l → NoDup (without x l).
Proof.
  intros Hnd. destruct (decide (x ∈ l)) as [Hx|Hx].
  - destruct (without_delete _ _ Hx) as (n & _ & ->).
    eapply sublist_NoDup; [done | apply sublist_delete].
  - by rewrite without_absent.
Qed.

Lemma elem_of_without x y l :
  NoDup l → y ∈ without x l ↔ y ∈ l ∧ y ≠ x.
Proof.
  intros Hnd. destruct (decide (x ∈ l)) as [Hx|Hx].
  - destruct (without_delete _ _ Hx) as (n & Hn & ->).
    rewrite delete_take_drop.
    pose proof (take_drop_middle _ _ _ Hn) as Hl.
    set (l1 := take n l) in *. set (l2 := drop (S n) l) in *.
    clearbody l1 l2. subst l. clear Hx Hn.
    apply NoDup_app in Hnd as (_ & Hdis & Hnd).
    apply NoDup_cons in Hnd as [Hx2 _].
    rewrite !elem_of_app, elem_of_cons.
    split.
    + intros [Hy|Hy]; (split; [tauto|]); intros ->.
      * apply (Hdis x Hy). by left.
      * done.
    + intros [[Hy|[->|Hy]] Hne]; tauto.
  - rewrite without_absent by done. split; [|tauto].
    intros Hy. split; [done|]. by intros ->.
Qed.

Lemma length_without x l :
  x ∈ l → length (without x l) = (length l - 1)%nat.
Proof.
  intros Hx. destruct (without_delete _ _ Hx) as (n & Hn & ->).
  apply length_delete. by rewrite Hn.
Qed.

(** *** The layout under the operations of the service *)

Lemma layout_setVisibleOnly k gs : layout (setVisibleOnly k gs) = layout gs.
Proof.
  unfold layout, setVisibleOnly. apply list_eq. intros i.
  rewrite !list_lookup_fmap, list_lookup_imap. by destruct (gs !! i).
Qed.

Lemma layout_update_group r f F s :
  (∀ g, groupRef (f g) = groupRef g) →
  (∀ g, terminalInstances (f g) = F (terminalInstances g)) →
  layout (groups (update_group r f s)) = layoutUpdate r F (layout (groups s)).
Proof.
  intros Href HF. unfold layout, layoutUpdate, update_group. simpl.
  rewrite <- !list_fmap_compose. apply list_fmap_ext. intros i g _. simpl.
  destruct (Nat.eqb (groupRef g) r); [|done]. by rewrite Href, HF.
Qed.

Lemma layout_setActiveGroupByIndex index s :
  layout (groups (setActiveGroupByIndex index s)) = layout (groups s).
Proof.
  unfold setActiveGroupByIndex. case_decide; [done|].
  destruct (negb _); simpl; [|done]. apply layout_setVisibleOnly.
Qed.

Lemma nextRef_setActiveGroupByIndex index s :
  nextRef (setActiveGroupByIndex index s) = nextRef s.
Proof.
  unfold setActiveGroupByIndex. case_decide; [done|]. by destruct (negb _).
Qed.

Lemma groups_focusActiveInstance s :
  groups (focusActiveInstance s) = groups s.
Proof. apply focusActiveInstance_fields. Qed.

Lemma nextRef_focusActiveInstance s :
  nextRef (focusActiveInstance s) = nextRef s.
Proof. unfold focusActiveInstance. by destruct (activeInstance s). Qed.

Lemma layout__removeGroup r s :
  layout (groups (_removeGroup r s)) =
  if decide (indexOfGroup r (groups s) ≠ -1)
  then layout (splice (groups s) (indexOfGroup r (groups s)) 1 [])
  else layout (groups s).
Proof.
  unfold _removeGroup.
  set (was := match activeGroup s with Some ag => Nat.eqb r (groupRef ag) | None => false end).
  set (index := indexOfGroup r (groups s)).
  set (s1 := if decide (index ≠ -1) then _ else s).
  assert (layout (groups s1) =
          if decide (index ≠ -1) then layout (splice (groups s) index 1 [])
          else layout (groups s)) as <-.
  { subst s1. by case_decide. }
  clearbody s1.
  set (s2 := if was && _ then _ else _).
  assert (layout (groups s2) = layout (groups s1)) as <-.
  { subst s2. destruct (was && _).
    - rewrite groups_focusActiveInstance. apply layout_setActiveGroupByIndex.
    - case_decide; [|done]. apply layout_setActiveGroupByIndex. }
  clearbody s2. destruct was; repeat case_decide; done.
Qed.

Lemma nextRef__removeGroup r s : nextRef (_removeGroup r s) = nextRef s.
Proof.
  unfold _removeGroup.
  set (was := match activeGroup s with Some ag => Nat.eqb r (groupRef ag) | None => false end).
  set (index := indexOfGroup r (groups s)).
  set (s1 := if decide (index ≠ -1) then _ else s).
  assert (nextRef s1 = nextRef s) as <-.
  { subst s1. by case_decide. }
  clearbody s1.
  set (s2 := if was && _ then _ else _).
  assert (nextRef s2 = nextRef s1) as <-.
  { subst s2. destruct (was && _).
    - rewrite nextRef_focusActiveInstance. apply nextRef_setActiveGroupByIndex.
    - case_decide; [|done]. apply nextRef_setActiveGroupByIndex. }
  clearbody s2. destruct was; repeat case_decide; done.
Qed.

Lemma layout_fst gs : (layout gs).*1 = groupRef <$> gs.
Proof. unfold layout. rewrite <- list_fmap_compose. done. Qed.

Lemma layoutUpdate_fst r F L : (layoutUpdate r F L).*1 = L.*1.
Proof.
  unfold layoutUpdate. rewrite <- list_fmap_compose. apply list_fmap_ext.
  intros i p _. simpl. by destruct (Nat.eqb p.1 r).
Qed.

Lemma elem_of_layoutUpdate r F L r' l :
  (r', l) ∈ layoutUpdate r F L ↔
  ∃ l0, (r', l0) ∈ L ∧ l = if decide (r' = r) then F l0 else l0.
Proof.
  unfold layoutUpdate. rewrite list_elem_of_fmap. split.
  - intros ([r0 l0] & Heq & Hin). simpl in Heq.
    destruct (Nat.eqb_spec r0 r) as [->|Hne]; injection Heq as -> ->;
      exists l0; (split; [done|]).
    + by rewrite decide_True.
    + by rewrite decide_False.
  - intros (l0 & Hin & ->). exists (r', l0). split; [|done]. simpl.
    destruct (Nat.eqb_spec r' r) as [->|Hne].
    + by rewrite decide_True.
    + by rewrite decide_False.
Qed.

(** In a list with distinct keys, deleting the position of a key removes
    exactly the pairs with that key. *)
Lemma elem_of_delete_key (L : list (nat * list Instance)) (n : nat) r0 l0 r l :
  NoDup L.*1 → L !! n = Some (r0, l0) →
  (r, l) ∈ delete n L ↔ (r, l) ∈ L ∧ r ≠ r0.
Proof.
  intros Hnd Hn. rewrite delete_take_drop.
  pose proof (take_drop_middle _ _ _ Hn) as HL.
  set (L1 := take n L) in *. set (L2 := drop (S n) L) in *.
  clearbody L1 L2. subst L. clear Hn.
  rewrite fmap_app, fmap_cons in Hnd. simpl in Hnd.
  apply NoDup_app in Hnd as (_ & Hdis & Hnd).
  apply NoDup_cons in Hnd as [Hr0 _].
  rewrite !elem_of_app, elem_of_cons. split.
  - intros [Hin|Hin]; (split; [tauto|]); intros ->.
    + apply (Hdis r0); [|by left].
      apply list_elem_of_fmap. by exists (r0, l).
    + apply Hr0. apply list_elem_of_fmap. by exists (r0, l).
  - intros [[Hin|[Heq|Hin]] Hne]; [tauto| |tauto]. by injection Heq as -> ->.
Qed.

Lemma NoDup_fst_functional (L : list (nat * list Instance)) r l1 l2 :
  NoDup L.*1 → (r, l1) ∈ L → (r, l2) ∈ L → l1 = l2.
Proof.
  intros Hnd [i Hi]%list_elem_of_lookup [j Hj]%list_elem_of_lookup.
  assert (i = j) as ->.
  { eapply NoDup_lookup; [exact Hnd | |]; rewrite list_lookup_fmap.
    - by rewrite Hi.
    - by rewrite Hj. }
  congruence.
Qed.

Lemma elem_of_layout gs r l :
  (r, l) ∈ layout gs ↔ ∃ g, g ∈ gs ∧ groupRef g = r ∧ terminalInstances g = l.
Proof.
  unfold layout. rewrite list_elem_of_fmap. split.
  - intros (g & [= -> ->] & Hg). by exists g.
  - intros (g & Hg & <- & <-). by exists g.
Qed.

Lemma indexOfGroup_layout gs r l :
  (r, l) ∈ layout gs →
  ∃ n : nat, indexOfGroup r gs = Z.of_nat n ∧ (n < length gs)%nat ∧
             ∃ l', layout gs !! n = Some (r, l').
Proof.
  intros (g & [n Hn]%list_elem_of_lookup & <- & <-)%elem_of_layout.
  destruct (indexOfGroup_position _ _ _ Hn) as (m & Hm & Hlt & x & Hx & Href).
  exists m. split_and!; [done..|]. exists (terminalInstances x).
  unfold layout. rewrite list_lookup_fmap, Hx. simpl. by rewrite Href.
Qed.

Section JoinFacts.
Variable indexAfterRemove : list Instance → Z → Instance → Z.
Variable indexAfterAdd : list Instance → Z → Instance → Z.

Lemma terminalInstances_group_removeInstance x g :
  terminalInstances (group_removeInstance indexAfterRemove x g)
  = without x (terminalInstances g).
Proof. unfold group_removeInstance, without. by case_decide. Qed.

Lemma groupRef_group_removeInstance x g :
  groupRef (group_removeInstance indexAfterRemove x g) = groupRef g.
Proof. unfold group_removeInstance. by case_decide. Qed.

(** [removeInstance] on the owner [rx] of [x]: the group keeps the other
    instances, and leaves [groups] when none is left. *)
Lemma layout_removeInstanceOf s rx lx x :
  let L := layout (groups s) in
  let L' := layout (groups (removeInstanceOf indexAfterRemove rx x s)) in
  NoDup L.*1 → (rx, lx) ∈ L → x ∈ lx →
  NoDup L'.*1 ∧ (length L' ≤ length L)%nat ∧
  ∀ r l, (r, l) ∈ L' ↔
         (r ≠ rx ∧ (r, l) ∈ L) ∨ (r = rx ∧ l = without x lx ∧ l ≠ []).
Proof.
  intros L L' Hnd Hrx Hx. subst L'. unfold removeInstanceOf.
  set (s1 := update_group rx (group_removeInstance indexAfterRemove x) s).
  assert (layout (groups s1) = layoutUpdate rx (without x) L) as HL1.
  { apply layout_update_group.
    - apply groupRef_group_removeInstance.
    - apply terminalInstances_group_removeInstance. }
  assert (NoDup (layout (groups s1)).*1) as Hnd1.
  { by rewrite HL1, layoutUpdate_fst. }
  assert (∀ r l, (r, l) ∈ layout (groups s1) ↔
            (r ≠ rx ∧ (r, l) ∈ L) ∨ (r = rx ∧ l = without x lx)) as Hchar1.
  { intros r l. rewrite HL1, elem_of_layoutUpdate. split.
    - intros (l0 & Hin & ->). case_decide as Hr; [|by left].
      subst r. right. split; [done|].
      by rewrite (NoDup_fst_functional _ _ _ _ Hnd Hin Hrx).
    - intros [[Hne Hin]|[-> ->]].
      + exists l. by rewrite decide_False.
      + exists lx. by rewrite decide_True. }
  set (becameEmpty := λ g : TerminalGroup, _).
  assert (existsb becameEmpty (groups s) = true ↔ without x lx = []) as Hempty.
  { rewrite existsb_exists. split.
    - intros (g & Hg%list_elem_of_In & Hb). subst becameEmpty. simpl in Hb.
      apply andb_true_iff in Hb as [Hb He].
      apply andb_true_iff in Hb as [Hr _].
      apply Nat.eqb_eq in Hr. apply bool_decide_eq_true in He.
      apply len_nil_inv in He.
      rewrite terminalInstances_group_removeInstance in He.
      assert ((rx, terminalInstances g) ∈ L) as Hin.
      { apply elem_of_layout. by exists g. }
      by rewrite <- (NoDup_fst_functional _ _ _ _ Hnd Hin Hrx).
    - intros He. apply elem_of_layout in Hrx as (g & Hg & Hr & Hl).
      exists g. split; [by apply list_elem_of_In|]. subst becameEmpty. simpl.
      rewrite Hr, Nat.eqb_refl, terminalInstances_group_removeInstance, Hl, He.
      simpl. rewrite andb_true_r. apply negb_true_iff, bool_decide_eq_false.
      rewrite indexOfInstance_None. by intros []. }
  clearbody becameEmpty.
  destruct (existsb becameEmpty (groups s)) eqn:Hex.
  - pose proof (proj1 Hempty eq_refl) as He.
    rewrite layout__removeGroup. cbn [groups fire].
    assert ((rx, []) ∈ layout (groups s1)) as Hin1.
    { apply Hchar1. right. by rewrite He. }
    destruct (indexOfGroup_layout _ _ _ Hin1) as (n & Hn & Hlt & l' & Hl').
    rewrite Hn. destruct (decide (Z.of_nat n ≠ -1)) as [_|?]; [|lia].
    rewrite splice_delete by done.
    assert (layout (delete n (groups s1)) = delete n (layout (groups s1))) as ->.
    { unfold layout. apply list_fmap_delete. }
    split_and!.
    + rewrite list_fmap_delete. eapply sublist_NoDup; [done | apply sublist_delete].
    + rewrite length_delete by (by rewrite Hl').
      subst L. unfold layout. rewrite !length_fmap. subst s1; simpl.
      rewrite length_fmap. lia.
    + intros r l. rewrite (elem_of_delete_key _ _ _ _ _ _ Hnd1 Hl'), Hchar1.
      split.
      * intros [[[Hne Hin]|[-> ->]] Hne']; [by left | done].
      * intros [[Hne Hin]|[-> [-> Hne]]]; [|by rewrite He in Hne].
        split; [by left | done].
  - assert (without x lx ≠ []) as Hne.
    { intros He. apply Hempty in He. congruence. }
    split_and!.
    + done.
    + subst L. unfold layout. rewrite !length_fmap. subst s1; simpl.
      by rewrite length_fmap.
    + intros r l. rewrite Hchar1. split.
      * intros [?|[-> ->]]; [by left | by right].
      * intros [?|[-> [-> _]]]; [by left | by right].
Qed.
Lemma nextRef_removeInstanceOf r x s :
  nextRef (removeInstanceOf indexAfterRemove r x s) = nextRef s.
Proof.
  unfold removeInstanceOf. destruct (existsb _ _); [|done].
  by rewrite nextRef__removeGroup.
Qed.

Lemma layout_addInstanceTo r x s :
  layout (groups (addInstanceTo indexAfterAdd r x s))
  = layoutUpdate r (λ l, l ++ [x]) (layout (groups s)).
Proof. unfold addInstanceTo. by apply layout_update_group. Qed.

(** One iteration of the second loop of [joinInstances]: [x] leaves its
    owner [rx] and is appended to the destination [rb]. *)
Lemma layout_move s rx lx rb lb x :
  let L := layout (groups s) in
  let s' := addInstanceTo indexAfterAdd rb x
              (removeInstanceOf indexAfterRemove rx x s) in
  let L' := layout (groups s') in
  wellFormed L → (rx, lx) ∈ L → x ∈ lx → (rb, lb) ∈ L → rx ≠ rb →
  wellFormed L' ∧ (length L' ≤ length L)%nat ∧ nextRef s' = nextRef s ∧
  ∀ r l, (r, l) ∈ L' ↔
         (r = rb ∧ l = lb ++ [x]) ∨
         (r = rx ∧ l = without x lx ∧ l ≠ []) ∨
         (r ≠ rb ∧ r ≠ rx ∧ (r, l) ∈ L).
Proof.
  intros L s' L' (Hnd & Hnd_in & Hown) Hrx Hx Hrb Hne.
  destruct (layout_removeInstanceOf s rx lx x Hnd Hrx Hx) as (Hnd2 & Hlen2 & Hchar2).
  fold L in Hlen2, Hchar2.
  set (s2 := removeInstanceOf indexAfterRemove rx x s) in *.
  assert (L' = layoutUpdate rb (λ l, l ++ [x]) (layout (groups s2))) as HL'.
  { subst L' s'. apply layout_addInstanceTo. }
  assert (∀ r l, (r, l) ∈ L' ↔
            (r = rb ∧ l = lb ++ [x]) ∨
            (r = rx ∧ l = without x lx ∧ l ≠ []) ∨
            (r ≠ rb ∧ r ≠ rx ∧ (r, l) ∈ L)) as Hchar.
  { intros r l. rewrite HL', elem_of_layoutUpdate. split.
    - intros (l0 & [[Hr Hin]|(-> & -> & Hnil)]%Hchar2 & ->).
      + case_decide as Hb.
        * subst r. left. split; [done|].
          by rewrite (NoDup_fst_functional _ _ _ _ Hnd Hin Hrb).
        * by right; right.
      + rewrite decide_False by done. by right; left.
    - intros [[-> ->]|[(-> & -> & Hnil)|(Hb & Hr & Hin)]].
      + exists lb. rewrite decide_True by done. split; [|done].
        apply Hchar2. left. split; [congruence | done].
      + exists (without x lx). rewrite decide_False by done. split; [|done].
        apply Hchar2. by right.
      + exists l. rewrite decide_False by done. split; [|done].
        apply Hchar2. by left. }
  assert (x ∉ lb) as Hxb.
  { intros Hxb. apply Hne. by apply (Hown rx lx rb lb x). }
  pose proof (Hnd_in _ _ Hrx) as Hndx.
  split_and!; [split_and! | | | done].
  - by rewrite HL', layoutUpdate_fst.
  - intros r l [[-> ->]|[(-> & -> & _)|(_ & _ & Hin)]]%Hchar.
    + apply NoDup_app. split_and!.
      * by apply (Hnd_in rb).
      * intros y Hy ->%list_elem_of_singleton. done.
      * apply NoDup_singleton.
    + by apply NoDup_without.
    + by apply (Hnd_in r).
  - intros r1 l1 r2 l2 y H1%Hchar H2%Hchar Hy1 Hy2.
    destruct H1 as [[-> ->]|[(-> & -> & _)|(Hb1 & Hx1 & Hin1)]];
      destruct H2 as [[-> ->]|[(-> & -> & _)|(Hb2 & Hx2 & Hin2)]];
      try done.
    + apply elem_of_app in Hy1 as [Hy1| ->%list_elem_of_singleton];
        apply (elem_of_without _ _ _ Hndx) in Hy2 as [Hy2 Hyx]; [|done].
      by apply (Hown rb lb rx lx y).
    + apply elem_of_app in Hy1 as [Hy1| ->%list_elem_of_singleton].
      * by apply (Hown rb lb r2 l2 y).
      * exfalso. apply Hx2. by apply (Hown r2 l2 rx lx x).
    + apply elem_of_app in Hy2 as [Hy2| ->%list_elem_of_singleton];
        apply (elem_of_without _ _ _ Hndx) in Hy1 as [Hy1 Hyx]; [|done].
      by apply (Hown rx lx rb lb y).
    + apply (elem_of_without _ _ _ Hndx) in Hy1 as [Hy1 Hyx].
      by apply (Hown rx lx r2 l2 y).
    + apply elem_of_app in Hy2 as [Hy2| ->%list_elem_of_singleton].
      * by apply (Hown r1 l1 rb lb y).
      * exfalso. apply Hx1. by apply (Hown r1 l1 rx lx x).
    + apply (elem_of_without _ _ _ Hndx) in Hy2 as [Hy2 Hyx].
      by apply (Hown r1 l1 rx lx y).
    + by apply (Hown r1 l1 r2 l2 y).
  - subst L'. rewrite HL'. unfold layoutUpdate. rewrite length_fmap. done.
  - subst s'. unfold addInstanceTo. simpl. subst s2.
    apply nextRef_removeInstanceOf.
Qed.
End JoinFacts.

(** ** Activating an instance *)

Lemma instances_concat s :
  instances s = concat (terminalInstances <$> groups s).
Proof.
  unfold instances.
  assert (∀ gs acc, foldl (λ p c, p ++ terminalInstances c) acc gs
                    = acc ++ concat (terminalInstances <$> gs)) as H.
  { induction gs as [|g gs IH]; intros acc; simpl.
    - by rewrite app_nil_r.
    - by rewrite IH, app_assoc. }
  by rewrite H.
Qed.

Lemma length_concat_instances gs :
  Z.of_nat (length (concat (terminalInstances <$> gs))) = instanceCount gs.
Proof.
  induction gs as [|g gs IH]; [done|].
  rewrite fmap_cons. cbn [concat instanceCount foldr].
  rewrite length_app, Nat2Z.inj_add, IH. done.
Qed.

(** The location of a flat index holds the instance that [instances] has
    at that index. *)
Lemma getInstanceLocation_instance index s loc :
  _getInstanceLocation index s = Some loc →
  loc_instance loc = at_ (instances s) index ∧ is_Some (loc_instance loc).
Proof.
  intros (Hg & Hj & Hi & Hflat)%getInstanceLocation_Some.
  pose proof (at_lt _ _ _ Hg) as Hp. apply at_Some in Hg as [_ Hg].
  unfold flatIndex in Hflat.
  set (p := Z.to_nat (loc_groupIndex loc)) in *.
  set (g := loc_group loc) in *. set (j := loc_instanceIndex loc) in *.
  rewrite Hi. split; [|by apply at_in_range].
  rewrite instances_concat.
  rewrite <- (take_drop_middle _ _ _ Hg), fmap_app, fmap_cons, concat_app.
  simpl.
  pose proof (length_concat_instances (take p (groups s))) as Hlen.
  pose proof (instanceCount_nonneg (take p (groups s))).
  unfold at_. rewrite !decide_True by lia.
  rewrite lookup_app_r by lia.
  rewrite lookup_app_l by (unfold len in Hj; lia).
  f_equal. lia.
Qed.

Lemma elem_of_instances s x :
  x ∈ instances s ↔ ∃ r l, (r, l) ∈ layout (groups s) ∧ x ∈ l.
Proof.
  rewrite instances_concat, list_elem_of_In, in_concat. split.
  - intros (l & (g & -> & Hg)%list_elem_of_In%list_elem_of_fmap & Hx%list_elem_of_In).
    exists (groupRef g), (terminalInstances g). split; [|done].
    apply elem_of_layout. by exists g.
  - intros (r & l & (g & Hg & _ & <-)%elem_of_layout & Hx).
    exists (terminalInstances g). split; [|by apply list_elem_of_In].
    by apply list_elem_of_In, list_elem_of_fmap_2.
Qed.

Lemma activeInstance_fire e s : activeInstance (fire e s) = activeInstance s.
Proof. done. Qed.

Lemma same_instance_true a x : same_instance a (Some x) = true → a = Some x.
Proof. destruct a as [y|]; simpl; [|done]. by intros ->%Nat.eqb_eq. Qed.

Lemma layoutUpdate_id r L : layoutUpdate r (λ l, l) L = L.
Proof.
  unfold layoutUpdate. rewrite <- (list_fmap_id L) at 2.
  apply list_fmap_ext. intros i [r' l] _. simpl. by destruct (Nat.eqb r' r).
Qed.

Lemma layout_setActiveInstanceByIndex index s :
  layout (groups (setActiveInstanceByIndex index s)) = layout (groups s).
Proof.
  unfold setActiveInstanceByIndex.
  destruct (_getInstanceLocation index s) as [loc|]; [|done].
  destruct (same_instance _ _); [done|].
  rewrite (layout_update_group _ _ (λ l, l)).
  - rewrite layoutUpdate_id. cbn [groups set_groups].
    rewrite layout_setVisibleOnly. by case_decide.
  - intros g. unfold group_setActiveInstanceByIndex. by case_decide.
  - intros g. unfold group_setActiveInstanceByIndex. by case_decide.
Qed.

Lemma nextRef_setActiveInstanceByIndex index s :
  nextRef (setActiveInstanceByIndex index s) = nextRef s.
Proof.
  unfold setActiveInstanceByIndex.
  destruct (_getInstanceLocation index s) as [loc|]; [|done].
  destruct (same_instance _ _); [done|]. simpl. by case_decide.
Qed.

(** [setActiveInstance] on an instance of some group completes and makes
    it the active instance; the groups keep their instances. *)
Lemma setActiveInstance_member x s :
  x ∈ instances s →
  ∃ s', setActiveInstance (Some x) s = (s', Normal) ∧
        activeInstance s' = Some x ∧
        layout (groups s') = layout (groups s) ∧ nextRef s' = nextRef s.
Proof.
  intros Hx. unfold setActiveInstance, _getIndexFromId.
  pose proof (findIndex_range (λ e, Nat.eqb e x) (instances s)) as Hrange.
  remember (findIndex (λ e, Nat.eqb e x) (instances s)) as idx eqn:Hidx.
  destruct Hrange as [Hn|Hr].
  { rewrite Hn in Hidx. symmetry in Hidx.
    apply findIndex_None in Hidx. rewrite Forall_forall in Hidx.
    specialize (Hidx x Hx). simpl in Hidx. by rewrite Nat.eqb_refl in Hidx. }
  rewrite decide_False by lia.
  destruct (findIndex_Some _ _ _ (proj1 Hr) (eq_sym Hidx)) as (y & Hy & Hp & _).
  apply Nat.eqb_eq in Hp as ->.
  eexists. split; [done|].
  split; [|split; [apply layout_setActiveInstanceByIndex
                  |apply nextRef_setActiveInstanceByIndex]].
  unfold setActiveInstanceByIndex.
  destruct (_getInstanceLocation idx s) as [loc|] eqn:Hloc.
  2:{ apply getInstanceLocation_None in Hloc.
      rewrite <- length_concat_instances, <- instances_concat in Hloc.
      unfold len, Instance in *. lia. }
  pose proof (getInstanceLocation_instance _ _ _ Hloc) as [Hinst _].
  apply getInstanceLocation_Some in Hloc as (Hg & Hj & Hi & _).
  assert (loc_instance loc = Some x) as Hinst2 by (etrans; [exact Hinst | exact Hy]).
  cbn [mbind option_bind]. rewrite <- Hi, Hinst2.
  destruct (same_instance (activeInstance s) (Some x)) eqn:Hsame.
  { by apply same_instance_true in Hsame. }
  pose proof (at_lt _ _ _ Hg) as Hp. apply at_Some in Hg as [_ Hg].
  unfold activeInstance, activeGroup, update_group.
  cbn [groups activeGroupIndex activeInstanceIndex set_groups
       set_activeGroupIndex set_activeInstanceIndex].
  destruct (decide (loc_groupIndex loc ≠ loc_groupIndex loc)) as [Hne|_];
    [by destruct Hne|].
  cbn [groups activeGroupIndex activeInstanceIndex set_groups
       set_activeGroupIndex set_activeInstanceIndex].
  rewrite decide_False.
  2:{ unfold len. rewrite length_fmap, length_setVisibleOnly. unfold len in Hp. lia. }
  unfold at_ at 1. rewrite decide_True by lia.
  rewrite list_lookup_fmap. unfold setVisibleOnly. rewrite list_lookup_imap, Hg.
  cbn. rewrite Nat.eqb_refl.
  unfold group_setActiveInstanceByIndex. cbn.
  rewrite decide_True by done. 
  unfold group_activeInstance. cbn. by rewrite <- Hi.
Qed.

(** ** [joinInstances] *)

Lemma getGroupForInstance_member x s g :
  getGroupForInstance x s = Some g →
  (groupRef g, terminalInstances g) ∈ layout (groups s) ∧ x ∈ terminalInstances g.
Proof.
  intros (n & Hn & Hidx)%getGroupForInstance_Some. split.
  - apply elem_of_layout. exists g. split; [|done]. by eapply list_elem_of_lookup_2.
  - destruct (decide (x ∈ terminalInstances g)) as [|Hx]; [done|].
    by apply indexOfInstance_None in Hx.
Qed.

Lemma getGroupForInstance_owner x s r l :
  wellFormed (layout (groups s)) → (r, l) ∈ layout (groups s) → x ∈ l →
  ∃ g, getGroupForInstance x s = Some g ∧ groupRef g = r ∧ terminalInstances g = l.
Proof.
  intros (Hnd & _ & Hown) Hin Hx.
  destruct (getGroupForInstance x s) as [g|] eqn:Hg.
  - exists g. split; [done|].
    apply getGroupForInstance_member in Hg as [Hgin Hgx].
    assert (groupRef g = r) as Hr by (by eapply Hown).
    split; [done|]. rewrite Hr in Hgin.
    by apply (NoDup_fst_functional _ _ _ _ Hnd Hgin Hin).
  - unfold getGroupForInstance in Hg. apply find_None in Hg.
    rewrite Forall_forall in Hg.
    apply elem_of_layout in Hin as (g & Hgin & _ & <-).
    specialize (Hg g Hgin). simpl in Hg.
    apply negb_false_iff, bool_decide_eq_true, indexOfInstance_None in Hg. done.
Qed.

Lemma activeInstance_join_events (was : bool) s :
  let s4 := fire DidChangeInstances s in
  let s5 := if negb was
            then fire (DidChangeActiveGroup (groupRef <$> activeGroup s4)) s4
            else s4 in
  activeInstance s5 = activeInstance s ∧ groups s5 = groups s ∧
  nextRef s5 = nextRef s.
Proof. by destruct was. Qed.

Section JoinTheorem.
Variable indexAfterRemove : list Instance → Z → Instance → Z.
Variable indexAfterAdd : list Instance → Z → Instance → Z.

(** An iteration of the second loop on an instance that is already in
    the destination group, next to another instance: it moves to the end
    of the group. *)
Lemma layout_move_same s rb lb x :
  let L := layout (groups s) in
  let s' := addInstanceTo indexAfterAdd rb x
              (removeInstanceOf indexAfterRemove rb x s) in
  let L' := layout (groups s') in
  wellFormed L → (rb, lb) ∈ L → x ∈ lb → without x lb ≠ [] →
  wellFormed L' ∧ (length L' ≤ length L)%nat ∧ nextRef s' = nextRef s ∧
  ∀ r l, (r, l) ∈ L' ↔
         (r = rb ∧ l = without x lb ++ [x]) ∨ (r ≠ rb ∧ (r, l) ∈ L).
Proof.
  intros L s' L' (Hnd & Hnd_in & Hown) Hrb Hx Hne.
  destruct (layout_removeInstanceOf indexAfterRemove s rb lb x Hnd Hrb Hx)
    as (Hnd2 & Hlen2 & Hchar2).
  fold L in Hlen2, Hchar2.
  set (s2 := removeInstanceOf indexAfterRemove rb x s) in *.
  assert (L' = layoutUpdate rb (λ l, l ++ [x]) (layout (groups s2))) as HL'.
  { subst L' s'. apply layout_addInstanceTo. }
  assert (∀ r l, (r, l) ∈ L' ↔
            (r = rb ∧ l = without x lb ++ [x]) ∨ (r ≠ rb ∧ (r, l) ∈ L)) as Hchar.
  { intros r l. rewrite HL', elem_of_layoutUpdate. split.
    - intros (l0 & [[Hr Hin]|(-> & -> & Hnil)]%Hchar2 & ->).
      + rewrite decide_False by done. by right.
      + rewrite decide_True by done. by left.
    - intros [[-> ->]|[Hr Hin]].
      + exists (without x lb). rewrite decide_True by done. split; [|done].
        apply Hchar2. by right.
      + exists l. rewrite decide_False by done. split; [|done].
        apply Hchar2. by left. }
  pose proof (Hnd_in _ _ Hrb) as Hndb.
  split_and!; [split_and! | | | done].
  - by rewrite HL', layoutUpdate_fst.
  - intros r l [[-> ->]|[_ Hin]]%Hchar.
    + apply NoDup_app. split_and!.
      * by apply NoDup_without.
      * intros y [_ Hy]%(elem_of_without _ _ _ Hndb) ->%list_elem_of_singleton. done.
      * apply NoDup_singleton.
    + by apply (Hnd_in r).
  - intros r1 l1 r2 l2 y H1%Hchar H2%Hchar Hy1 Hy2.
    assert (∀ z, z ∈ without x lb ++ [x] → z ∈ lb) as Hsub.
    { intros z [[Hz _]%(elem_of_without _ _ _ Hndb)| ->%list_elem_of_singleton]%elem_of_app;
        done. }
    destruct H1 as [[-> ->]|[Hb1 Hin1]]; destruct H2 as [[-> ->]|[Hb2 Hin2]];
      try done.
    + by apply (Hown rb lb r2 l2 y); [| |apply Hsub|].
    + by apply (Hown r1 l1 rb lb y); [| | |apply Hsub].
    + by apply (Hown r1 l1 r2 l2 y).
  - subst L'. rewrite HL'. unfold layoutUpdate. rewrite length_fmap. done.
  - subst s'. unfold addInstanceTo. simpl. subst s2.
    apply nextRef_removeInstanceOf.
Qed.

Lemma without_last (b a : Instance) : a ≠ b → without a [b; a] = [b].
Proof.
  intros Hne. unfold without, indexOfInstance, findIndex. simpl.
  destruct (Nat.eqb_spec b a) as [->|_]; [done|].
  rewrite Nat.eqb_refl. simpl. done.
Qed.
Lemma sole_instance (x : Instance) l : x ∈ l → len l = 1 → l = [x].
Proof.
  destruct l as [|y [|z l]]; unfold len; simpl; intros Hx Hl; try lia.
  by apply list_elem_of_singleton in Hx as ->.
Qed.

(** C4: in a well-formed service, let [a], [b], [c] belong to groups,
    [b] being the only instance of its group and [a] and [c] not the only
    instances of theirs.  Then [joinInstances([a, b, c])] completes; the
    group of [b] is still in [groups] and its instances are exactly [a],
    [b] and [c] (in the order [b, a, c] when [a] and [c] differ); no
    other group holds [a], [b] or [c]; [a] is the active instance; and no
    group was created. *)
Theorem C4_joinInstances (s : Service) (a b c : Instance) (ga gb gc : TerminalGroup) :
  wellFormed (layout (groups s)) →
  getGroupForInstance a s = Some ga →
  getGroupForInstance b s = Some gb →
  getGroupForInstance c s = Some gc →
  len (terminalInstances gb) = 1 →
  len (terminalInstances ga) ≠ 1 →
  len (terminalInstances gc) ≠ 1 →
  ∃ s' l,
    joinInstances indexAfterRemove indexAfterAdd [a; b; c] s = (s', Normal) ∧
    wellFormed (layout (groups s')) ∧
    (groupRef gb, l) ∈ layout (groups s') ∧
    (∀ y, y ∈ l ↔ y = a ∨ y = b ∨ y = c) ∧
    (a ≠ c → l = [b; a; c]) ∧
    (∀ r' l', (r', l') ∈ layout (groups s') →
              a ∈ l' ∨ b ∈ l' ∨ c ∈ l' → r' = groupRef gb ∧ l' = l) ∧
    activeInstance s' = Some a ∧
    (length (groups s') ≤ length (groups s))%nat ∧
    nextRef s' = nextRef s.
Proof.
  intros Hwf Ha Hb Hc Hsole Hna Hnc.
  pose proof Hwf as (Hnd & Hnd_in & Hown).
  pose proof (getGroupForInstance_member _ _ _ Ha) as [Hain Hax].
  pose proof (getGroupForInstance_member _ _ _ Hb) as [Hbin Hbx].
  pose proof (getGroupForInstance_member _ _ _ Hc) as [Hcin Hcx].
  set (ra := groupRef ga) in *. set (la := terminalInstances ga) in *.
  set (rb := groupRef gb) in *. set (lb := terminalInstances gb) in *.
  set (rc := groupRef gc) in *. set (lc := terminalInstances gc) in *.
  assert (lb = [b]) as Hlb by (by apply sole_instance).
  assert (a ≠ b) as Hab.
  { intros ->. rewrite Ha in Hb. injection Hb as ->. done. }
  assert (c ≠ b) as Hcb.
  { intros ->. rewrite Hc in Hb. injection Hb as ->. done. }
  assert (ra ≠ rb) as Hrab.
  { intros Heq. rewrite Heq in Hain.
    pose proof (NoDup_fst_functional _ _ _ _ Hnd Hain Hbin) as Hl.
    fold la lb in Hl. by rewrite Hl in Hna. }
  assert (rc ≠ rb) as Hrcb.
  { intros Heq. rewrite Heq in Hcin.
    pose proof (NoDup_fst_functional _ _ _ _ Hnd Hcin Hbin) as Hl.
    fold lc lb in Hl. by rewrite Hl in Hnc. }
  (* the first loop finds [b] *)
  unfold joinInstances. cbn [findCandidate]. rewrite Ha, Hb.
  rewrite (decide_False (P := len (terminalInstances ga) = 1)) by done.
  rewrite (decide_True (P := len (terminalInstances gb) = 1)) by done.
  fold rb.
  set (was := match activeGroup s with Some g => Nat.eqb (groupRef g) rb | None => false end).
  clearbody was.
  (* the second loop: [a] moves, [b] is skipped *)
  cbn [joinLoop same_instance]. rewrite (proj2 (Nat.eqb_neq a b) Hab), Ha.
  rewrite Nat.eqb_refl, (proj2 (Nat.eqb_neq c b) Hcb). fold ra.
  destruct (layout_move indexAfterRemove indexAfterAdd s ra la rb lb a
              Hwf Hain Hax Hbin Hrab) as (Hwf1 & Hlen1 & Hnext1 & Hchar1).
  set (s1 := addInstanceTo indexAfterAdd rb a (removeInstanceOf indexAfterRemove ra a s)) in *.
  assert ((rb, [b; a]) ∈ layout (groups s1)) as Hb1.
  { apply Hchar1. left. by rewrite Hlb. }
  pose proof Hwf1 as (Hnd1 & Hnd_in1 & Hown1).
  (* then [c] moves *)
  destruct (decide (a = c)) as [<-|Hac].
  - (* [c] is [a], which is already in the destination *)
    destruct (getGroupForInstance_owner a s1 rb [b; a] Hwf1 Hb1)
      as (g1 & -> & Hr1 & _); [elem_of_explicit|].
    rewrite Hr1.
    assert (without a [b; a] = [b]) as Hw by (by apply without_last).
    destruct (layout_move_same s1 rb [b; a] a Hwf1 Hb1)
      as (Hwf2 & Hlen2 & Hnext2 & Hchar2); [elem_of_explicit | by rewrite Hw |].
    rewrite Hw in Hchar2.
    set (s2 := addInstanceTo indexAfterAdd rb a (removeInstanceOf indexAfterRemove rb a s1)) in *.
    assert ((rb, [b; a]) ∈ layout (groups s2)) as Hb2.
    { apply Hchar2. by left. }
    destruct (setActiveInstance_member a s2) as (s3 & Hset & Hact & Hlay3 & Hnext3).
    { apply elem_of_instances. exists rb, [b; a]. split; [done | elem_of_explicit]. }
    cbn [head]. rewrite Hset.
    destruct (activeInstance_join_events was s3) as (Hact5 & Hg5 & Hnext5).
    eexists _, [b; a]. split; [done|].
    rewrite Hg5, Hlay3, Hact5, Hnext5, Hnext3, Hnext2, Hnext1.
    pose proof Hwf2 as (Hnd2 & _ & Hown2).
    split_and!; try done.
    + elem_of_explicit.
    + intros r' l' Hin Hy.
      assert (r' = rb) as ->.
      { destruct Hy as [Hy|[Hy|Hy]].
        - apply (Hown2 _ _ _ _ a Hin Hb2 Hy). elem_of_explicit.
        - apply (Hown2 _ _ _ _ b Hin Hb2 Hy). elem_of_explicit.
        - apply (Hown2 _ _ _ _ a Hin Hb2 Hy). elem_of_explicit. }
      split; [done|]. by apply (NoDup_fst_functional _ _ _ _ Hnd2 Hin Hb2).
    + unfold layout in Hlen1, Hlen2. rewrite !length_fmap in Hlen1, Hlen2.
      assert (length (groups s3) = length (groups s2)) as ->; [|lia].
      apply (f_equal length) in Hlay3. unfold layout in Hlay3.
      by rewrite !length_fmap in Hlay3.
  - (* [c] is a third instance, in a group other than the destination *)
    assert (∃ lc', (rc, lc') ∈ layout (groups s1) ∧ c ∈ lc') as (lc' & Hcin1 & Hcx1).
    { destruct (decide (rc = ra)) as [Heq|Hne].
      - assert (lc = la) as Hl.
        { rewrite Heq in Hcin. apply (NoDup_fst_functional _ _ _ _ Hnd Hcin Hain). }
        fold lc in Hcx. rewrite Hl in Hcx.
        assert (c ∈ without a la) as Hcw.
        { apply elem_of_without; [by apply (Hnd_in ra) | done]. }
        exists (without a la). split; [|done].
        apply Hchar1. right; left. rewrite Heq. split_and!; [done..|].
        intros Hnil. rewrite Hnil in Hcw. by apply elem_of_nil in Hcw.
      - exists lc. split; [|done]. apply Hchar1. by right; right. }
    destruct (getGroupForInstance_owner c s1 rc lc' Hwf1 Hcin1 Hcx1)
      as (g1 & -> & Hr1 & _).
    rewrite Hr1.
    destruct (layout_move indexAfterRemove indexAfterAdd s1 rc lc' rb [b; a] c
                Hwf1 Hcin1 Hcx1 Hb1 Hrcb) as (Hwf2 & Hlen2 & Hnext2 & Hchar2).
    set (s2 := addInstanceTo indexAfterAdd rb c (removeInstanceOf indexAfterRemove rc c s1)) in *.
    assert ((rb, [b; a; c]) ∈ layout (groups s2)) as Hb2.
    { apply Hchar2. by left. }
    destruct (setActiveInstance_member a s2) as (s3 & Hset & Hact & Hlay3 & Hnext3).
    { apply elem_of_instances. exists rb, [b; a; c]. split; [done | elem_of_explicit]. }
    cbn [head]. rewrite Hset.
    destruct (activeInstance_join_events was s3) as (Hact5 & Hg5 & Hnext5).
    eexists _, [b; a; c]. split; [done|].
    rewrite Hg5, Hlay3, Hact5, Hnext5, Hnext3, Hnext2, Hnext1.
    pose proof Hwf2 as (Hnd2 & _ & Hown2).
    split_and!; try done.
    + elem_of_explicit.
    + intros r' l' Hin Hy.
      assert (r' = rb) as ->.
      { destruct Hy as [Hy|[Hy|Hy]].
        - apply (Hown2 _ _ _ _ a Hin Hb2 Hy). elem_of_explicit.
        - apply (Hown2 _ _ _ _ b Hin Hb2 Hy). elem_of_explicit.
        - apply (Hown2 _ _ _ _ c Hin Hb2 Hy). elem_of_explicit. }
      split; [done|]. by apply (NoDup_fst_functional _ _ _ _ Hnd2 Hin Hb2).
    + unfold layout in Hlen1, Hlen2. rewrite !length_fmap in Hlen1, Hlen2.
      assert (length (groups s3) = length (groups s2)) as ->; [|lia].
      apply (f_equal length) in Hlay3. unfold layout in Hlay3.
      by rewrite !length_fmap in Hlay3.
Qed.
(** C10: [joinInstances([])] does not complete.  No candidate exists, so
    a group is created without a seed and appended; the loops do nothing;
    [setActiveInstance(instances[0])] reads [instanceId] of [undefined]
    and throws.  The state left behind is the state after [createGroup]:
    the new group, which has no instance, is still in [groups]. *)
Theorem C10_joinInstances_empty (s : Service) :
  let s' := snd (createGroup None s) in
  findCandidate [] s = None ∧
  joinInstances indexAfterRemove indexAfterAdd [] s = (s', Throw TypeError) ∧
  groups s' = groups s ++ [newTerminalGroup (nextRef s) None] ∧
  terminalInstances (newTerminalGroup (nextRef s) None) = [] ∧
  fired s' = fired s ++ [DidChangeGroups].
Proof. by split_and!. Qed.
End JoinTheorem.

Example joinInstances_empty_leaves_group :
  let r := joinInstances (λ _ i _, i) (λ _ i _, i) [] twoGroupService in
  snd r = Throw TypeError ∧
  layout (groups (fst r)) = [(0, [5]); (1, [6; 7]); (2, [])]%nat.
Proof. by split. Qed.

Lemma wellFormed_threeGroupService : wellFormed (layout (groups threeGroupService)).
Proof.
  split_and!.
  - simpl. nodup_explicit.
  - intros r l. unfold threeGroupService, layout. simpl.
    rewrite !elem_of_cons, elem_of_nil.
    intros [[= -> ->]|[[= -> ->]|[[= -> ->]|[]]]]; nodup_explicit.
  - intros r1 l1 r2 l2 x. unfold threeGroupService, layout. simpl.
    rewrite !elem_of_cons, !elem_of_nil.
    intros [[= -> ->]|[[= -> ->]|[[= -> ->]|[]]]]
           [[= -> ->]|[[= -> ->]|[[= -> ->]|[]]]];
      rewrite ?elem_of_cons, ?elem_of_nil; intuition congruence.
Qed.

Example joinInstances_three :
  let r := joinInstances (λ _ i _, i) (λ _ i _, i) [1; 3; 4]%nat threeGroupService in
  snd r = Normal ∧
  layout (groups (fst r)) = [(0, [2]); (1, [3; 1; 4]); (2, [5])]%nat ∧
  activeInstance (fst r) = Some 1%nat.
Proof. by split_and!. Qed.

Lemma C4_joinInstances_witness :
  ∃ s', joinInstances (λ _ i _, i) (λ _ i _, i) [1; 3; 4]%nat threeGroupService
        = (s', Normal) ∧
        (1%nat, [3; 1; 4]%nat) ∈ layout (groups s') ∧
        activeInstance s' = Some 1%nat.
Proof.
  destruct (C4_joinInstances (λ _ i _, i) (λ _ i _, i) threeGroupService
              1%nat 3%nat 4%nat
              (mkGroup 0 [1; 2]%nat 0 true) (mkGroup 1 [3]%nat 0 false)
              (mkGroup 2 [4; 5]%nat 0 false)
              wellFormed_threeGroupService eq_refl eq_refl eq_refl)
    as (s' & l & Hjoin & _ & Hin & _ & Hl & _ & Hact & _).
  - reflexivity.
  - unfold len; simpl; lia.
  - unfold len; simpl; lia.
  - specialize (Hl ltac:(lia)). subst l. exists s'. by split_and!.
Defined.

(** * Further properties of the service *)

(** ** Next and previous group *)

Lemma succ_mod (x n : Z) :
  0 <= x < n → (x + 1) `mod` n = if decide (x + 1 >= n) then 0 else x + 1.
Proof.
  intros Hx. case_decide.
  - assert (x + 1 = n) as -> by lia. apply Z_mod_same_full.
  - apply Z.mod_small. lia.
Qed.

Lemma pred_mod (x n : Z) :
  0 <= x < n → (x - 1) `mod` n = if decide (x - 1 < 0) then n - 1 else x - 1.
Proof.
  intros Hx. case_decide.
  - assert (x = 0) as -> by lia.
    replace (0 - 1) with (n - 1 + (-1) * n) by lia.
    rewrite Z_mod_plus_full. apply Z.mod_small. lia.
  - apply Z.mod_small. lia.
Qed.

Lemma setActiveGroupToNext_fields s :
  len (groups s) > 1 → -1 <= activeGroupIndex s →
  activeGroupIndex (setActiveGroupToNext s) =
    (if decide (activeGroupIndex s + 1 >= len (groups s)) then 0
     else activeGroupIndex s + 1) ∧
  len (groups (setActiveGroupToNext s)) = len (groups s) ∧
  layout (groups (setActiveGroupToNext s)) = layout (groups s).
Proof.
  intros Hlen Hlo. unfold setActiveGroupToNext. rewrite decide_False by lia.
  split_and!.
  - rewrite setActiveGroupByIndex_activeGroupIndex; [done|]. case_decide; lia.
  - apply setActiveGroupByIndex_len.
  - apply layout_setActiveGroupByIndex.
Qed.

Lemma setActiveGroupToPrevious_fields s :
  len (groups s) > 1 → activeGroupIndex s <= len (groups s) →
  activeGroupIndex (setActiveGroupToPrevious s) =
    (if decide (activeGroupIndex s - 1 < 0) then len (groups s) - 1
     else activeGroupIndex s - 1) ∧
  len (groups (setActiveGroupToPrevious s)) = len (groups s) ∧
  layout (groups (setActiveGroupToPrevious s)) = layout (groups s).
Proof.
  intros Hlen Hhi. unfold setActiveGroupToPrevious. rewrite decide_False by lia.
  split_and!.
  - rewrite setActiveGroupByIndex_activeGroupIndex; [done|]. case_decide; lia.
  - apply setActiveGroupByIndex_len.
  - apply layout_setActiveGroupByIndex.
Qed.

Example next_wraps_around :
  activeGroupIndex (setActiveGroupToNext
    (setActiveGroupByIndex 2 threeGroupService)) = 0 ∧
  activeGroupIndex (setActiveGroupToPrevious threeGroupService) = 2.
Proof. by split. Qed.

(** With at most one group, [setActiveGroupToNext] and
    [setActiveGroupToPrevious] change nothing.  With two groups or more and
    a valid active index [i], the first moves the index to [(i + 1) mod n]
    and the second to [(i - 1) mod n], where [n] is the number of groups;
    each undoes the index change of the other, and neither changes the
    groups or their instances. *)
Theorem next_previous_wrap (s : Service) :
  (len (groups s) <= 1 →
   setActiveGroupToNext s = s ∧ setActiveGroupToPrevious s = s) ∧
  (len (groups s) > 1 → 0 <= activeGroupIndex s < len (groups s) →
   activeGroupIndex (setActiveGroupToNext s)
     = (activeGroupIndex s + 1) `mod` len (groups s) ∧
   activeGroupIndex (setActiveGroupToPrevious s)
     = (activeGroupIndex s - 1) `mod` len (groups s) ∧
   activeGroupIndex (setActiveGroupToPrevious (setActiveGroupToNext s))
     = activeGroupIndex s ∧
   activeGroupIndex (setActiveGroupToNext (setActiveGroupToPrevious s))
     = activeGroupIndex s ∧
   layout (groups (setActiveGroupToNext s)) = layout (groups s) ∧
   layout (groups (setActiveGroupToPrevious s)) = layout (groups s)).
Proof.
  split.
  - intros Hlen. unfold setActiveGroupToNext, setActiveGroupToPrevious.
    by rewrite !decide_True by lia.
  - intros Hlen Hi.
    destruct (setActiveGroupToNext_fields s) as (Hn & Hnl & Hnlay); [lia..|].
    destruct (setActiveGroupToPrevious_fields s) as (Hp & Hpl & Hplay); [lia..|].
    destruct (setActiveGroupToPrevious_fields (setActiveGroupToNext s))
      as (Hpn & _ & _).
    { lia. }
    { rewrite Hn, Hnl. repeat case_decide; lia. }
    destruct (setActiveGroupToNext_fields (setActiveGroupToPrevious s))
      as (Hnp & _ & _).
    { lia. }
    { rewrite Hp. repeat case_decide; lia. }
    rewrite succ_mod, pred_mod by done.
    split_and!; try done.
    + rewrite Hpn, Hn, Hnl. repeat case_decide; lia.
    + rewrite Hnp, Hp, Hpl. repeat case_decide; lia.
Qed.

Lemma next_previous_wrap_witness :
  activeGroupIndex (setActiveGroupToPrevious (setActiveGroupToNext threeGroupService))
    = 0 ∧
  setActiveGroupToNext oneGroupService = oneGroupService.
Proof.
  split.
  - destruct (proj2 (next_previous_wrap threeGroupService)) as (_ & _ & H & _).
    + vm_compute. reflexivity.
    + vm_compute. split; [discriminate | reflexivity].
    + exact H.
  - apply (proj1 (next_previous_wrap oneGroupService)). vm_compute. discriminate.
Defined.

Lemma nextTimes_S n s :
  nextTimes (S n) s = setActiveGroupToNext (nextTimes n s).
Proof. done. Qed.

Lemma nextTimes_index (n : nat) s :
  len (groups s) > 1 → 0 <= activeGroupIndex s < len (groups s) →
  activeGroupIndex (nextTimes n s)
    = (activeGroupIndex s + Z.of_nat n) `mod` len (groups s) ∧
  len (groups (nextTimes n s)) = len (groups s).
Proof.
  intros Hlen Hi. induction n as [|n [IHi IHl]].
  - simpl. rewrite Z.add_0_r. split; [|done]. symmetry. by apply Z.mod_small.
  - rewrite nextTimes_S.
    assert (0 <= activeGroupIndex (nextTimes n s) < len (groups s)) as Hr.
    { rewrite IHi. apply Z.mod_pos_bound. lia. }
    destruct (setActiveGroupToNext_fields (nextTimes n s)) as (Hn & Hnl & _);
      [lia..|].
    rewrite Hnl. split; [|done].
    rewrite Hn, IHl, <- succ_mod by done. rewrite IHi.
    rewrite Zplus_mod_idemp_l. f_equal. lia.
Qed.

(** With two groups or more and a valid active index, [setActiveGroupToNext]
    visits the groups in a cycle: after [k] calls the index is
    [(i + k) mod n], and after [n] calls, [n] being the number of groups, it
    is back where it started. *)
Theorem next_cycles (s : Service) (k : nat) :
  len (groups s) > 1 → 0 <= activeGroupIndex s < len (groups s) →
  activeGroupIndex (nextTimes k s)
    = (activeGroupIndex s + Z.of_nat k) `mod` len (groups s) ∧
  activeGroupIndex (nextTimes (length (groups s)) s) = activeGroupIndex s.
Proof.
  intros Hlen Hi. split; [by apply nextTimes_index|].
  destruct (nextTimes_index (length (groups s)) s Hlen Hi) as [-> _].
  fold (len (groups s)).
  replace (activeGroupIndex s + len (groups s))
    with (activeGroupIndex s + 1 * len (groups s)) by lia.
  rewrite Z_mod_plus_full. by apply Z.mod_small.
Qed.

Lemma next_cycles_witness :
  activeGroupIndex (nextTimes 3 threeGroupService) = 0.
Proof.
  refine (proj2 (next_cycles threeGroupService 0 _ _)).
  - vm_compute. reflexivity.
  - vm_compute. split; [discriminate | reflexivity].
Defined.

(** ** Invariants of the whole service *)

(** Both invariants at once. *)
Lemma keyInv_frame s s' :
  len (groups s') = len (groups s) →
  terminalGroupCount s' = terminalGroupCount s →
  keyInv s → keyInv s'.
Proof.
  intros Hlen Hkey [H|[H Hnil]]; unfold keyInv; rewrite Hkey, Hlen.
  - by left.
  - right. split; [done|]. apply len_nil_inv. by rewrite Hlen, Hnil.
Qed.

Lemma keyInv_fired s : keyInv (fireDidChangeGroups s).
Proof. by left. Qed.

Lemma len_update_group r f s : len (groups (update_group r f s)) = len (groups s).
Proof. unfold update_group, len. simpl. by rewrite length_fmap. Qed.

Lemma key_setActiveGroupByIndex index s :
  terminalGroupCount (setActiveGroupByIndex index s) = terminalGroupCount s.
Proof.
  unfold setActiveGroupByIndex. case_decide; [done|]. by destruct (negb _).
Qed.

Lemma keyInv_setActiveGroupByIndex index s :
  keyInv s → keyInv (setActiveGroupByIndex index s).
Proof.
  apply keyInv_frame; [apply setActiveGroupByIndex_len | apply key_setActiveGroupByIndex].
Qed.

Lemma keyInv__removeGroup g s : keyInv (_removeGroup g s).
Proof.
  unfold _removeGroup.
  set (was := match activeGroup s with Some ag => Nat.eqb g (groupRef ag) | None => false end).
  destruct was; left; reflexivity.
Qed.

Lemma keyInv_createGroup seed s : keyInv (snd (createGroup seed s)).
Proof. by left. Qed.

Lemma setActiveInstanceByIndex_fields index s :
  len (groups (setActiveInstanceByIndex index s)) = len (groups s) ∧
  terminalGroupCount (setActiveInstanceByIndex index s) = terminalGroupCount s ∧
  (indexInv s → indexInv (setActiveInstanceByIndex index s)).
Proof.
  unfold setActiveInstanceByIndex.
  destruct (_getInstanceLocation index s) as [loc|] eqn:Hloc; [|done].
  destruct (same_instance _ _); [done|].
  apply getInstanceLocation_Some in Hloc as (Hg%at_lt & _).
  assert (∀ s0 : Service,
            (if decide (activeGroupIndex s0 ≠ loc_groupIndex loc)
             then fire (DidChangeActiveGroup (groupRef <$> activeGroup s0)) s0
             else s0) = s0 ∨
            (if decide (activeGroupIndex s0 ≠ loc_groupIndex loc)
             then fire (DidChangeActiveGroup (groupRef <$> activeGroup s0)) s0
             else s0) = fire (DidChangeActiveGroup (groupRef <$> activeGroup s0)) s0)
    as Hguard.
  { intros s0. case_decide; [by right | by left]. }
  split_and!.
  - rewrite len_update_group. cbn [groups set_groups]. rewrite len_setVisibleOnly.
    by destruct (Hguard (set_activeGroupIndex (loc_groupIndex loc)
                           (set_activeInstanceIndex (loc_instanceIndex loc) s)))
      as [-> | ->].
  - by destruct (Hguard (set_activeGroupIndex (loc_groupIndex loc)
                           (set_activeInstanceIndex (loc_instanceIndex loc) s)))
      as [-> | ->].
  - intros _. unfold indexInv. rewrite len_update_group.
    cbn [groups set_groups activeGroupIndex update_group].
    rewrite len_setVisibleOnly.
    destruct (Hguard (set_activeGroupIndex (loc_groupIndex loc)
                        (set_activeInstanceIndex (loc_instanceIndex loc) s)))
      as [-> | ->]; simpl; lia.
Qed.

Lemma moveGroup_fields source target s :
  len (groups (moveGroup source target s)) = len (groups s) ∧
  activeGroupIndex (moveGroup source target s) = activeGroupIndex s ∧
  terminalGroupCount (moveGroup source target s) = terminalGroupCount s.
Proof.
  unfold moveGroup.
  destruct (getGroupForInstance source s) as [sg|] eqn:Hs; [|done].
  destruct (getGroupForInstance target s) as [tg|] eqn:Ht; [|done].
  split; [|done].
  apply getGroupForInstance_Some in Hs as (ns & Hns & _).
  apply getGroupForInstance_Some in Ht as (nt & Hnt & _).
  destruct (indexOfGroup_position _ _ _ Hns) as (si & -> & Hlts & _).
  destruct (indexOfGroup_position _ _ _ Hnt) as (ti & -> & Hltt & _).
  cbn [groups fire set_groups].
  rewrite splice_delete by done.
  assert (length (delete si (groups s)) = (length (groups s) - 1)%nat) as Hlen.
  { apply length_delete. by apply lookup_lt_is_Some. }
  rewrite splice_insert by lia.
  unfold len. rewrite length_app. simpl. rewrite length_take, length_drop. lia.
Qed.

Lemma indexInv_frame s s' :
  len (groups s') = len (groups s) →
  activeGroupIndex s' = activeGroupIndex s →
  indexInv s → indexInv s'.
Proof. unfold indexInv. by intros -> ->. Qed.

Lemma inv_set_activeGroup value s :
  indexInv s ∧ keyInv s → indexInv (set_activeGroup value s) ∧ keyInv (set_activeGroup value s).
Proof.
  intros [Hi Hk]. split.
  - unfold indexInv, set_activeGroup.
    pose proof (len_nonneg (groups s)).
    destruct value as [r|]; simpl; [|lia].
    destruct (findIndex_range (λ e, Nat.eqb (groupRef e) r) (groups s)); lia.
  - by destruct value.
Qed.

Lemma inv_setActiveGroupToNext s :
  indexInv s ∧ keyInv s →
  indexInv (setActiveGroupToNext s) ∧ keyInv (setActiveGroupToNext s).
Proof.
  intros [Hi Hk]. unfold setActiveGroupToNext. case_decide; [done|]. split.
  - apply indexInv_setActiveGroupByIndex; [|done].
    unfold indexInv in Hi. case_decide; lia.
  - by apply keyInv_setActiveGroupByIndex.
Qed.

Lemma inv_setActiveGroupToPrevious s :
  indexInv s ∧ keyInv s →
  indexInv (setActiveGroupToPrevious s) ∧ keyInv (setActiveGroupToPrevious s).
Proof.
  intros [Hi Hk]. unfold setActiveGroupToPrevious. case_decide; [done|]. split.
  - apply indexInv_setActiveGroupByIndex; [|done].
    unfold indexInv in Hi. case_decide; lia.
  - by apply keyInv_setActiveGroupByIndex.
Qed.

Lemma inv_setActiveInstanceByIndex index s :
  indexInv s ∧ keyInv s →
  indexInv (setActiveInstanceByIndex index s) ∧ keyInv (setActiveInstanceByIndex index s).
Proof.
  intros [Hi Hk]. destruct (setActiveInstanceByIndex_fields index s) as (Hl & Hkey & Hinv).
  split; [by apply Hinv | by apply (keyInv_frame s)].
Qed.

Lemma inv_setActiveInstance instance s :
  indexInv s ∧ keyInv s →
  indexInv (fst (setActiveInstance instance s)) ∧
  keyInv (fst (setActiveInstance instance s)).
Proof.
  intros H. unfold setActiveInstance. destruct instance as [i|]; [|done].
  destruct (_getIndexFromId i s); [done|]. by apply inv_setActiveInstanceByIndex.
Qed.

Lemma inv_moveGroup source target s :
  indexInv s ∧ keyInv s →
  indexInv (moveGroup source target s) ∧ keyInv (moveGroup source target s).
Proof.
  intros [Hi Hk]. destruct (moveGroup_fields source target s) as (Hl & Ha & Hkey).
  split; [by apply (indexInv_frame s) | by apply (keyInv_frame s)].
Qed.

Section ServiceInvariants.
Variable indexAfterRemove : list Instance → Z → Instance → Z.
Variable indexAfterAdd : list Instance → Z → Instance → Z.

Lemma inv_removeInstanceOf r x s :
  indexInv s ∧ keyInv s →
  indexInv (removeInstanceOf indexAfterRemove r x s) ∧
  keyInv (removeInstanceOf indexAfterRemove r x s).
Proof.
  intros [Hi Hk]. unfold removeInstanceOf.
  set (s1 := update_group r (group_removeInstance indexAfterRemove x) s).
  assert (indexInv s1) as Hi1.
  { apply (indexInv_frame s); [apply len_update_group | done | done]. }
  assert (keyInv s1) as Hk1.
  { apply (keyInv_frame s); [apply len_update_group | done | done]. }
  destruct (existsb _ _); [|done]. split.
  - apply indexInv__removeGroup. apply Hi1.
  - apply keyInv__removeGroup.
Qed.

Lemma inv_addInstanceTo r x s :
  indexInv s ∧ keyInv s →
  indexInv (addInstanceTo indexAfterAdd r x s) ∧
  keyInv (addInstanceTo indexAfterAdd r x s).
Proof.
  intros [Hi Hk]. unfold addInstanceTo. split.
  - apply (indexInv_frame s); [apply len_update_group | done | done].
  - apply (keyInv_frame s); [apply len_update_group | done | done].
Qed.

Lemma inv_joinLoop ci cg l s :
  indexInv s ∧ keyInv s →
  indexInv (joinLoop indexAfterRemove indexAfterAdd ci cg l s) ∧
  keyInv (joinLoop indexAfterRemove indexAfterAdd ci cg l s).
Proof.
  revert s. induction l as [|x l IH]; intros s H; cbn [joinLoop]; [done|].
  destruct (same_instance (Some x) ci); [by apply IH|].
  destruct (getGroupForInstance x s); [|by apply IH].
  by apply IH, inv_addInstanceTo, inv_removeInstanceOf.
Qed.

Lemma inv_createGroup seed s :
  indexInv s ∧ keyInv s →
  indexInv (snd (createGroup seed s)) ∧ keyInv (snd (createGroup seed s)).
Proof.
  intros [Hi Hk]. split; [by apply indexInv_createGroup | apply keyInv_createGroup].
Qed.

Lemma inv_joinInstances l s :
  indexInv s ∧ keyInv s →
  indexInv (fst (joinInstances indexAfterRemove indexAfterAdd l s)) ∧
  keyInv (fst (joinInstances indexAfterRemove indexAfterAdd l s)).
Proof.
  intros H. unfold joinInstances.
  destruct (findCandidate l s) as [[i g]|].
  - set (was := match activeGroup s with Some g0 => _ | None => false end).
    pose proof (inv_setActiveInstance (head l) _
                  (inv_joinLoop (Some i) (groupRef g) l s H)) as H3.
    destruct (setActiveInstance _ _) as [s3 [|e]]; simpl in *; [|done].
    by destruct was.
  - destruct (createGroup None s) as [r s1] eqn:Hc.
    assert (indexInv s1 ∧ keyInv s1) as H1.
    { replace s1 with (snd (createGroup None s)) by (by rewrite Hc).
      by apply inv_createGroup. }
    set (was := match activeGroup s1 with Some g0 => _ | None => false end).
    pose proof (inv_setActiveInstance (head l) _
                  (inv_joinLoop None r l s1 H1)) as H3.
    destruct (setActiveInstance _ _) as [s3 [|e]]; simpl in *; [|done].
    by destruct was.
Qed.

Lemma inv_unsplitInstance x s :
  indexInv s ∧ keyInv s →
  indexInv (unsplitInstance indexAfterRemove x s) ∧
  keyInv (unsplitInstance indexAfterRemove x s).
Proof.
  intros H. unfold unsplitInstance.
  destruct (getGroupForInstance x s); [|done]. case_decide; [done|].
  by apply inv_createGroup, inv_removeInstanceOf.
Qed.

Lemma inv_applyServiceOp s op :
  fromMinusOne op → indexInv s ∧ keyInv s →
  indexInv (applyServiceOp indexAfterRemove indexAfterAdd s op) ∧
  keyInv (applyServiceOp indexAfterRemove indexAfterAdd s op).
Proof.
  intros Hop H. destruct op; simpl in *.
  - by apply inv_createGroup.
  - split; [apply indexInv__removeGroup, H | apply keyInv__removeGroup].
  - by apply inv_set_activeGroup.
  - destruct H. split;
      [by apply indexInv_setActiveGroupByIndex | by apply keyInv_setActiveGroupByIndex].
  - by apply inv_setActiveGroupToNext.
  - by apply inv_setActiveGroupToPrevious.
  - by apply inv_setActiveInstanceByIndex.
  - by apply inv_setActiveInstance.
  - by apply inv_moveGroup.
  - by apply inv_unsplitInstance.
  - by apply inv_joinInstances.
Qed.

Lemma inv_runServiceOps ops s :
  Forall fromMinusOne ops → indexInv s ∧ keyInv s →
  indexInv (runServiceOps indexAfterRemove indexAfterAdd ops s) ∧
  keyInv (runServiceOps indexAfterRemove indexAfterAdd ops s).
Proof.
  unfold runServiceOps. intros Hops. revert s.
  induction Hops as [|op ops Hop _ IH]; intros s H; simpl; [done|].
  by apply IH, inv_applyServiceOp.
Qed.

Lemma inv_initialService : indexInv initialService ∧ keyInv initialService.
Proof. split; [unfold indexInv, len; simpl; lia | by right]. Qed.

(** Whatever operations of the service run, in any order and with any
    arguments ([setActiveGroupByIndex] being given -1 or more), and whether
    they complete or throw, [activeGroupIndex] stays between -1 and
    [groups.length - 1]; so [activeGroup] is [undefined] only when the
    index is -1. *)
Theorem active_index_in_bounds (ops : list ServiceOp) :
  Forall fromMinusOne ops →
  let s := runServiceOps indexAfterRemove indexAfterAdd ops initialService in
  -1 <= activeGroupIndex s < len (groups s) ∧
  (activeGroup s = None ↔ activeGroupIndex s = -1).
Proof.
  intros Hops s.
  destruct (inv_runServiceOps ops initialService Hops inv_initialService) as [Hi _].
  fold s in Hi. split; [exact Hi|].
  unfold activeGroup. case_decide as Hd.
  - unfold indexInv in Hi. split; [lia | done].
  - destruct (at_in_range (groups s) (activeGroupIndex s)) as [g Hg]; [lia|].
    rewrite Hg. split; [done | lia].
Qed.

(** Whatever operations of the service run, the context key for the number
    of terminal groups is unset only while no group was ever created or
    removed, and then there is no group; once set, it equals
    [groups.length]. *)
Theorem group_count_key_tracks_groups (ops : list ServiceOp) :
  Forall fromMinusOne ops →
  let s := runServiceOps indexAfterRemove indexAfterAdd ops initialService in
  (terminalGroupCount s = None → groups s = []) ∧
  (∀ k, terminalGroupCount s = Some k → k = len (groups s)).
Proof.
  intros Hops s.
  destruct (inv_runServiceOps ops initialService Hops inv_initialService) as [_ Hk].
  fold s in Hk. destruct Hk as [Hk|[Hk Hnil]]; rewrite Hk.
  - split; [done | by intros k [= <-]].
  - split; [done | done].
Qed.
End ServiceInvariants.

Lemma active_index_in_bounds_witness :
  let ops := [CreateGroup (Some 1%nat); CreateGroup (Some 2%nat);
              SetActiveGroupByIndex 1; JoinInstances [1%nat; 2%nat];
              RemoveGroup 0%nat; SetActiveInstance None] in
  let s := runServiceOps (λ _ i _, i) (λ _ i _, i) ops initialService in
  -1 <= activeGroupIndex s < len (groups s).
Proof.
  refine (proj1 (active_index_in_bounds (λ _ i _, i) (λ _ i _, i) _ _)).
  repeat constructor. simpl. lia.
Defined.

Lemma group_count_key_tracks_groups_witness :
  let ops := [CreateGroup (Some 1%nat); CreateGroup (Some 2%nat);
              MoveGroup 1%nat 2%nat; UnsplitInstance 1%nat; RemoveGroup 0%nat] in
  let s := runServiceOps (λ _ i _, i) (λ _ i _, i) ops initialService in
  terminalGroupCount s = Some 1 ∧ 1 = len (groups s).
Proof.
  split; [reflexivity|].
  refine (proj2 (group_count_key_tracks_groups (λ _ i _, i) (λ _ i _, i) _ _) 1 _).
  - repeat constructor.
  - reflexivity.
Defined.

(** ** Removing a group that is not the active one *)

Lemma removeGroup_inactive s g (n : nat) :
  (∀ ag, activeGroup s = Some ag → groupRef ag ≠ g) →
  indexOfGroup g (groups s) = Z.of_nat n →
  let s' := _removeGroup g s in
  layout (groups s') = delete n (layout (groups s)) ∧
  len (groups s') = len (groups s) - 1 ∧
  activeGroupIndex s' =
    (if decide (activeGroupIndex s >= len (groups s) - 1)
     then len (groups s) - 1 - 1 else activeGroupIndex s) ∧
  (0 <= activeGroupIndex s < len (groups s) - 1 →
   fired s' = fired s ++ [DidChangeGroups; DidChangeInstances; DidChangeGroups]).
Proof.
  intros Hother Hidx s'.
  assert (n < length (groups s))%nat as Hn.
  { destruct (findIndex_range (λ x, Nat.eqb (groupRef x) g) (groups s)) as [H|H];
      unfold indexOfGroup in Hidx; rewrite Hidx in H; unfold len in H; lia. }
  assert (layout (groups s') = delete n (layout (groups s))) as Hlay.
  { subst s'. rewrite layout__removeGroup, Hidx.
    destruct (decide (Z.of_nat n ≠ -1)) as [_|?]; [|lia].
    rewrite splice_delete by done. unfold layout. apply list_fmap_delete. }
  assert (len (groups s') = len (groups s) - 1) as Hlen.
  { apply (f_equal length) in Hlay. unfold layout in Hlay.
    rewrite length_delete, !length_fmap in Hlay.
    - unfold len. lia.
    - rewrite list_lookup_fmap. apply fmap_is_Some. by apply lookup_lt_is_Some. }
  split; [done|]. split; [done|].
  subst s'. unfold _removeGroup in *.
  assert (match activeGroup s with
          | Some ag => Nat.eqb g (groupRef ag) | None => false end = false) as Hwas.
  { destruct (activeGroup s) as [ag|] eqn:Hag; [|done].
    apply Nat.eqb_neq. intros ->. by apply (Hother ag). }
  rewrite Hwas, Hidx in *.
  destruct (decide (Z.of_nat n ≠ -1)) as [_|?]; [|lia].
  rewrite splice_delete in * by done.
  set (s1 := fireDidChangeGroups (set_groups (delete n (groups s)) s)) in *.
  assert (len (groups s1) = len (groups s) - 1) as Hlen1.
  { subst s1. unfold len, fireDidChangeGroups; simpl.
    rewrite length_delete by (by apply lookup_lt_is_Some). lia. }
  assert (activeGroupIndex s1 = activeGroupIndex s) as Hagi1 by done.
  assert (fired s1 = fired s ++ [DidChangeGroups]) as Hf1 by done.
  clearbody s1. cbn [andb] in *. rewrite Hagi1, Hlen1 in *.
  destruct (decide (activeGroupIndex s >= len (groups s) - 1)) as [Hge|Hlt].
  - set (s2 := setActiveGroupByIndex (len (groups s) - 1 - 1) s1) in *.
    assert (activeGroupIndex s2 = len (groups s) - 1 - 1) as Hagi2.
    { subst s2. rewrite setActiveGroupByIndex_activeGroupIndex; lia. }
    clearbody s2. split; [|lia].
    by destruct (decide (len (groups (fire DidChangeInstances s2)) = 0)).
  - split.
    + by destruct (decide (len (groups (fire DidChangeInstances s1)) = 0)).
    + intros Hr.
      destruct (decide (len (groups (fire DidChangeInstances s1)) = 0)) as [Hz|_].
      * simpl in Hz. lia.
      * simpl. rewrite Hf1. by rewrite <- !app_assoc.
Qed.

Lemma activeLayout_lookup s :
  0 <= activeGroupIndex s < len (groups s) →
  activeLayout s = layout (groups s) !! Z.to_nat (activeGroupIndex s).
Proof.
  intros Hi. unfold activeLayout, activeGroup, layout, at_.
  rewrite decide_False by lia. rewrite decide_True by lia.
  by rewrite list_lookup_fmap.
Qed.

Example remove_first_of_three_shifts :
  let s' := _removeGroup 0 (setActiveGroupByIndex 1 threeGroupService) in
  activeLayout (setActiveGroupByIndex 1 threeGroupService) = Some (1%nat, [3%nat]) ∧
  activeLayout s' = Some (2%nat, [4%nat; 5%nat]) ∧
  ∀ gg, DidChangeActiveGroup gg ∉ drop 2 (fired s').
Proof.
  split_and!; [done..|]. intros gg. simpl.
  rewrite !elem_of_cons, elem_of_nil. intuition congruence.
Qed.

(** Removing a group other than the active one does not move
    [activeGroupIndex] unless it falls off the end.  So the same group stays
    active when the removed group comes after it, or when the active group
    is the last one (the index is then lowered by one); but when the removed
    group comes before an active group that is not the last, the index is
    kept and the group that followed the active one becomes the active
    group, and the only events fired are "groups changed", "instances
    changed", "groups changed". *)
Theorem remove_other_group_active (s : Service) (g : nat) (ag : TerminalGroup) (n : nat) :
  activeGroup s = Some ag → groupRef ag ≠ g →
  indexOfGroup g (groups s) = Z.of_nat n →
  let s' := _removeGroup g s in
  let i := activeGroupIndex s in
  Z.of_nat n ≠ i ∧
  (Z.of_nat n > i → activeGroupIndex s' = i ∧ activeLayout s' = activeLayout s) ∧
  (Z.of_nat n < i → i = len (groups s) - 1 →
   activeGroupIndex s' = i - 1 ∧ activeLayout s' = activeLayout s) ∧
  (Z.of_nat n < i → i < len (groups s) - 1 →
   activeGroupIndex s' = i ∧
   activeLayout s' = layout (groups s) !! Z.to_nat (i + 1) ∧
   fired s' = fired s ++ [DidChangeGroups; DidChangeInstances; DidChangeGroups]).
Proof.
  intros Hag Hne Hidx s' i.
  pose proof (activeGroup_Some _ _ Hag) as [Hr Hl]. fold i in Hr, Hl.
  destruct (removeGroup_inactive s g n) as (Hlay & Hlen & Hagi & Hfired);
    [intros ag' Hag'; congruence | done |].
  fold s' i in Hlay, Hlen, Hagi, Hfired.
  assert (Z.of_nat n ≠ i) as Hni.
  { intros Heq. unfold indexOfGroup in Hidx.
    destruct (findIndex_Some _ _ _ (Nat2Z.is_nonneg n) Hidx) as (x & Hx & Hp & _).
    rewrite at_of_nat in Hx. apply Nat.eqb_eq in Hp.
    rewrite <- Heq, Nat2Z.id in Hl. congruence. }
  assert (Z.of_nat n < len (groups s)) as Hn.
  { destruct (findIndex_range (λ x, Nat.eqb (groupRef x) g) (groups s)) as [H|H];
      unfold indexOfGroup in Hidx; rewrite Hidx in H; lia. }
  split; [done|]. split_and!.
  - intros Hgt. rewrite decide_False in Hagi by lia. split; [done|].
    rewrite !activeLayout_lookup by lia. rewrite Hagi, Hlay.
    apply list_lookup_delete_lt. lia.
  - intros Hlt Hlast. rewrite decide_True in Hagi by lia.
    split; [lia|].
    rewrite !activeLayout_lookup by lia. rewrite Hagi, Hlay.
    rewrite list_lookup_delete_ge by lia. f_equal. lia.
  - intros Hlt Hmid. rewrite decide_False in Hagi by lia.
    split; [done|]. split; [|apply Hfired; lia].
    rewrite activeLayout_lookup by lia. rewrite Hagi, Hlay.
    rewrite list_lookup_delete_ge by lia. f_equal. lia.
Qed.

Lemma remove_other_group_active_witness :
  let s := setActiveGroupByIndex 1 threeGroupService in
  activeLayout (_removeGroup 0 s) = Some (2%nat, [4%nat; 5%nat]) ∧
  activeLayout (_removeGroup 2 s) = Some (1%nat, [3%nat]).
Proof.
  intros s.
  destruct (remove_other_group_active s 0%nat (mkGroup 1 [3%nat] 0 true) 0%nat)
    as (_ & _ & _ & Hshift); [reflexivity | simpl; lia | reflexivity |].
  destruct (remove_other_group_active s 2%nat (mkGroup 1 [3%nat] 0 true) 2%nat)
    as (_ & Hafter & _); [reflexivity | simpl; lia | reflexivity |].
  split.
  - destruct Hshift as (_ & H & _); [reflexivity | reflexivity | exact H].
  - destruct Hafter as (_ & H); [reflexivity | exact H].
Defined.

Example remove_absent_group_fires :
  fired (_removeGroup 9 threeGroupService) = [DidChangeInstances; DidChangeGroups] ∧
  groups (_removeGroup 9 threeGroupService) = groups threeGroupService.
Proof. by split. Qed.

(** Removing a group that is not in [groups], from a state whose active
    index is in bounds, changes neither the groups nor the index, and still
    fires "instances changed", then "active instance changed" with no
    instance when there is no group, then "groups changed". *)
Theorem remove_absent_group (s : Service) (g : nat) :
  indexOfGroup g (groups s) = -1 →
  -1 <= activeGroupIndex s < len (groups s) →
  let s' := _removeGroup g s in
  groups s' = groups s ∧ activeGroupIndex s' = activeGroupIndex s ∧
  fired s' = fired s ++ DidChangeInstances ::
               (if decide (len (groups s) = 0)
                then [DidChangeActiveInstance None] else []) ++ [DidChangeGroups].
Proof.
  intros Hidx Hr s'. subst s'. unfold _removeGroup. rewrite Hidx.
  assert (match activeGroup s with
          | Some ag => Nat.eqb g (groupRef ag) | None => false end = false) as ->.
  { destruct (activeGroup s) as [ag|] eqn:Hag; [|done].
    apply Nat.eqb_neq. intros ->.
    apply activeGroup_Some in Hag as [_ Hl].
    destruct (indexOfGroup_member _ _ _ Hl) as (m & Hm & _). lia. }
  destruct (decide (-1 ≠ -1)) as [Hne|_]; [by destruct Hne|].
  cbn [andb].
  destruct (decide (activeGroupIndex s >= len (groups s))) as [?|_]; [lia|].
  cbn [groups fire].
  destruct (decide (len (groups s) = 0)); simpl; by rewrite <- !app_assoc.
Qed.

Lemma remove_absent_group_witness :
  groups (_removeGroup 9 threeGroupService) = groups threeGroupService.
Proof.
  refine (proj1 (remove_absent_group threeGroupService 9 _ _)).
  - reflexivity.
  - vm_compute. split; [discriminate | reflexivity].
Defined.

(** ** The [activeGroup] accessors *)



(** ** Flat index and the [instances] getter *)

(** [_getInstanceLocation(i)] finds the instance that the [instances]
    getter has at index [i]: both give the same instance, and both give
    [undefined] for the same indices. *)
Theorem location_agrees_with_instances (s : Service) (i : Z) :
  (_getInstanceLocation i s ≫= loc_instance) = at_ (instances s) i ∧
  (_getInstanceLocation i s = None ↔ at_ (instances s) i = None).
Proof.
  assert (len (instances s) = instanceCount (groups s)) as Hlen.
  { unfold len. by rewrite instances_concat, length_concat_instances. }
  destruct (_getInstanceLocation i s) as [loc|] eqn:Hloc; simpl.
  - destruct (getInstanceLocation_instance _ _ _ Hloc) as [Hi [x Hx]].
    split; [done|]. split; [done|]. intros Hn. congruence.
  - apply getInstanceLocation_None in Hloc.
    assert (at_ (instances s) i = None) as ->; [|done].
    destruct (at_ (instances s) i) as [x|] eqn:Hx; [|done].
    apply at_lt in Hx. lia.
Qed.

(** ** Activating by flat index *)

Lemma instances_layout s : instances s = concat (layout (groups s)).*2.
Proof.
  rewrite instances_concat. f_equal. unfold layout.
  rewrite <- list_fmap_compose. done.
Qed.

Lemma setActiveInstanceByIndex_active index s loc :
  _getInstanceLocation index s = Some loc →
  activeInstance (setActiveInstanceByIndex index s) = loc_instance loc.
Proof.
  intros Hloc. unfold setActiveInstanceByIndex. rewrite Hloc.
  pose proof (getInstanceLocation_instance _ _ _ Hloc) as [_ [x Hx]].
  apply getInstanceLocation_Some in Hloc as (Hg & Hj & Hi & _).
  cbn [mbind option_bind]. rewrite <- Hi, Hx.
  destruct (same_instance (activeInstance s) (Some x)) eqn:Hsame.
  { by apply same_instance_true in Hsame. }
  pose proof (at_lt _ _ _ Hg) as Hp. apply at_Some in Hg as [_ Hg].
  unfold activeInstance, activeGroup, update_group.
  cbn [groups activeGroupIndex activeInstanceIndex set_groups
       set_activeGroupIndex set_activeInstanceIndex].
  destruct (decide (loc_groupIndex loc ≠ loc_groupIndex loc)) as [Hne|_];
    [by destruct Hne|].
  cbn [groups activeGroupIndex activeInstanceIndex set_groups
       set_activeGroupIndex set_activeInstanceIndex].
  rewrite decide_False.
  2:{ unfold len. rewrite length_fmap, length_setVisibleOnly. unfold len in Hp. lia. }
  unfold at_ at 1. rewrite decide_True by lia.
  rewrite list_lookup_fmap. unfold setVisibleOnly. rewrite list_lookup_imap, Hg.
  cbn. rewrite Nat.eqb_refl.
  unfold group_setActiveInstanceByIndex. cbn.
  rewrite decide_True by done.
  unfold group_activeInstance. cbn. by rewrite <- Hi.
Qed.

Example activate_flat_index_3 :
  let s := setActiveInstanceByIndex 3 threeGroupService in
  activeInstance s = Some 4%nat ∧ activeGroupIndex s = 2 ∧
  groupVisible <$> groups s = [false; false; true].
Proof. by split_and!. Qed.

(** [setActiveInstanceByIndex(i)] changes nothing when [i] is not an index
    of [instances].  Otherwise the active instance becomes [instances[i]],
    no instance changes group, and the [instances] list is the same.
    Calling it a second time with the same index changes nothing more. *)
Theorem setActiveInstanceByIndex_activates (s : Service) (i : Z) :
  let s' := setActiveInstanceByIndex i s in
  (i < 0 ∨ i >= len (instances s) → s' = s) ∧
  (0 <= i < len (instances s) → activeInstance s' = at_ (instances s) i) ∧
  layout (groups s') = layout (groups s) ∧
  instances s' = instances s ∧
  setActiveInstanceByIndex i s' = s'.
Proof.
  intros s'.
  assert (len (instances s) = instanceCount (groups s)) as Hlen.
  { unfold len. by rewrite instances_concat, length_concat_instances. }
  assert (layout (groups s') = layout (groups s)) as Hlay
    by apply layout_setActiveInstanceByIndex.
  assert (instances s' = instances s) as Hinst.
  { by rewrite !instances_layout, Hlay. }
  assert (0 <= i < len (instances s) → activeInstance s' = at_ (instances s) i) as Hact.
  { intros Hi. destruct (_getInstanceLocation i s) as [loc|] eqn:Hloc.
    - subst s'. rewrite (setActiveInstanceByIndex_active _ _ _ Hloc).
      by apply getInstanceLocation_instance.
    - apply getInstanceLocation_None in Hloc. lia. }
  split_and!; try done.
  - intros Hi. subst s'. unfold setActiveInstanceByIndex.
    assert (_getInstanceLocation i s = None) as ->; [|done].
    apply getInstanceLocation_None. lia.
  - destruct (_getInstanceLocation i s') as [loc'|] eqn:Hloc'.
    + pose proof (getInstanceLocation_instance _ _ _ Hloc') as [Hi' [x Hx]].
      assert (0 <= i < len (instances s)) as Hr.
      { rewrite <- Hinst. apply (at_lt _ _ x). by rewrite <- Hi'. }
      unfold setActiveInstanceByIndex at 1. rewrite Hloc'.
      apply getInstanceLocation_Some in Hloc' as (_ & _ & Hii & _).
      cbn [mbind option_bind]. rewrite <- Hii, Hi', Hinst, <- (Hact Hr).
      assert (∀ a, same_instance a a = true) as Hrefl.
      { intros [y|]; simpl; [apply Nat.eqb_refl | done]. }
      by rewrite Hrefl.
    + unfold setActiveInstanceByIndex at 1. by rewrite Hloc'.
Qed.

Lemma setActiveInstanceByIndex_activates_witness :
  activeInstance (setActiveInstanceByIndex 3 threeGroupService) = Some 4%nat ∧
  setActiveInstanceByIndex 5 threeGroupService = threeGroupService.
Proof.
  destruct (setActiveInstanceByIndex_activates threeGroupService 3) as (_ & H3 & _).
  destruct (setActiveInstanceByIndex_activates threeGroupService 5) as (H5 & _).
  split.
  - apply H3. vm_compute. split; [discriminate | reflexivity].
  - apply H5. right. vm_compute. discriminate.
Defined.

(** ** [setActiveInstance] *)

(** [setActiveInstance(instance)] throws "Terminal with ID ... does not
    exist" exactly when the instance is in no group, and then leaves the
    state as it was; for an instance of some group it completes, the
    instance is the active instance afterwards, and no instance has changed
    group. *)
Theorem setActiveInstance_known_or_throws (s : Service) (x : Instance) :
  (x ∉ instances s →
   setActiveInstance (Some x) s = (s, Throw (TerminalDoesNotExist x))) ∧
  (x ∈ instances s →
   ∃ s', setActiveInstance (Some x) s = (s', Normal) ∧
         activeInstance s' = Some x ∧
         layout (groups s') = layout (groups s)) ∧
  (snd (setActiveInstance (Some x) s) = Normal ↔ x ∈ instances s).
Proof.
  assert (x ∉ instances s →
          setActiveInstance (Some x) s = (s, Throw (TerminalDoesNotExist x))) as Hout.
  { intros Hx. unfold setActiveInstance, _getIndexFromId.
    rewrite decide_True; [done|]. apply findIndex_None, Forall_forall.
    intros y Hy. apply Nat.eqb_neq. by intros ->. }
  assert (x ∈ instances s →
          ∃ s', setActiveInstance (Some x) s = (s', Normal) ∧
                activeInstance s' = Some x ∧
                layout (groups s') = layout (groups s)) as Hin.
  { intros Hx. destruct (setActiveInstance_member x s Hx) as (s' & ? & ? & ? & _).
    by exists s'. }
  split_and!; [done..|].
  destruct (decide (x ∈ instances s)) as [Hx|Hx].
  - destruct (Hin Hx) as (s' & -> & _). done.
  - rewrite (Hout Hx). done.
Qed.

Lemma setActiveInstance_known_or_throws_witness :
  setActiveInstance (Some 9%nat) threeGroupService
    = (threeGroupService, Throw (TerminalDoesNotExist 9)) ∧
  snd (setActiveInstance (Some 5%nat) threeGroupService) = Normal.
Proof.
  destruct (setActiveInstance_known_or_throws threeGroupService 9%nat) as (Hout & _).
  destruct (setActiveInstance_known_or_throws threeGroupService 5%nat) as (_ & _ & Hiff).
  split.
  - apply Hout. change (instances threeGroupService) with [1; 2; 3; 4; 5]%nat.
    rewrite !elem_of_cons, elem_of_nil. intuition congruence.
  - apply Hiff. change (instances threeGroupService) with [1; 2; 3; 4; 5]%nat.
    rewrite !elem_of_cons. tauto.
Defined.

(** ** [moveGroup] keeps the groups *)

Example moveGroup_keeps_active_index :
  let s := moveGroup 1%nat 4%nat threeGroupService in
  groupRef <$> groups s = [1; 2; 0]%nat ∧ activeGroupIndex s = 0 ∧
  activeLayout threeGroupService = Some (0%nat, [1; 2]%nat) ∧
  activeLayout s = Some (1%nat, [3%nat]).
Proof. by split_and!. Qed.

(** When the group objects of [groups] are distinct, [moveGroup] only
    reorders them: the groups after the call are a permutation of the groups
    before, so no group and no instance is lost or duplicated; moving a
    group onto itself (source and target in the same group) changes no
    position.  [activeGroupIndex] is never adjusted, whichever group ends
    at that position. *)
Theorem moveGroup_permutes (s : Service) (source target : Instance) :
  NoDup (groupRef <$> groups s) →
  let s' := moveGroup source target s in
  groups s' ≡ₚ groups s ∧
  instances s' ≡ₚ instances s ∧
  activeGroupIndex s' = activeGroupIndex s ∧
  (getGroupForInstance source s = getGroupForInstance target s →
   groups s' = groups s).
Proof.
  intros Hnd s'.
  assert (groups s' ≡ₚ groups s ∧
          (getGroupForInstance source s = getGroupForInstance target s →
           groups s' = groups s)) as [Hperm Hsame].
  { subst s'. unfold moveGroup.
    destruct (getGroupForInstance source s) as [sg|] eqn:Hs; [|done].
    destruct (getGroupForInstance target s) as [tg|] eqn:Ht; [|done].
    apply getGroupForInstance_Some in Hs as (ns & Hns & _).
    apply getGroupForInstance_Some in Ht as (nt & Hnt & _).
    rewrite (indexOfGroup_NoDup _ _ _ Hnd Hns), (indexOfGroup_NoDup _ _ _ Hnd Hnt).
    pose proof (lookup_lt_Some _ _ _ Hns) as Hlts.
    pose proof (lookup_lt_Some _ _ _ Hnt) as Hltt.
    cbn [groups fire set_groups].
    rewrite splice_delete by done.
    assert (length (delete ns (groups s)) = (length (groups s) - 1)%nat) as Hlen.
    { apply length_delete. by apply lookup_lt_is_Some. }
    rewrite splice_insert by lia. split.
    - rewrite <- Permutation_middle, take_drop.
      symmetry. by apply delete_Permutation.
    - intros [= ->]. assert (nt = ns) as ->.
      { eapply NoDup_lookup; [exact Hnd | |]; rewrite list_lookup_fmap.
        - by rewrite Hnt.
        - by rewrite Hns. }
      rewrite delete_take_drop.
      assert (length (take ns (groups s)) = ns) as Htake by (apply length_take_le; lia).
      rewrite take_app_length' by done. rewrite drop_app_length' by done.
      by apply take_drop_middle. }
  split_and!; [done | | apply moveGroup_fields | done].
  rewrite !instances_concat. by rewrite Hperm.
Qed.

Lemma moveGroup_permutes_witness :
  groups (moveGroup 1%nat 4%nat threeGroupService) ≡ₚ groups threeGroupService ∧
  groups (moveGroup 4%nat 5%nat threeGroupService) = groups threeGroupService.
Proof.
  assert (NoDup (groupRef <$> groups threeGroupService)) as Hnd.
  { simpl. nodup_explicit. }
  split.
  - exact (proj1 (moveGroup_permutes threeGroupService 1%nat 4%nat Hnd)).
  - refine (proj2 (proj2 (proj2 (moveGroup_permutes threeGroupService 4%nat 5%nat Hnd))) _).
    reflexivity.
Defined.

(** ** [unsplitInstance] *)

Lemma createGroup_fields seed s :
  groups (snd (createGroup seed s)) = groups s ++ [newTerminalGroup (nextRef s) seed] ∧
  nextRef (snd (createGroup seed s)) = S (nextRef s) ∧
  fst (createGroup seed s) = nextRef s.
Proof.
  unfold createGroup. simpl. destruct (decide _); simpl;
    (split_and!; [done | done | by destruct seed]).
Qed.

Section UnsplitFacts.
Variable indexAfterRemove : list Instance → Z → Instance → Z.

(** A group that keeps an instance is not disposed. *)
Lemma removeInstanceOf_keeps s rx lx x :
  NoDup (layout (groups s)).*1 → (rx, lx) ∈ layout (groups s) →
  without x lx ≠ [] →
  removeInstanceOf indexAfterRemove rx x s
  = update_group rx (group_removeInstance indexAfterRemove x) s.
Proof.
  intros Hnd Hrx Hne. unfold removeInstanceOf.
  destruct (existsb _ _) eqn:Hex; [|done]. exfalso.
  apply existsb_exists in Hex as (g & Hg%list_elem_of_In & Hb).
  apply andb_true_iff in Hb as [Hb He].
  apply andb_true_iff in Hb as [Hr _].
  apply Nat.eqb_eq in Hr. apply bool_decide_eq_true in He.
  apply len_nil_inv in He.
  rewrite terminalInstances_group_removeInstance in He.
  assert ((rx, terminalInstances g) ∈ layout (groups s)) as Hin.
  { apply elem_of_layout. by exists g. }
  by rewrite (NoDup_fst_functional _ _ _ _ Hnd Hin Hrx) in He.
Qed.

Lemma instanceIsSplit_true x s :
  instanceIsSplit x s = true ↔
  ∃ g, getGroupForInstance x s = Some g ∧ len (terminalInstances g) > 1.
Proof.
  unfold instanceIsSplit. destruct (getGroupForInstance x s) as [g|].
  - rewrite bool_decide_eq_true. split; [by exists g | by intros (? & [= <-] & ?)].
  - split; [done | by intros (? & ? & _)].
Qed.

Example unsplit_first_of_three :
  let s := unsplitInstance (λ _ i _, i) 1%nat threeGroupService in
  layout (groups s) = [(0, [2]); (1, [3]); (2, [4; 5]); (3, [1])]%nat ∧
  unsplitInstance (λ _ i _, i) 3%nat threeGroupService = threeGroupService.
Proof. by split. Qed.

(** [unsplitInstance] changes nothing for an instance that is not split:
    one that is alone in its group, or in no group.  For a split instance
    of a well-formed service it takes the instance out of its group, which
    keeps its other instances, and appends a new group holding only that
    instance; the other groups are untouched, the service stays
    well-formed, the instances are the same as before, and the instance is
    no longer split. *)
Theorem unsplitInstance_splits (s : Service) (x : Instance) :
  let s' := unsplitInstance indexAfterRemove x s in
  (instanceIsSplit x s = false → s' = s) ∧
  (wellFormed (layout (groups s)) → refsAllocated s →
   ∀ g, getGroupForInstance x s = Some g → len (terminalInstances g) > 1 →
     layout (groups s') =
       layoutUpdate (groupRef g) (without x) (layout (groups s))
         ++ [(nextRef s, [x])] ∧
     wellFormed (layout (groups s')) ∧
     refsAllocated s' ∧
     (∀ y, y ∈ instances s' ↔ y ∈ instances s) ∧
     instanceIsSplit x s' = false).
Proof.
  intros s'. split.
  - intros Hns. subst s'. unfold unsplitInstance, instanceIsSplit in *.
    destruct (getGroupForInstance x s) as [g|]; [|done].
    apply bool_decide_eq_false in Hns. by rewrite decide_True by lia.
  - intros Hwf Hrefs g Hg Hlen.
    pose proof Hwf as (Hnd & Hnd_in & Hown).
    pose proof (getGroupForInstance_member _ _ _ Hg) as [Hgin Hgx].
    set (rx := groupRef g) in *. set (lx := terminalInstances g) in *.
    set (L := layout (groups s)) in *.
    pose proof (Hnd_in _ _ Hgin) as Hndx.
    assert (without x lx ≠ []) as Hne.
    { intros Hnil. apply (f_equal length) in Hnil.
      rewrite length_without in Hnil by done.
      unfold len, Instance in *. simpl in Hnil. lia. }
    assert (nextRef s ∉ L.*1) as Hfresh.
    { subst L. rewrite layout_fst. intros (h & Heq & Hh)%list_elem_of_fmap.
      specialize (Hrefs h Hh). lia. }
    set (L1 := layoutUpdate rx (without x) L).
    assert (s' = snd (createGroup (Some x)
                   (update_group rx (group_removeInstance indexAfterRemove x) s)))
      as Hs'.
    { subst s'. unfold unsplitInstance. rewrite Hg. fold rx lx.
      destruct (decide (len lx < 2)) as [Hlt|_]; [lia|].
      by rewrite (removeInstanceOf_keeps s rx lx x Hnd Hgin Hne). }
    clearbody s'. subst s'.
    assert (layout (groups (createGroup (Some x)
              (update_group rx (group_removeInstance indexAfterRemove x) s)).2)
            = L1 ++ [(nextRef s, [x])]) as Hlay.
    { destruct (createGroup_fields (Some x)
        (update_group rx (group_removeInstance indexAfterRemove x) s)) as (-> & _).
      unfold layout at 1. rewrite fmap_app. f_equal.
      apply (layout_update_group rx _ (without x) s).
      - apply groupRef_group_removeInstance.
      - apply terminalInstances_group_removeInstance. }
    assert (∀ r l, (r, l) ∈ L1 ↔
              ∃ l0, (r, l0) ∈ L ∧ l = if decide (r = rx) then without x l0 else l0)
      as Hchar1 by (intros r l; apply elem_of_layoutUpdate).
    assert (∀ r l, (r, l) ∈ L1 → (x ∉ l) ∧ (∃ l0, (r, l0) ∈ L ∧ ∀ y, y ∈ l → y ∈ l0))
      as Hsub.
    { intros r l (l0 & Hin & ->)%Hchar1. case_decide as Hr.
      - subst r. assert (l0 = lx) as -> by apply (NoDup_fst_functional _ _ _ _ Hnd Hin Hgin).
        split; [by intros [_ ?]%(elem_of_without _ _ _ Hndx)|].
        exists lx. split; [done|]. by intros y [? _]%(elem_of_without _ _ _ Hndx).
      - split; [|by exists l0].
        intros Hx. apply Hr. by apply (Hown r l0 rx lx x). }
    assert (wellFormed (layout (groups (createGroup (Some x)
              (update_group rx (group_removeInstance indexAfterRemove x) s)).2)))
      as Hwf'.
    { rewrite Hlay. split_and!.
      - rewrite fmap_app. simpl. apply NoDup_app. split_and!.
        + subst L1. by rewrite layoutUpdate_fst.
        + subst L1. rewrite layoutUpdate_fst.
          intros r Hr ->%list_elem_of_singleton. done.
        + apply NoDup_singleton.
      - intros r l [Hin|[= -> ->]%list_elem_of_singleton]%elem_of_app.
        + apply Hchar1 in Hin as (l0 & Hin & ->). case_decide.
          * apply NoDup_without. by apply (Hnd_in r).
          * by apply (Hnd_in r).
        + apply NoDup_singleton.
      - intros r1 l1 r2 l2 y
          [H1|[= -> ->]%list_elem_of_singleton]%elem_of_app
          [H2|[= -> ->]%list_elem_of_singleton]%elem_of_app Hy1 Hy2; [| | |done].
        + destruct (Hsub _ _ H1) as (_ & l01 & Hin1 & Hs1).
          destruct (Hsub _ _ H2) as (_ & l02 & Hin2 & Hs2).
          apply (Hown r1 l01 r2 l02 y); auto.
        + apply list_elem_of_singleton in Hy2 as ->.
          by destruct (Hsub _ _ H1) as (Hx & _).
        + apply list_elem_of_singleton in Hy1 as ->.
          by destruct (Hsub _ _ H2) as (Hx & _). }
    split_and!; [done | done | | |].
    + intros h Hh.
      destruct (createGroup_fields (Some x)
        (update_group rx (group_removeInstance indexAfterRemove x) s))
        as (Hgs & Hnr & _).
      rewrite Hgs in Hh. rewrite Hnr.
      change (nextRef (update_group rx (group_removeInstance indexAfterRemove x) s))
        with (nextRef s) in *.
      apply elem_of_app in Hh as [Hh| ->%list_elem_of_singleton]; [|simpl; lia].
      unfold update_group in Hh. simpl in Hh.
      apply list_elem_of_fmap in Hh as (h0 & -> & Hh0).
      specialize (Hrefs h0 Hh0).
      destruct (Nat.eqb _ _); [rewrite groupRef_group_removeInstance|]; lia.
    + intros y. rewrite !elem_of_instances. fold L. rewrite Hlay. split.
      * intros (r & l & [Hin|[= -> ->]%list_elem_of_singleton]%elem_of_app & Hy).
        -- destruct (Hsub _ _ Hin) as (_ & l0 & Hin0 & Hs0). exists r, l0. auto.
        -- apply list_elem_of_singleton in Hy as ->. by exists rx, lx.
      * intros (r & l0 & Hin & Hy). destruct (decide (y = x)) as [->|Hyx].
        { exists (nextRef s), [x]. split; [|by apply list_elem_of_singleton].
          apply elem_of_app. right. by apply list_elem_of_singleton. }
        exists r, (if decide (r = rx) then without x l0 else l0). split.
        -- apply elem_of_app. left. apply Hchar1. by exists l0.
        -- case_decide as Hr; [|done]. subst r.
           assert (l0 = lx) as -> by apply (NoDup_fst_functional _ _ _ _ Hnd Hin Hgin).
           by apply elem_of_without.
    + destruct (getGroupForInstance_owner x _ (nextRef s) [x] Hwf')
        as (g' & Hg' & _ & Hl').
      { rewrite Hlay. apply elem_of_app. right. by apply list_elem_of_singleton. }
      { by apply list_elem_of_singleton. }
      unfold instanceIsSplit. rewrite Hg', Hl'. done.
Qed.
End UnsplitFacts.

Lemma refsAllocated_threeGroupService : refsAllocated threeGroupService.
Proof.
  intros g. unfold threeGroupService. simpl. rewrite !elem_of_cons, elem_of_nil.
  intros [->|[->|[->|[]]]]; simpl; lia.
Qed.

Lemma unsplitInstance_splits_witness :
  instanceIsSplit 1%nat (unsplitInstance (λ _ i _, i) 1%nat threeGroupService) = false ∧
  unsplitInstance (λ _ i _, i) 3%nat threeGroupService = threeGroupService.
Proof.
  destruct (unsplitInstance_splits (λ _ i _, i) threeGroupService 1%nat) as (_ & H1).
  destruct (unsplitInstance_splits (λ _ i _, i) threeGroupService 3%nat) as (H3 & _).
  split.
  - refine (proj2 (proj2 (proj2 (proj2
      (H1 wellFormed_threeGroupService refsAllocated_threeGroupService
          (mkGroup 0 [1; 2]%nat 0 true) eq_refl _))))).
    reflexivity.
  - apply H3. reflexivity.
Defined.

(** ** The exit event of the utility process over a run of deliveries *)

Module UtilityProcessRunFacts.
Import UtilityProcess UtilityProcessRun.

Lemma deliver_no_exit serviceName d s :
  ¬ exitDelivery serviceName d →
  onExit (deliver serviceName d s) = onExit s ∧
  didExit (deliver serviceName d s) = didExit s ∧
  process (deliver serviceName d s) = process s ∧
  processPid (deliver serviceName d s)
  = if isSpawn d then process s ≫= pid else processPid s.
Proof.
  destruct d as [|code|details|]; simpl; try done.
  intros Hm. unfold onChildProcessGone.
  destruct (matches serviceName details); [by destruct Hm | done].
Qed.

Lemma delivers_no_exit serviceName ds s :
  Forall (λ d, ¬ exitDelivery serviceName d) ds →
  onExit (delivers serviceName ds s) = onExit s ∧
  didExit (delivers serviceName ds s) = didExit s ∧
  process (delivers serviceName ds s) = process s ∧
  processPid (delivers serviceName ds s) = pidAfter ds s.
Proof.
  unfold delivers, pidAfter. revert s.
  induction ds as [|d ds IH]; intros s Hds; simpl; [done|].
  apply Forall_cons in Hds as [Hd Hds].
  destruct (deliver_no_exit serviceName d s Hd) as (Ho & He & Hp & Hpid).
  destruct (IH (deliver serviceName d s) Hds) as (Ho' & He' & Hp' & Hpid').
  rewrite Ho', He', Hp', Hpid', Ho, He, Hp, Hpid.
  split_and!; try done.
  destruct (existsb isSpawn ds); [by rewrite orb_true_r|].
  rewrite orb_false_r. done.
Qed.

Lemma delivers_exited serviceName ds s :
  didExit s = true →
  onExit (delivers serviceName ds s) = onExit s ∧
  didExit (delivers serviceName ds s) = true.
Proof.
  unfold delivers. revert s.
  induction ds as [|d ds IH]; intros s Hs; simpl; [done|].
  assert (onExit (deliver serviceName d s) = onExit s ∧
          didExit (deliver serviceName d s) = true) as [Ho He].
  { destruct d as [|code|details|]; simpl; try done.
    - unfold onProcessExit.
      by rewrite UtilityProcessFacts.handleDidExit_exited.
    - unfold onChildProcessGone. destruct (matches _ _); [|done].
      by rewrite UtilityProcessFacts.handleDidExit_exited. }
  destruct (IH _ He) as [-> ->]. by rewrite Ho.
Qed.

Example exit_before_spawn :
  let s := mkState (Some (mkElectronProcess (Some 42) 0)) None false [] [] in
  onExit (delivers "shared-1" [Exit 3; Spawn; Exit 4] s) = [mkExitEvent None 3] ∧
  onExit (delivers "shared-1" [Spawn; Exit 3; Exit 4] s) = [mkExitEvent (Some 42) 3].
Proof. by split. Qed.

(** Over any run of the ['spawn'], ['exit'] and ['child-process-gone']
    listeners, [_onExit] fires at most once.  While no exit or matching
    child-process-gone delivery arrives, nothing is fired and the process
    counts as running.  The first such delivery to a running process fires
    one event, with the code of that delivery and the pid recorded by then:
    the pid of the process if ['spawn'] was delivered before, the earlier
    value of [processPid] otherwise.  Whatever is delivered afterwards
    fires nothing; a process that has already exited never fires again.
    The listeners never call [kill()]. *)
Theorem exit_fires_at_most_once (serviceName : string) (s : State) :
  (∀ ds, Forall (λ d, ¬ exitDelivery serviceName d) ds →
     onExit (delivers serviceName ds s) = onExit s ∧
     didExit (delivers serviceName ds s) = didExit s) ∧
  (didExit s = false →
   ∀ pre d post,
     Forall (λ d, ¬ exitDelivery serviceName d) pre → exitDelivery serviceName d →
     let s' := delivers serviceName (pre ++ d :: post) s in
     onExit s' = onExit s ++ [mkExitEvent (pidAfter pre s) (exitCode d)] ∧
     didExit s' = true) ∧
  (didExit s = true →
   ∀ ds, onExit (delivers serviceName ds s) = onExit s ∧
         didExit (delivers serviceName ds s) = true) ∧
  (∀ ds, kills (delivers serviceName ds s) = kills s ∧
         process (delivers serviceName ds s) = process s).
Proof.
  split_and!.
  - intros ds Hds.
    by destruct (delivers_no_exit serviceName ds s Hds) as (? & ? & _).
  - intros Hrun pre d post Hpre Hd s'. subst s'.
    destruct (delivers_no_exit serviceName pre s Hpre) as (Ho & He & _ & Hpid).
    unfold delivers in *. rewrite foldl_app. simpl.
    set (s1 := foldl _ s pre) in *.
    destruct (UtilityProcessFacts.exitDelivery_fires serviceName d s1 Hd)
      as [He1 Ho1]; [congruence|].
    destruct (delivers_exited serviceName post _ He1) as [Ho2 He2].
    unfold delivers in *. rewrite Ho2, He2, Ho1, Ho, Hpid. done.
  - intros Hs ds. by apply delivers_exited.
  - intros ds. unfold delivers. split.
    + apply UtilityProcessFacts.kills_delivers.
    + revert s. induction ds as [|d ds IH]; intros s; simpl; [done|].
      by rewrite IH, UtilityProcessFacts.process_deliver.
Qed.

Lemma exit_fires_at_most_once_witness :
  let s := mkState (Some (mkElectronProcess (Some 42) 0)) None false [] [] in
  let gone := mkDetails Utility "shared-1" 9 in
  onExit (delivers "shared-1" [Spawn; TimerElapsed; ChildProcessGone gone; Exit 3] s)
  = [mkExitEvent (Some 42) 9] ∧
  onExit (delivers "shared-1" [Spawn; TimerElapsed] s) = [] ∧
  onExit (delivers "shared-1" [Exit 3] (handleDidExit 0 s)) = [mkExitEvent None 0].
Proof.
  intros s gone.
  destruct (exit_fires_at_most_once "shared-1" s) as (Hnone & Hfirst & _).
  destruct (exit_fires_at_most_once "shared-1" (handleDidExit 0 s)) as (_ & _ & Hlate & _).
  split_and!.
  - refine (proj1 (Hfirst eq_refl [Spawn; TimerElapsed] (ChildProcessGone gone)
                     [Exit 3] _ eq_refl)).
    repeat constructor; simpl; tauto.
  - refine (proj1 (Hnone [Spawn; TimerElapsed] _)).
    repeat constructor; simpl; tauto.
  - exact (proj1 (Hlate eq_refl [Exit 3])).
Defined.

End UtilityProcessRunFacts.

(** ** [joinInstances] on any list of distinct instances *)

Lemma withoutAll_nil xs : withoutAll xs [] = [].
Proof. induction xs as [|x xs IH]; [done|]. simpl. by rewrite without_absent by apply not_elem_of_nil. Qed.

Lemma withoutAll_cons x xs l : withoutAll (x :: xs) l = withoutAll xs (without x l).
Proof. done. Qed.

Lemma others_None l : others None l = l.
Proof.
  unfold others. induction l as [|x l IH]; [done|].
  rewrite filter_cons_True by done. by rewrite IH.
Qed.

Lemma same_instance_Some x ci : same_instance (Some x) ci = true ↔ Some x = ci.
Proof.
  destruct ci as [y|]; simpl; [|done]. rewrite Nat.eqb_eq.
  split; [by intros -> | by intros [= ->]].
Qed.

Lemma findCandidate_Some l s ci g :
  findCandidate l s = Some (ci, g) →
  ci ∈ l ∧ getGroupForInstance ci s = Some g ∧ len (terminalInstances g) = 1.
Proof.
  induction l as [|x l IH]; simpl; [done|].
  destruct (getGroupForInstance x s) as [gx|] eqn:Hx.
  - case_decide as Hlen.
    + intros [= -> ->]. split_and!; [by left | done | done].
    + intros (? & ? & ?)%IH. split_and!; [by right | done | done].
  - intros (? & ? & ?)%IH. split_and!; [by right | done | done].
Qed.

Lemma others_all c l : (∀ x, x ∈ l → Some x ≠ c) → others c l = l.
Proof.
  unfold others. induction l as [|x l IH]; intros H; [done|].
  rewrite filter_cons_True by (apply H; by left).
  rewrite IH; [done|]. intros y Hy. apply H. by right.
Qed.

Lemma others_split pre ci post :
  NoDup (pre ++ ci :: post) → others (Some ci) (pre ++ ci :: post) = pre ++ post.
Proof.
  intros (_ & Hdis & [Hci _]%NoDup_cons)%NoDup_app.
  assert (others (Some ci) pre = pre) as Hpre.
  { apply others_all. intros x Hx [= ->]. apply (Hdis ci Hx). by left. }
  assert (others (Some ci) post = post) as Hpost.
  { apply others_all. intros x Hx [= ->]. done. }
  unfold others in *. rewrite filter_app, filter_cons_False by (by intros H).
  by rewrite Hpre, Hpost.
Qed.

Lemma last_delete_other (K : list nat) (n : nat) rb rx :
  last K = Some rb → K !! n = Some rx → rx ≠ rb → last (delete n K) = Some rb.
Proof.
  intros [K0 ->]%last_Some Hn Hne.
  assert (n < length K0)%nat as Hlt.
  { destruct (decide (n < length K0)%nat) as [|Hge]; [done|]. exfalso.
    pose proof (lookup_lt_Some _ _ _ Hn) as Hlt.
    rewrite length_app in Hlt. simpl in Hlt.
    assert (n = length K0) as -> by lia.
    rewrite lookup_app_r, Nat.sub_diag in Hn by lia. simpl in Hn. congruence. }
  rewrite delete_take_drop, drop_app_le by lia.
  rewrite app_assoc. apply last_snoc.
Qed.

Section JoinLoopFacts.
Variable indexAfterRemove : list Instance → Z → Instance → Z.
Variable indexAfterAdd : list Instance → Z → Instance → Z.

(** A group other than the last leaves: the last group stays the last. *)
Lemma last_removeInstanceOf s rx x rb :
  last (layout (groups s)).*1 = Some rb → rx ≠ rb →
  last (layout (groups (removeInstanceOf indexAfterRemove rx x s))).*1 = Some rb.
Proof.
  intros Hlast Hne. unfold removeInstanceOf.
  set (s1 := update_group rx (group_removeInstance indexAfterRemove x) s).
  assert ((layout (groups s1)).*1 = (layout (groups s)).*1) as Hfst.
  { subst s1. rewrite (layout_update_group rx _ (without x) s).
    - apply layoutUpdate_fst.
    - apply groupRef_group_removeInstance.
    - apply terminalInstances_group_removeInstance. }
  destruct (existsb _ _); [|by rewrite Hfst].
  rewrite layout__removeGroup. cbn [groups fire].
  destruct (decide (indexOfGroup rx (groups s1) ≠ -1)) as [Hidx|_];
    [|by rewrite Hfst].
  unfold indexOfGroup in *.
  pose proof (findIndex_range (λ g, Nat.eqb (groupRef g) rx) (groups s1)) as [Hr|Hr];
    [done|].
  destruct (findIndex_Some _ _ _ (proj1 Hr) eq_refl) as (g & Hg & Hp & _).
  apply at_Some in Hg as [_ Hg]. apply Nat.eqb_eq in Hp.
  remember (findIndex (λ g, Nat.eqb (groupRef g) rx) (groups s1)) as idx eqn:Hi.
  clear Hi. replace idx with (Z.of_nat (Z.to_nat idx)) by lia.
  rewrite splice_delete by (by eapply lookup_lt_Some).
  unfold layout at 1. rewrite !list_fmap_delete.
  apply (last_delete_other _ _ rb rx); [by rewrite <- Hfst in Hlast | | done].
  fold (layout (groups s1)). rewrite layout_fst, list_lookup_fmap, Hg. simpl.
  by rewrite Hp.
Qed.

(** The second loop of [joinInstances]: the instances of [l], but for
    the candidate, leave their groups in turn and are appended to the
    destination [rb]; a group that loses its last instance leaves
    [groups]. *)
Lemma joinLoop_gathers l : ∀ s ci rb lb,
  wellFormed (layout (groups s)) → (rb, lb) ∈ layout (groups s) → NoDup l →
  (∀ x, ci = Some x → x ∈ lb) →
  (∀ x, x ∈ l → Some x ≠ ci → (x ∉ lb) ∧ x ∈ instances s) →
  let s' := joinLoop indexAfterRemove indexAfterAdd ci rb l s in
  wellFormed (layout (groups s')) ∧ nextRef s' = nextRef s ∧
  (∀ r l', (r, l') ∈ layout (groups s') ↔
          (r = rb ∧ l' = lb ++ others ci l) ∨
          (r ≠ rb ∧ ∃ l0, (r, l0) ∈ layout (groups s) ∧
                          l' = withoutAll l l0 ∧ (l0 ≠ [] → l' ≠ []))) ∧
  (last (layout (groups s)).*1 = Some rb →
   last (layout (groups s')).*1 = Some rb).
Proof.
  induction l as [|x rest IH]; intros s ci rb lb Hwf Hrb Hndl Hci Hl; cbn [joinLoop].
  - split_and!; [done | done | | done]. intros r l'.
    unfold others. rewrite filter_nil, app_nil_r.
    destruct Hwf as (Hnd & _). split.
    + intros Hin. destruct (decide (r = rb)) as [->|Hne].
      * left. split; [done|]. apply (NoDup_fst_functional _ _ _ _ Hnd Hin Hrb).
      * right. split; [done|]. by exists l'.
    + intros [[-> ->]|(_ & l0 & Hin & -> & _)]; done.
  - pose proof Hwf as (Hnd & Hnd_in & Hown).
    apply NoDup_cons in Hndl as [Hxrest Hndrest].
    destruct (same_instance (Some x) ci) eqn:Hsame.
    + (* the candidate is skipped *)
      apply same_instance_Some in Hsame.
      assert (x ∈ lb) as Hxb by (by apply Hci).
      destruct (IH s ci rb lb Hwf Hrb Hndrest Hci) as (Hwf' & Hnext' & Hchar' & Hlast').
      { intros y Hy. apply Hl. by right. }
      split_and!; [done | done | | done]. intros r l'. rewrite Hchar'.
      assert (others ci (x :: rest) = others ci rest) as ->.
      { unfold others. by rewrite filter_cons_False by (by intros ?). }
      split; (intros [?|(Hr & l0 & Hin & -> & Hne)]; [by left|]); right;
        (split; [done|]); exists l0; (split; [done|]);
        rewrite withoutAll_cons in *;
        rewrite without_absent in *; try done;
        intros Hx0; apply Hr; apply (Hown r l0 rb lb x); done.
    + (* any other instance moves *)
      assert (Some x ≠ ci) as Hne.
      { intros Heq%same_instance_Some. congruence. }
      destruct (Hl x) as [Hxb (rx & lx & Hrx & Hx)%elem_of_instances];
        [by left | done |].
      assert (rx ≠ rb) as Hrxb.
      { intros ->. by rewrite (NoDup_fst_functional _ _ _ _ Hnd Hrx Hrb) in Hx. }
      destruct (getGroupForInstance_owner x s rx lx Hwf Hrx Hx) as (g & -> & Hg & _).
      rewrite Hg.
      destruct (layout_move indexAfterRemove indexAfterAdd s rx lx rb lb x
                  Hwf Hrx Hx Hrb Hrxb) as (Hwf1 & _ & Hnext1 & Hchar1).
      set (s1 := addInstanceTo indexAfterAdd rb x
                   (removeInstanceOf indexAfterRemove rx x s)) in *.
      pose proof (Hnd_in _ _ Hrx) as Hndx.
      assert (last (layout (groups s)).*1 = Some rb →
              last (layout (groups s1)).*1 = Some rb) as Hlast1.
      { intros Hlast. subst s1. rewrite layout_addInstanceTo, layoutUpdate_fst.
        by apply last_removeInstanceOf. }
      destruct (IH s1 ci rb (lb ++ [x]) Hwf1) as (Hwf' & Hnext' & Hchar' & Hlast').
      { apply Hchar1. by left. }
      { done. }
      { intros y Hy%Hci. apply elem_of_app. by left. }
      { intros y Hy Hyc. destruct (Hl y) as [Hyb Hyin]; [by right | done |].
        assert (y ≠ x) as Hyx by (by intros ->).
        split.
        - intros [?| ->%list_elem_of_singleton]%elem_of_app; done.
        - apply elem_of_instances in Hyin as (ry & ly & Hry & Hyl).
          apply elem_of_instances.
          assert (ry ≠ rb) as Hryb.
          { intros ->. by rewrite (NoDup_fst_functional _ _ _ _ Hnd Hry Hrb) in Hyl. }
          destruct (decide (ry = rx)) as [->|Hryx].
          + rewrite (NoDup_fst_functional _ _ _ _ Hnd Hry Hrx) in Hyl.
            assert (y ∈ without x lx) as Hyw by (by apply elem_of_without).
            exists rx, (without x lx). split; [|done].
            apply Hchar1. right; left. split_and!; [done..|].
            intros Hnil. rewrite Hnil in Hyw. by apply elem_of_nil in Hyw.
          + exists ry, ly. split; [|done]. apply Hchar1. by right; right. }
      split_and!; [done | by rewrite Hnext' | | by intros ?; apply Hlast', Hlast1].
      intros r l'. rewrite Hchar'.
      assert (others ci (x :: rest) = x :: others ci rest) as ->.
      { unfold others. by rewrite filter_cons_True. }
      rewrite <- app_assoc. cbn [app].
      split; (intros [?|(Hr & l1 & Hin & -> & Hnil)]; [by left|]); right;
        (split; [done|]).
      * apply Hchar1 in Hin as [[? _]|[(-> & -> & Hne1)|(_ & Hrne & Hin)]]; [done| |].
        -- exists lx. split_and!; [done..|]. intros _. by apply Hnil.
        -- exists l1. rewrite withoutAll_cons. rewrite without_absent; [done|].
           intros Hx1. apply Hrne. by apply (Hown r l1 rx lx x).
      * rewrite withoutAll_cons in *. destruct (decide (r = rx)) as [->|Hrne].
        -- rewrite (NoDup_fst_functional _ _ _ _ Hnd Hin Hrx) in *.
           assert (without x lx ≠ []) as Hne1.
           { intros Hw. rewrite Hw, withoutAll_nil in Hnil. apply Hnil; [|done].
             intros ->. by apply elem_of_nil in Hx. }
           exists (without x lx). split_and!; [|done|].
           ++ apply Hchar1. right; left. done.
           ++ intros _. apply Hnil. intros ->. by apply elem_of_nil in Hx.
        -- assert (x ∉ l1) as Hx1.
           { intros Hx1. apply Hrne. by apply (Hown r l1 rx lx x). }
           rewrite without_absent in * by done.
           exists l1. split_and!; [|done..]. apply Hchar1. by right; right.
Qed.

(** What follows the second loop: the first instance of [l] is in the
    destination and becomes the active instance. *)
Lemma join_activates l first s ci rb lb :
  wellFormed (layout (groups s)) → (rb, lb) ∈ layout (groups s) → NoDup l →
  (∀ x, ci = Some x → x ∈ lb) →
  (∀ x, x ∈ l → Some x ≠ ci → (x ∉ lb) ∧ x ∈ instances s) →
  head l = Some first →
  let s2 := joinLoop indexAfterRemove indexAfterAdd ci rb l s in
  ∃ s3, setActiveInstance (head l) s2 = (s3, Normal) ∧
        activeInstance s3 = Some first ∧
        layout (groups s3) = layout (groups s2) ∧ nextRef s3 = nextRef s.
Proof.
  intros Hwf Hrb Hndl Hci Hl Hhead s2.
  destruct (joinLoop_gathers l s ci rb lb Hwf Hrb Hndl Hci Hl) as (_ & Hnext & Hchar & _).
  fold s2 in Hnext, Hchar.
  assert (first ∈ l) as Hfirst.
  { destruct l as [|? ?]; [done|]. injection Hhead as ->. by left. }
  destruct (setActiveInstance_member first s2) as (s3 & Hset & Hact & Hlay & Hn).
  { apply elem_of_instances. exists rb, (lb ++ others ci l). split.
    - apply Hchar. by left.
    - apply elem_of_app. destruct (decide (Some first = ci)) as [Heq|Hne].
      + left. by apply Hci.
      + right. unfold others. by apply list_elem_of_filter. }
  exists s3. rewrite Hhead. split_and!; [done..|]. by rewrite Hn.
Qed.

(** [joinInstances] in terms of what its first loop finds. *)
Lemma joinInstances_from_candidate (s : Service) (l : list Instance) (first : Instance) :
  wellFormed (layout (groups s)) → refsAllocated s →
  NoDup l → head l = Some first → (∀ x, x ∈ l → x ∈ instances s) →
  let dest :=
    match findCandidate l s with
    | Some (ci, g) => (groupRef g, ci :: others (Some ci) l)
    | None => (nextRef s, l)
    end in
  ∃ s',
    joinInstances indexAfterRemove indexAfterAdd l s = (s', Normal) ∧
    wellFormed (layout (groups s')) ∧
    (∀ r l', (r, l') ∈ layout (groups s') ↔
             (r, l') = dest ∨
             (r ≠ dest.1 ∧ ∃ l0, (r, l0) ∈ layout (groups s) ∧
                              l' = withoutAll l l0 ∧ (l0 ≠ [] → l' ≠ []))) ∧
    (∀ x, x ∈ l → x ∈ dest.2) ∧
    activeInstance s' = Some first ∧
    nextRef s' = match findCandidate l s with
                 | Some _ => nextRef s
                 | None => S (nextRef s)
                 end ∧
    (findCandidate l s = None → last (layout (groups s')) = Some dest).
Proof.
  intros Hwf Hrefs Hndl Hhead Hl dest.
  pose proof Hwf as (Hnd & Hnd_in & Hown).
  unfold joinInstances. subst dest.
  destruct (findCandidate l s) as [[i g]|] eqn:Hfc.
  - (* a candidate exists *)
    apply findCandidate_Some in Hfc as (Hil & Hg & Hlen).
    pose proof (getGroupForInstance_member _ _ _ Hg) as [Hgin Hgx].
    pose proof (sole_instance _ _ Hgx Hlen) as Hsole. rewrite Hsole in Hgin.
    set (rb := groupRef g) in *.
    set (was := match activeGroup s with
                | Some g => Nat.eqb (groupRef g) rb | None => false end).
    clearbody was.
    assert (∀ x, Some i = Some x → x ∈ [i]) as Hci.
    { intros x [= ->]. by left. }
    assert (∀ x, x ∈ l → Some x ≠ Some i → (x ∉ [i]) ∧ x ∈ instances s) as Hl'.
    { intros x Hx Hne. split; [|by apply Hl].
      intros ->%list_elem_of_singleton. done. }
    destruct (joinLoop_gathers l s (Some i) rb [i] Hwf Hgin Hndl Hci Hl')
      as (Hwf2 & Hnext2 & Hchar2 & _).
    destruct (join_activates l first s (Some i) rb [i] Hwf Hgin Hndl Hci Hl' Hhead)
      as (s3 & Hset & Hact & Hlay3 & Hnext3).
    cbv zeta in Hset, Hlay3. rewrite Hset.
    destruct (activeInstance_join_events was s3) as (Hact5 & Hg5 & Hnext5).
    eexists. split; [done|].
    rewrite Hg5, Hlay3, Hact5, Hnext5, Hnext3. cbn [fst snd].
    split_and!; [done| | |done|done|done].
    + intros r l'. rewrite Hchar2. split.
      * intros [[-> ->]|?]; [by left | by right].
      * intros [[= -> ->]|?]; [by left | by right].
    + intros x Hx. destruct (decide (x = i)) as [->|Hne]; [by left|].
      right. unfold others. apply list_elem_of_filter. split; [congruence | done].
  - (* no candidate: a group is created *)
    destruct (createGroup_fields None s) as (Hgs & Hnr & Hfst).
    destruct (createGroup None s) as [r s1]. cbn [fst snd] in Hgs, Hnr, Hfst. subst r.
    set (rb := nextRef s) in *.
    set (was := match activeGroup s1 with
                | Some g => Nat.eqb (groupRef g) rb | None => false end).
    clearbody was.
    assert (layout (groups s1) = layout (groups s) ++ [(rb, [])]) as Hlay.
    { rewrite Hgs. unfold layout. by rewrite fmap_app. }
    assert (rb ∉ (layout (groups s)).*1) as Hfresh.
    { rewrite layout_fst. intros (h & Heq & Hh)%list_elem_of_fmap.
      specialize (Hrefs h Hh). subst rb. lia. }
    assert (wellFormed (layout (groups s1))) as Hwf1.
    { rewrite Hlay. split_and!.
      - rewrite fmap_app. apply NoDup_app. split_and!; [done| |apply NoDup_singleton].
        intros r Hr ->%list_elem_of_singleton. done.
      - intros r l0 [Hin|[= -> ->]%list_elem_of_singleton]%elem_of_app.
        + by apply (Hnd_in r).
        + apply NoDup_nil_2.
      - intros r1 l1 r2 l2 y
          [H1|[= -> ->]%list_elem_of_singleton]%elem_of_app
          [H2|[= -> ->]%list_elem_of_singleton]%elem_of_app Hy1 Hy2;
          try (by apply elem_of_nil in Hy1); try (by apply elem_of_nil in Hy2).
        by apply (Hown r1 l1 r2 l2 y). }
    assert ((rb, []) ∈ layout (groups s1)) as Hrb.
    { rewrite Hlay. apply elem_of_app. right. by apply list_elem_of_singleton. }
    assert (∀ x : Instance, @None Instance = Some x → x ∈ @nil Instance) as Hci by done.
    assert (∀ x, x ∈ l → Some x ≠ None → (x ∉ @nil Instance) ∧ x ∈ instances s1) as Hl'.
    { intros x Hx _. split; [apply not_elem_of_nil|].
      apply Hl, elem_of_instances in Hx as (rx & lx & Hrx & Hx).
      apply elem_of_instances. exists rx, lx. rewrite Hlay.
      split; [|done]. apply elem_of_app. by left. }
    destruct (joinLoop_gathers l s1 None rb [] Hwf1 Hrb Hndl Hci Hl')
      as (Hwf2 & Hnext2 & Hchar2 & Hlast2).
    destruct (join_activates l first s1 None rb [] Hwf1 Hrb Hndl Hci Hl' Hhead)
      as (s3 & Hset & Hact & Hlay3 & Hnext3).
    cbv zeta in Hset, Hlay3. rewrite Hset.
    destruct (activeInstance_join_events was s3) as (Hact5 & Hg5 & Hnext5).
    eexists. split; [done|].
    rewrite Hg5, Hlay3, Hact5, Hnext5, Hnext3. cbn [fst snd].
    split_and!; [done| |done|done|done|].
    + intros r l'. rewrite Hchar2, others_None. cbn [app].
      split.
      * intros [[-> ->]|(Hr & l0 & Hin & Heq & Hne)]; [by left|]. right.
        split; [done|]. exists l0. split_and!; [|done..].
        rewrite Hlay in Hin.
        apply elem_of_app in Hin as [?|[= -> ->]%list_elem_of_singleton]; done.
      * intros [[= -> ->]|(Hr & l0 & Hin & Heq & Hne)]; [by left|]. right.
        split; [done|]. exists l0. split_and!; [|done..].
        rewrite Hlay. apply elem_of_app. by left.
    + intros _.
      assert (last (layout (groups s1)).*1 = Some rb) as Hlast1.
      { rewrite Hlay, fmap_app. apply last_snoc. }
      apply Hlast2 in Hlast1. rewrite fmap_last in Hlast1.
      destruct (last (layout (groups (joinLoop indexAfterRemove indexAfterAdd
                                        None rb l s1)))) as [[r l']|] eqn:Hl2;
        [|done].
      simpl in Hlast1. injection Hlast1 as ->.
      apply last_Some_elem_of, Hchar2 in Hl2 as [[_ ->]|[? _]]; [|done].
      by rewrite others_None.
Qed.

(** [joinInstances] on a non-empty list [l] of distinct instances of a
    well-formed service completes, and gathers them in one group, the
    destination.  If some instance of [l] is alone in its group, the
    destination is the group of the first such instance of [l], the
    candidate, and no group is created; afterwards it holds the candidate
    followed by the other instances of [l] in the order of [l].  If no
    instance of [l] is alone in its group, the destination is a new group,
    which is the last of [groups] afterwards and holds the instances of [l]
    in the order of [l].  In both cases every other group has lost its
    instances that are in [l], and has left [groups] if it had instances
    and none is left; nothing else changed in the layout, which is still
    well-formed; and the first instance of [l] is the active instance. *)
Theorem joinInstances_gathers (s : Service) (l : list Instance) (first : Instance) :
  wellFormed (layout (groups s)) → refsAllocated s →
  NoDup l → head l = Some first → (∀ x, x ∈ l → x ∈ instances s) →
  ∃ s' dest,
    joinInstances indexAfterRemove indexAfterAdd l s = (s', Normal) ∧
    ((∃ pre ci post g,
        l = pre ++ ci :: post ∧
        (∀ y, y ∈ pre → ¬ aloneInGroup y s) ∧
        getGroupForInstance ci s = Some g ∧ terminalInstances g = [ci] ∧
        dest = (groupRef g, ci :: pre ++ post) ∧
        nextRef s' = nextRef s)
     ∨
     ((∀ y, y ∈ l → ¬ aloneInGroup y s) ∧
      dest = (nextRef s, l) ∧
      last (layout (groups s')) = Some dest ∧
      nextRef s' = S (nextRef s))) ∧
    wellFormed (layout (groups s')) ∧
    (∀ r l', (r, l') ∈ layout (groups s') ↔
             (r, l') = dest ∨
             (r ≠ dest.1 ∧ ∃ l0, (r, l0) ∈ layout (groups s) ∧
                              l' = withoutAll l l0 ∧ (l0 ≠ [] → l' ≠ []))) ∧
    (∀ x, x ∈ l → x ∈ dest.2) ∧
    activeInstance s' = Some first.
Proof.
  (* the first loop stops at the first instance of [l] that is alone in
     its group, and finds none only when no instance of [l] is *)
  assert (match findCandidate l s with
          | Some (ci, g) =>
            ∃ pre post, l = pre ++ ci :: post ∧
                        (∀ y, y ∈ pre → ¬ aloneInGroup y s) ∧
                        getGroupForInstance ci s = Some g ∧
                        len (terminalInstances g) = 1
          | None => ∀ y, y ∈ l → ¬ aloneInGroup y s
          end) as Hfirst.
  { clear first.
      induction l as [|x l IH]; simpl.
      { intros y Hy. by apply elem_of_nil in Hy. }
      assert (findCandidate l s = findCandidate l s) as Hrec by done.
      destruct (getGroupForInstance x s) as [gx|] eqn:Hx.
      - case_decide as Hlen.
        + exists [], l. split_and!; [done| |done|done].
          intros y Hy. by apply elem_of_nil in Hy.
        + assert (¬ aloneInGroup x s) as Hnx.
          { intros (g & Hg & Hl). congruence. }
          destruct (findCandidate l s) as [[ci g]|].
          * destruct IH as (pre & post & -> & Hpre & Hg & Hl).
            exists (x :: pre), post. split_and!; [done| |done|done].
            intros y [->|Hy]%elem_of_cons; [done | by apply Hpre].
          * intros y [->|Hy]%elem_of_cons; [done | by apply IH].
      - assert (¬ aloneInGroup x s) as Hnx.
        { intros (g & Hg & Hl). congruence. }
        destruct (findCandidate l s) as [[ci g]|].
        + destruct IH as (pre & post & -> & Hpre & Hg & Hl).
          exists (x :: pre), post. split_and!; [done| |done|done].
          intros y [->|Hy]%elem_of_cons; [done | by apply Hpre].
        + intros y [->|Hy]%elem_of_cons; [done | by apply IH].
  }
  intros Hwf Hrefs Hndl Hhead Hl.
  destruct (joinInstances_from_candidate s l first Hwf Hrefs Hndl Hhead Hl)
    as (s' & Hjoin & Hwf' & Hchar & Hall & Hact & Hnext & Hlast).
  destruct (findCandidate l s) as [[ci g]|].
  - destruct Hfirst as (pre & post & Heq & Hpre & Hg & Hlen).
    assert (terminalInstances g = [ci]) as Hsole.
    { apply sole_instance; [|done].
      by destruct (getGroupForInstance_member _ _ _ Hg) as [_ ?]. }
    assert (others (Some ci) l = pre ++ post) as Hothers.
    { rewrite Heq. apply others_split. by rewrite <- Heq. }
    rewrite Hothers in Hchar, Hall.
    exists s', (groupRef g, ci :: pre ++ post). split_and!; [done| |done..].
    left. by exists pre, ci, post, g.
  - exists s', (nextRef s, l). split_and!; [done| |done..].
    right. split_and!; [done | done | by apply Hlast | done].
Qed.

End JoinLoopFacts.

Example joinInstances_no_candidate :
  let r := joinInstances (λ _ i _, i) (λ _ i _, i) [4; 5]%nat threeGroupService in
  snd r = Normal ∧
  layout (groups (fst r)) = [(0, [1; 2]); (1, [3]); (3, [4; 5])]%nat ∧
  activeInstance (fst r) = Some 4%nat.
Proof. by split_and!. Qed.

Lemma wellFormed_fourGroupService : wellFormed (layout (groups fourGroupService)).
Proof.
  split_and!.
  - simpl. nodup_explicit.
  - intros r l. unfold fourGroupService, layout. simpl.
    rewrite !elem_of_cons, elem_of_nil.
    intros [[= -> ->]|[[= -> ->]|[[= -> ->]|[[= -> ->]|[]]]]]; nodup_explicit.
  - intros r1 l1 r2 l2 x. unfold fourGroupService, layout. simpl.
    rewrite !elem_of_cons, !elem_of_nil.
    intros [[= -> ->]|[[= -> ->]|[[= -> ->]|[[= -> ->]|[]]]]]
           [[= -> ->]|[[= -> ->]|[[= -> ->]|[[= -> ->]|[]]]]];
      rewrite ?elem_of_cons, ?elem_of_nil; intuition congruence.
Qed.

Lemma refsAllocated_fourGroupService : refsAllocated fourGroupService.
Proof.
  intros g. unfold fourGroupService. simpl. rewrite !elem_of_cons, elem_of_nil.
  intros [->|[->|[->|[->|[]]]]]; simpl; lia.
Qed.

Lemma aloneInGroup_three_of_four : aloneInGroup 3%nat fourGroupService.
Proof. exists (mkGroup 1 [3%nat] 0 false). by split. Qed.

Example joinInstances_first_candidate :
  let r := joinInstances (λ _ i _, i) (λ _ i _, i) [1; 3; 4]%nat fourGroupService in
  snd r = Normal ∧
  layout (groups (fst r)) = [(0, [2]); (1, [3; 1; 4]); (3, [5; 6])]%nat ∧
  activeInstance (fst r) = Some 1%nat.
Proof. by split_and!. Qed.

Lemma joinInstances_gathers_witness :
  (∃ s', joinInstances (λ _ i _, i) (λ _ i _, i) [1; 3; 4]%nat fourGroupService
         = (s', Normal) ∧
         (1%nat, [3; 1; 4]%nat) ∈ layout (groups s') ∧
         nextRef s' = 4%nat ∧
         activeInstance s' = Some 1%nat) ∧
  (∃ s', joinInstances (λ _ i _, i) (λ _ i _, i) [1; 4]%nat threeGroupService
         = (s', Normal) ∧
         last (layout (groups s')) = Some (3%nat, [1; 4]%nat) ∧
         activeInstance s' = Some 1%nat).
Proof.
  split.
  - destruct (joinInstances_gathers (λ _ i _, i) (λ _ i _, i) fourGroupService
                [1; 3; 4]%nat 1%nat wellFormed_fourGroupService
                refsAllocated_fourGroupService)
      as (s' & dest & Hjoin & Hcase & _ & Hchar & _ & Hact).
    + nodup_explicit.
    + reflexivity.
    + intros x. change (instances fourGroupService) with [1; 2; 3; 4; 5; 6]%nat.
      rewrite !elem_of_cons, !elem_of_nil. tauto.
    + exists s'.
      destruct Hcase as [(pre & ci & post & g & Heq & Hpre & Hg & Hsole & Hdest & Hnext)
                        |(Hnone & _)].
      2:{ exfalso. apply (Hnone 3%nat); [|exact aloneInGroup_three_of_four].
          rewrite !elem_of_cons. tauto. }
      destruct pre as [|a [|b [|c pre]]]; simpl in Heq.
      * exfalso. injection Heq as <- <-. vm_compute in Hg.
        injection Hg as <-. discriminate Hsole.
      * injection Heq as <- <- <-. vm_compute in Hg. injection Hg as <-.
        simpl in Hdest. split_and!; [exact Hjoin | | exact Hnext | exact Hact].
        apply Hchar. left. by rewrite Hdest.
      * exfalso. injection Heq as <- <- <- <-.
        apply (Hpre 3%nat); [|exact aloneInGroup_three_of_four].
        rewrite !elem_of_cons. tauto.
      * exfalso. injection Heq as _ _ _ Heq. by destruct pre.
  - destruct (joinInstances_gathers (λ _ i _, i) (λ _ i _, i) threeGroupService
                [1; 4]%nat 1%nat wellFormed_threeGroupService
                refsAllocated_threeGroupService)
      as (s' & dest & Hjoin & Hcase & _ & _ & _ & Hact).
    + nodup_explicit.
    + reflexivity.
    + intros x. change (instances threeGroupService) with [1; 2; 3; 4; 5]%nat.
      rewrite !elem_of_cons, !elem_of_nil. tauto.
    + exists s'.
      destruct Hcase as [(pre & ci & post & g & Heq & _ & Hg & Hsole & _)
                        |(_ & Hdest & Hlast & _)].
      * exfalso. destruct pre as [|a [|b pre]]; simpl in Heq.
        -- injection Heq as <- <-. vm_compute in Hg.
           injection Hg as <-. discriminate Hsole.
        -- injection Heq as <- <- <-. vm_compute in Hg.
           injection Hg as <-. discriminate Hsole.
        -- injection Heq as _ _ Heq. by destruct pre.
      * split_and!; [exact Hjoin | by rewrite Hlast, Hdest | exact Hact].
Defined.

(** ** Instances, flat indices and owners *)

Lemma NoDup_concat_instances gs :
  wellFormed (layout gs) → NoDup (concat (terminalInstances <$> gs)).
Proof.
  induction gs as [|g gs IH]; intros (Hnd & Hnd_in & Hown); simpl.
  { apply NoDup_nil_2. }
  simpl in Hnd. apply NoDup_cons in Hnd as [Hg Hnd].
  apply NoDup_app. split_and!.
  - apply (Hnd_in (groupRef g)). by left.
  - intros x Hx Hx'. apply Hg.
    apply list_elem_of_In, in_concat in Hx' as (l & Hl%list_elem_of_In & Hxl%list_elem_of_In).
    apply list_elem_of_fmap in Hl as (h & -> & Hh).
    assert (groupRef g = groupRef h) as ->.
    { apply (Hown _ (terminalInstances g) _ (terminalInstances h) x);
        [by left | | done | done].
      right. apply elem_of_layout. by exists h. }
    rewrite layout_fst. apply list_elem_of_fmap. by exists h.
  - apply IH. split_and!; [done| |].
    + intros r l Hin. apply (Hnd_in r). by right.
    + intros r1 l1 r2 l2 x H1 H2. apply Hown; by right.
Qed.

Lemma NoDup_instances s : wellFormed (layout (groups s)) → NoDup (instances s).
Proof. rewrite instances_concat. apply NoDup_concat_instances. Qed.

Example index_of_shared_instance :
  let s := mkService [mkGroup 0 [7] 0 true; mkGroup 1 [7; 8] 0 false]%nat
                     0 0 (Some 2) 2 [] in
  at_ (instances s) 1 = Some 7%nat ∧ _getIndexFromId 7%nat s = inr 0.
Proof. by split. Qed.

(** In a well-formed service the instance at flat index [i] is found again
    at [i]: [_getIndexFromId] gives [i] for it, so [setActiveInstance] on it
    is [setActiveInstanceByIndex(i)], and [getGroupForInstance] gives the
    group that [_getInstanceLocation(i)] gives. *)
Theorem instance_index_round_trip (s : Service) (i : Z) (x : Instance) :
  wellFormed (layout (groups s)) → at_ (instances s) i = Some x →
  _getIndexFromId x s = inr i ∧
  setActiveInstance (Some x) s = (setActiveInstanceByIndex i s, Normal) ∧
  ∃ loc, _getInstanceLocation i s = Some loc ∧
         loc_instance loc = Some x ∧
         getGroupForInstance x s = Some (loc_group loc).
Proof.
  intros Hwf Hx.
  pose proof (NoDup_instances s Hwf) as Hndi.
  pose proof (at_lt _ _ _ Hx) as Hrange.
  apply at_Some in Hx as [Hi Hx].
  assert (findIndex (λ e, Nat.eqb e x) (instances s) = i) as Hfind.
  { rewrite (findIndex_first _ _ (Z.to_nat i) x); [lia | done | apply Nat.eqb_refl |].
    intros j y Hj Hy. apply Nat.eqb_neq. intros ->.
    assert (j = Z.to_nat i) by (by eapply NoDup_lookup). lia. }
  assert (_getIndexFromId x s = inr i) as Hidx.
  { unfold _getIndexFromId. rewrite Hfind. by rewrite decide_False by lia. }
  split_and!; [done | unfold setActiveInstance; by rewrite Hidx |].
  destruct (_getInstanceLocation i s) as [loc|] eqn:Hloc.
  2:{ apply getInstanceLocation_None in Hloc.
      rewrite <- length_concat_instances, <- instances_concat in Hloc.
      unfold len, Instance in *. lia. }
  exists loc. split; [done|].
  destruct (getInstanceLocation_instance _ _ _ Hloc) as [Hinst _].
  assert (loc_instance loc = Some x) as Hlx.
  { rewrite Hinst. apply at_Some. done. }
  split; [done|].
  apply getInstanceLocation_Some in Hloc as (Hg & _ & Hli & _).
  rewrite Hlx in Hli. symmetry in Hli.
  apply at_Some in Hli as [_ Hli]. apply list_elem_of_lookup_2 in Hli.
  apply at_Some in Hg as [_ Hg].
  destruct (getGroupForInstance_owner x s (groupRef (loc_group loc))
              (terminalInstances (loc_group loc)) Hwf) as (g & Hgx & Href & _).
  { apply elem_of_layout. exists (loc_group loc).
    split; [by eapply list_elem_of_lookup_2 | done]. }
  { done. }
  rewrite Hgx. f_equal.
  apply getGroupForInstance_Some in Hgx as (n & Hn & _).
  destruct Hwf as (Hnd & _). rewrite layout_fst in Hnd.
  assert (n = Z.to_nat (loc_groupIndex loc)) as ->.
  { eapply NoDup_lookup; [exact Hnd | |]; rewrite list_lookup_fmap.
    - by rewrite Hn.
    - rewrite Hg. simpl. by rewrite Href. }
  congruence.
Qed.

Lemma instance_index_round_trip_witness :
  _getIndexFromId 4%nat threeGroupService = inr 3 ∧
  setActiveInstance (Some 4%nat) threeGroupService
  = (setActiveInstanceByIndex 3 threeGroupService, Normal).
Proof.
  destruct (instance_index_round_trip threeGroupService 3 4%nat
              wellFormed_threeGroupService eq_refl) as (H1 & H2 & _).
  by split.
Defined.

(** ** [start] forks at most once *)

Module UtilityProcessLifecycleFacts.
Import UtilityProcess UtilityProcessLifecycle.




Example start_after_exit :
  let h := mkHost true true (mkElectronProcess (Some 42) 0) in
  let cfg := mkConfiguration "shared" "channel" "nonce" in
  let o := runLifecycle [Start h cfg; Deliver Spawn; Deliver (Exit 0); Start h cfg]
                        (newObject "1") in
  forks o = ["shared-1"] ∧
  onExit (state o) = [mkExitEvent (Some 42) 0] ∧
  startLogged o = [(Info, CreatingNew); (Error, AlreadyRunning)].
Proof. by split_and!. Qed.



End UtilityProcessLifecycleFacts.
